(** * SmartTutors: the speech-reading controller (speech.js)

    A shallow embedding of the [SpeechManager] class: its text normalizer
    ([prepareText]), its voice selection policy ([loadVoices]) and its
    session operations ([speak], [stop], [pause], [resume]), followed by the
    properties the specification states about them. *)

From Stdlib Require Import PrimFloat.
From Stdlib Require Import String Ascii List NArith Arith Bool Lia.
Import ListNotations.

Local Open Scope N_scope.

(** ** JavaScript strings

    A JavaScript string is a sequence of UTF-16 code units; [length],
    [substring], [split('')] and the regular expressions of the source (none
    has the [u] flag) all work on code units. *)

Definition codeUnit := N.
Definition jsstring := list codeUnit.

(** The code units of an ASCII literal of the source. *)
Definition js (s : string) : jsstring := map N_of_ascii (list_ascii_of_string s).

Definition isEmpty (s : jsstring) : bool :=
  match s with [] => true | _ :: _ => false end.

(** [a || b] on strings: the empty string is falsy. *)
Definition orElse (a b : jsstring) : jsstring := if isEmpty a then b else a.

(** [\s], and what [trim] strips: WhiteSpace and LineTerminator of ECMAScript. *)
Definition isSpace (c : codeUnit) : bool :=
  (c =? 0x9) || (c =? 0xA) || (c =? 0xB) || (c =? 0xC) || (c =? 0xD) ||
  (c =? 0x20) || (c =? 0xA0) || (c =? 0x1680) ||
  ((0x2000 <=? c) && (c <=? 0x200A)) ||
  (c =? 0x2028) || (c =? 0x2029) || (c =? 0x202F) || (c =? 0x205F) ||
  (c =? 0x3000) || (c =? 0xFEFF).

(** [\n] *)
Definition isNewline (c : codeUnit) : bool := c =? 0xA.

(** [\d] *)
Definition isDigit (c : codeUnit) : bool := (0x30 <=? c) && (c <=? 0x39).

(** [\w]: [A-Za-z0-9_] *)
Definition isWord (c : codeUnit) : bool :=
  isDigit c || ((0x41 <=? c) && (c <=? 0x5A)) || ((0x61 <=? c) && (c <=? 0x7A)) ||
  (c =? 0x5F).

(** [[.!?]] *)
Definition isSentenceMark (c : codeUnit) : bool :=
  (c =? 0x2E) || (c =? 0x21) || (c =? 0x3F).

(** [\b] between two neighbouring positions; [None] is the start or the end
    of the string, which counts as a non-word character. *)
Definition isWordAt (c : option codeUnit) : bool :=
  match c with Some c => isWord c | None => false end.

Definition isDigitAt (c : option codeUnit) : bool :=
  match c with Some c => isDigit c | None => false end.

Definition wordBoundary (before after : option codeUnit) : bool :=
  xorb (isWordAt before) (isWordAt after).

(** Length of the longest prefix whose code units all satisfy [p]: what a
    greedy [[class]*] consumes. *)
Fixpoint spanLen (p : codeUnit -> bool) (s : jsstring) : nat :=
  match s with
  | c :: rest => if p c then S (spanLen p rest) else O
  | [] => O
  end.

Fixpoint stripPrefix (p s : jsstring) : option jsstring :=
  match p, s with
  | [], _ => Some s
  | a :: p', b :: s' => if a =? b then stripPrefix p' s' else None
  | _ :: _, [] => None
  end.

(** [s.split('').join(' ')] *)
Fixpoint splitJoin (s : jsstring) : jsstring :=
  match s with
  | [] => []
  | [c] => [c]
  | c :: rest => c :: 0x20 :: splitJoin rest
  end.

Fixpoint trimStart (s : jsstring) : jsstring :=
  match s with
  | c :: rest => if isSpace c then trimStart rest else s
  | [] => []
  end.

Definition trimEnd (s : jsstring) : jsstring := rev (trimStart (rev s)).

Definition trim (s : jsstring) : jsstring := trimEnd (trimStart s).

(** ** [String.prototype.replace] with a global regular expression

    A [Matcher] is one regular expression tried at one position: it sees the
    code unit before the position (for [\b]) and the rest of the string, and
    answers how many code units the match consumes and what replaces them.
    [replaceAll] scans left to right as [replace] with the [g] flag does: at
    a match it emits the replacement and resumes after the match, otherwise
    it copies one code unit.  [skip] counts the code units of the current
    match still to be passed over. *)

Definition Matcher := option codeUnit -> jsstring -> option (nat * jsstring).

Fixpoint replaceAll (m : Matcher) (prev : option codeUnit) (skip : nat)
    (s : jsstring) : jsstring :=
  match s with
  | [] => []
  | c :: rest =>
      match skip with
      | S k => replaceAll m (Some c) k rest
      | O =>
          match m prev s with
          | Some (S k, replacement) => replacement ++ replaceAll m (Some c) k rest
          | _ => c :: replaceAll m (Some c) 0 rest
          end
      end
  end.

Definition replace (m : Matcher) (s : jsstring) : jsstring := replaceAll m None 0 s.

(** [/\s+/g] replaced by [' '] *)
Definition whitespaceRun : Matcher := fun _ s =>
  match spanLen isSpace s with
  | O => None
  | n => Some (n, js " ")
  end.

(** [/\n+/g] replaced by ['. '] *)
Definition newlineRun : Matcher := fun _ s =>
  match spanLen isNewline s with
  | O => None
  | n => Some (n, js ". ")
  end.

(** [/([.!?])\s*([.!?])+/g] replaced by ['$1'].  After the first mark the
    greedy [\s*] takes the whole whitespace run; giving some of it back
    would leave a whitespace unit where a mark is required, so the match
    exists exactly when a mark follows that run. *)
Definition duplicatePunctuation : Matcher := fun _ s =>
  match s with
  | c :: rest =>
      if isSentenceMark c then
        let blanks := spanLen isSpace rest in
        match spanLen isSentenceMark (skipn blanks rest) with
        | O => None
        | marks => Some (1 + blanks + marks, [c])%nat
        end
      else None
  | [] => None
  end.

(** [/\b(https?:\/\/[^\s]+)/g] replaced by ['link'] *)
Definition url : Matcher := fun prev s =>
  if wordBoundary prev (hd_error s) then
    match stripPrefix (js "http") s with
    | Some r =>
        let r := match stripPrefix (js "s") r with Some r' => r' | None => r end in
        match stripPrefix (js "://") r with
        | Some r =>
            match spanLen (fun c => negb (isSpace c)) r with
            | O => None
            | n => Some (length s - length r + n, js "link")%nat
            end
        | None => None
        end
    | None => None
    end
  else None.

(** [/\b\d{4,}\b/g] replaced by [match.split('').join(' ')].  The greedy
    [\d{4,}] takes the whole digit run; a shorter choice would end between
    two digits, where there is no word boundary, so the match exists exactly
    when the whole run is delimited by boundaries. *)
Definition longNumber : Matcher := fun prev s =>
  let n := spanLen isDigit s in
  if wordBoundary prev (hd_error s) && (4 <=? n)%nat &&
     wordBoundary (nth_error s (n - 1)) (nth_error s n)
  then Some (n, splitJoin (firstn n s))
  else None.

(** ** The text normalizer *)

(** What the page's host provides to the class: the text of a detached
    [div] whose [innerHTML] was set to the argument (the browser's HTML
    parser), and [String.prototype.toLowerCase]. *)
Class Host := {
  textContent : jsstring -> jsstring;
  innerText : jsstring -> jsstring;
  toLowerCase : jsstring -> jsstring
}.

Definition maxLength : nat := 3000.

Definition truncationNotice : jsstring := js "... text truncated for speech.".

(** The chain of replacements and the final [trim] of [prepareText]. *)
Definition cleanUp (s : jsstring) : jsstring :=
  trim
    (replace longNumber
       (replace url
          (replace duplicatePunctuation
             (replace newlineRun
                (replace whitespaceRun s))))).

(** [cleanText] as it stands before the length limit is applied. *)
Definition cleaned `{Host} (text : jsstring) : jsstring :=
  cleanUp (orElse (textContent text) (orElse (innerText text) [])).

(** [prepareText(text)]; [None] is an absent ([undefined] or [null]) text. *)
Definition prepareText `{Host} (text : option jsstring) : jsstring :=
  match text with
  | None | Some [] => []
  | Some text =>
      let cleanText := cleaned text in
      if (maxLength <? length cleanText)%nat
      then firstn maxLength cleanText ++ truncationNotice
      else cleanText
  end.

(** ASCII capitals lower-cased, as [toLowerCase] does to them. *)
Definition asciiLower (c : codeUnit) : codeUnit :=
  if (0x41 <=? c) && (c <=? 0x5A) then c + 0x20 else c.

(** A host for markup-free ASCII text: on a string without ['<'], ['&'],
    NUL or CR the HTML parser yields one text node holding the string
    itself. *)
Definition plainHost : Host := {|
  textContent := fun s => s;
  innerText := fun s => s;
  toLowerCase := map asciiLower
|}.

(** ** Data model *)

(** A JavaScript number is an IEEE 754 double. *)
Definition number := PrimFloat.float.

(** Truthiness of a number: [0], [-0] and [NaN] are falsy. *)
Definition truthy (x : number) : bool :=
  negb (PrimFloat.eqb x 0%float || PrimFloat.is_nan x).

(** [SpeechSynthesisVoice], as far as the class reads it. *)
Record VoiceHandle := { name : jsstring; lang : jsstring }.

Module Settings.
Record t := {
  rate : number;
  pitch : number;
  volume : number;
  voice : option VoiceHandle   (* [None] is [null] *)
}.
End Settings.

(** The [options] argument of [speak] and the argument of
    [updateSettings]: any field may be left out. *)
Module Options.
Record t := {
  rate : option number;
  pitch : option number;
  volume : option number;
  voice : option VoiceHandle
}.
Definition none : t := {| rate := None; pitch := None; volume := None; voice := None |}.
End Options.

(** [SpeechSynthesisUtterance]: the request handed to the engine. *)
Module Utterance.
Record t := {
  text : jsstring;
  rate : number;
  pitch : number;
  volume : number;
  voice : option VoiceHandle
}.
End Utterance.

(** [options.rate || this.settings.rate] *)
Definition orNumber (given : option number) (default : number) : number :=
  match given with
  | Some x => if truthy x then x else default
  | None => default
  end.

(** [options.voice || this.settings.voice]: a voice object is truthy. *)
Definition orVoice (given default : option VoiceHandle) : option VoiceHandle :=
  match given with
  | Some v => Some v
  | None => default
  end.

(** ** The speech engine

    [window.speechSynthesis] is the browser's, not the repository's.  This
    is the part of the Web Speech API the class relies on: [speak] appends
    to the engine's queue, [cancel] empties it, [pause] and [resume] set and
    clear the paused flag, neither [speak] nor [cancel] touches that flag,
    and [speaking] holds while the queue has an utterance.  [failing] is a
    platform on which [speak] throws. *)
Module Synth.
Record t := {
  catalog : list VoiceHandle;
  queue : list Utterance.t;
  paused : bool;
  failing : bool
}.

Definition speaking (e : t) : bool :=
  match queue e with [] => false | _ :: _ => true end.

Definition getVoices (e : t) : list VoiceHandle := catalog e.

Definition withQueue (q : list Utterance.t) (e : t) : t :=
  {| catalog := catalog e; queue := q; paused := paused e; failing := failing e |}.

Definition withPaused (b : bool) (e : t) : t :=
  {| catalog := catalog e; queue := queue e; paused := b; failing := failing e |}.

Definition withCatalog (c : list VoiceHandle) (e : t) : t :=
  {| catalog := c; queue := queue e; paused := paused e; failing := failing e |}.

(** [None]: the call throws. *)
Definition speak (u : Utterance.t) (e : t) : option t :=
  if failing e then None else Some (withQueue (queue e ++ [u]) e).

Definition cancel (e : t) : t := withQueue [] e.

Definition pause (e : t) : t := withPaused true e.

Definition resume (e : t) : t := withPaused false e.

(** The engine is done with the utterance at the head of its queue
    (spoken to its end, or given up on). *)
Definition finish (e : t) : t := withQueue (tl (queue e)) e.
End Synth.

(** ** Effects

    What an operation does outside the object: console output, calls on the
    engine, the user-interface hooks (each rewrites the speech buttons of
    the page) and the notification banner of [window.AITutor]. *)
Inductive Level := Log | Warn | Error.

Inductive Hook := OnSpeechStart | OnSpeechEnd | OnSpeechPause | OnSpeechResume.

Inductive EngineCall :=
| GetVoices
| Speak (u : Utterance.t)
| Cancel
| Pause
| Resume.

Inductive Effect :=
| Console (level : Level) (message : string)
| Ui (hook : Hook)
| Engine (call : EngineCall)
| Notification (message : string) (severity : string) (duration : nat).

(** What the engine reports on an utterance; [speak] attaches a handler for
    each to every utterance it creates. *)
Inductive Report := OnStart | OnEnd | OnError (error : jsstring) | OnPause | OnResume.

(** ** The controller *)

Record SpeechManager := {
  synth : option Synth.t;     (* [None]: [window.speechSynthesis] is missing *)
  voices : list VoiceHandle;
  currentUtterance : option Utterance.t;
  isInitialized : bool;
  settings : Settings.t
}.

Definition withSynth (e : option Synth.t) (m : SpeechManager) : SpeechManager :=
  {| synth := e; voices := voices m; currentUtterance := currentUtterance m;
     isInitialized := isInitialized m; settings := settings m |}.

Definition withVoices (v : list VoiceHandle) (m : SpeechManager) : SpeechManager :=
  {| synth := synth m; voices := v; currentUtterance := currentUtterance m;
     isInitialized := isInitialized m; settings := settings m |}.

Definition withCurrentUtterance (u : option Utterance.t) (m : SpeechManager) : SpeechManager :=
  {| synth := synth m; voices := voices m; currentUtterance := u;
     isInitialized := isInitialized m; settings := settings m |}.

Definition withIsInitialized (b : bool) (m : SpeechManager) : SpeechManager :=
  {| synth := synth m; voices := voices m; currentUtterance := currentUtterance m;
     isInitialized := b; settings := settings m |}.

Definition withSettings (s : Settings.t) (m : SpeechManager) : SpeechManager :=
  {| synth := synth m; voices := voices m; currentUtterance := currentUtterance m;
     isInitialized := isInitialized m; settings := s |}.

(** A method of the class: it reads and updates the object and leaves a
    record of its effects, in order. *)
Definition Action (A : Type) : Type := SpeechManager -> A * SpeechManager * list Effect.

Definition ret {A} (a : A) : Action A := fun m => (a, m, []).

Definition bind {A B} (x : Action A) (f : A -> Action B) : Action B :=
  fun m =>
    let '(a, m1, fx1) := x m in
    let '(b, m2, fx2) := f a m1 in
    (b, m2, fx1 ++ fx2).

Definition this : Action SpeechManager := fun m => (m, m, []).

Definition update (f : SpeechManager -> SpeechManager) : Action unit :=
  fun m => (tt, f m, []).

Definition emit (e : Effect) : Action unit := fun m => (tt, m, [e]).

Declare Scope action_scope.
Delimit Scope action_scope with action.
Bind Scope action_scope with Action.
Notation "x <- c ;; k" := (bind c (fun x => k))
  (at level 61, c at next level, right associativity) : action_scope.
Notation "c ;; k" := (bind c (fun _ => k))
  (at level 61, right associativity) : action_scope.
Local Open Scope action_scope.

(** The object and the effects an action leaves behind. *)
Definition after {A} (x : Action A) (m : SpeechManager) : SpeechManager := snd (fst (x m)).
Definition effectsOf {A} (x : Action A) (m : SpeechManager) : list Effect := snd (x m).

Definition console (level : Level) (message : string) : Action unit :=
  emit (Console level message).

(** *** Voice selection *)

Definition startsWith (prefix s : jsstring) : bool :=
  match stripPrefix prefix s with Some _ => true | None => false end.

Fixpoint includes (part s : jsstring) : bool :=
  match s with
  | [] => startsWith part []
  | _ :: rest => startsWith part s || includes part rest
  end.

Fixpoint sameString (a b : jsstring) : bool :=
  match a, b with
  | [], [] => true
  | x :: a', y :: b' => (x =? y) && sameString a' b'
  | _, _ => false
  end.

(** [voice.lang.startsWith('en-') || voice.lang === 'en'] *)
Definition isEnglish (v : VoiceHandle) : bool :=
  startsWith (js "en-") (lang v) || sameString (lang v) (js "en").

(** The test [loadVoices] hands to [find]. *)
Definition soundsFemale `{Host} (v : VoiceHandle) : bool :=
  includes (js "female") (toLowerCase (name v)) ||
  includes (js "woman") (toLowerCase (name v)) ||
  includes (js "samantha") (toLowerCase (name v)) ||
  includes (js "karen") (toLowerCase (name v)) ||
  includes (js "victoria") (toLowerCase (name v)).

Definition setVoice (v : option VoiceHandle) (s : Settings.t) : Settings.t :=
  {| Settings.rate := Settings.rate s; Settings.pitch := Settings.pitch s;
     Settings.volume := Settings.volume s; Settings.voice := v |}.

(** [loadVoices()], for the engine [this.synth] stands for: every caller
    ([init] and the two listeners it registers) runs only when there is
    one. *)
Definition loadVoices `{Host} (e : Synth.t) : Action unit :=
  emit (Engine GetVoices) ;;
  update (withVoices (Synth.getVoices e)) ;;
  m <- this ;;
  let englishVoices := filter isEnglish (voices m) in
  (if (0 <? length englishVoices)%nat then
     let femaleVoice := find soundsFemale englishVoices in
     update (withSettings (setVoice (orVoice femaleVoice (hd_error englishVoices)) (settings m)))
   else if (0 <? length (voices m))%nat then
     update (withSettings (setVoice (hd_error (voices m)) (settings m)))
   else ret tt) ;;
  console Log "Loaded voices, selected:".

(** *** Hooks *)

Definition onSpeechStart : Action unit := emit (Ui OnSpeechStart).
Definition onSpeechEnd : Action unit := emit (Ui OnSpeechEnd).
Definition onSpeechPause : Action unit := emit (Ui OnSpeechPause).
Definition onSpeechResume : Action unit := emit (Ui OnSpeechResume).

(** [notifier]: [window.AITutor.NotificationManager] is there. *)
Definition onSpeechError (notifier : bool) (error : jsstring) : Action unit :=
  console Error "Speech synthesis error:" ;;
  if notifier
  then emit (Notification "Speech playback failed. Please try again." "warning" 3000)
  else ret tt.

(** *** Operations *)

Definition stop : Action unit :=
  m <- this ;;
  match synth m with
  | Some e => emit (Engine Cancel) ;; update (withSynth (Some (Synth.cancel e)))
  | None => ret tt
  end ;;
  update (withCurrentUtterance None) ;;
  onSpeechEnd.

(** The utterance [speak] creates and fills in from [options] and
    [this.settings]. *)
Definition newUtterance (cleanText : jsstring) (options : Options.t) (s : Settings.t)
    : Utterance.t := {|
  Utterance.text := cleanText;
  Utterance.rate := orNumber (Options.rate options) (Settings.rate s);
  Utterance.pitch := orNumber (Options.pitch options) (Settings.pitch s);
  Utterance.volume := orNumber (Options.volume options) (Settings.volume s);
  Utterance.voice := orVoice (Options.voice options) (Settings.voice s)
|}.

(** The [try] block that ends [speak]. *)
Definition startSpeaking (utterance : Utterance.t) (e : Synth.t) : Action unit :=
  emit (Engine (Speak utterance)) ;;
  match Synth.speak utterance e with
  | Some e' => update (withSynth (Some e'))
  | None =>
      console Error "Failed to start speech:" ;;
      update (withCurrentUtterance None)
  end.

Definition speak `{Host} (text : option jsstring) (options : Options.t) : Action unit :=
  m <- this ;;
  match synth m with
  | None => console Warn "Speech synthesis not available"
  | Some _ =>
      stop ;;
      let cleanText := prepareText text in
      if isEmpty (trim cleanText) then console Warn "No text to speak"
      else
        m <- this ;;
        let utterance := newUtterance cleanText options (settings m) in
        update (withCurrentUtterance (Some utterance)) ;;
        m <- this ;;
        match synth m with
        | Some e => startSpeaking utterance e
        | None => ret tt
        end
  end.

Definition pause : Action unit :=
  m <- this ;;
  match synth m with
  | Some e =>
      if Synth.speaking e && negb (Synth.paused e)
      then emit (Engine Pause) ;; update (withSynth (Some (Synth.pause e)))
      else ret tt
  | None => ret tt
  end.

Definition resume : Action unit :=
  m <- this ;;
  match synth m with
  | Some e =>
      if Synth.paused e
      then emit (Engine Resume) ;; update (withSynth (Some (Synth.resume e)))
      else ret tt
  | None => ret tt
  end.

(** [isSpeaking()] and [isPaused()], as conditions. *)
Definition isSpeaking (m : SpeechManager) : bool :=
  match synth m with Some e => Synth.speaking e | None => false end.

Definition isPaused (m : SpeechManager) : bool :=
  match synth m with Some e => Synth.paused e | None => false end.

(** The handlers [speak] attaches to an utterance. *)
Definition handler (notifier : bool) (r : Report) : Action unit :=
  match r with
  | OnStart => console Log "Speech started" ;; onSpeechStart
  | OnEnd =>
      console Log "Speech ended" ;; onSpeechEnd ;;
      update (withCurrentUtterance None)
  | OnError error =>
      console Error "Speech error:" ;; onSpeechError notifier error ;;
      update (withCurrentUtterance None)
  | OnPause => console Log "Speech paused" ;; onSpeechPause
  | OnResume => console Log "Speech resumed" ;; onSpeechResume
  end.

(** [updateSettings(newSettings)]: the fields present replace the old. *)
Definition updateSettings (new : Options.t) : Action unit :=
  update (fun m =>
    let s := settings m in
    withSettings {|
      Settings.rate := match Options.rate new with Some x => x | None => Settings.rate s end;
      Settings.pitch := match Options.pitch new with Some x => x | None => Settings.pitch s end;
      Settings.volume := match Options.volume new with Some x => x | None => Settings.volume s end;
      Settings.voice := match Options.voice new with Some v => Some v | None => Settings.voice s end
    |} m).

(** *** Construction *)

#[warnings="-inexact-float"]
Definition defaultSettings : Settings.t := {|
  Settings.rate := 0.9%float;
  Settings.pitch := 1%float;
  Settings.volume := 0.8%float;
  Settings.voice := None
|}.

Definition init `{Host} : Action unit :=
  m <- this ;;
  match synth m with
  | None => console Warn "Speech synthesis not supported in this browser"
  | Some e => loadVoices e
  end.

(** [new SpeechManager()] on a page whose engine is [engine]. *)
Definition newSpeechManager `{Host} (engine : option Synth.t) : SpeechManager :=
  after init {|
    synth := engine;
    voices := [];
    currentUtterance := None;
    isInitialized := false;
    settings := defaultSettings
  |}.

(** *** The life of the page

    Everything that can happen to the object after its construction: calls
    of its operations, the two listeners of [init], reports of the engine on
    an utterance, and the engine finishing with the utterance it speaks. *)
Inductive Event :=
| CallSpeak (text : option jsstring) (options : Options.t)
| CallStop
| CallPause
| CallResume
| CallUpdateSettings (new : Options.t)
| FirstClick
| VoicesChanged (catalog : list VoiceHandle)
| Reports (r : Report)
| Finishes.

Definition react `{Host} (notifier : bool) (ev : Event) : Action unit :=
  match ev with
  | CallSpeak text options => speak text options
  | CallStop => stop
  | CallPause => pause
  | CallResume => resume
  | CallUpdateSettings new => updateSettings new
  | FirstClick =>
      m <- this ;;
      match synth m with
      | Some e =>
          if isInitialized m then ret tt
          else loadVoices e ;; update (withIsInitialized true)
      | None => ret tt
      end
  | VoicesChanged catalog =>
      m <- this ;;
      match synth m with
      | Some e =>
          let e' := Synth.withCatalog catalog e in
          update (withSynth (Some e')) ;; loadVoices e'
      | None => ret tt
      end
  | Reports r => handler notifier r
  | Finishes =>
      update (fun m => withSynth (option_map Synth.finish (synth m)) m)
  end.

Fixpoint run `{Host} (notifier : bool) (events : list Event) : Action unit :=
  match events with
  | [] => ret tt
  | ev :: rest => react notifier ev ;; run notifier rest
  end.

(** ** The session

    The class keeps no state of its own: the three states of the
    specification are conditions on the two flags the engine reports.
    [Speaking] is what [pause] tests and [Paused] what [resume] tests;
    [Idle] is an engine with nothing to speak.  The engine keeps its paused
    flag across [cancel], so the flag can still be set in an idle session. *)
Inductive Session := Idle | Speaking | Paused.

Definition inState (s : Session) (m : SpeechManager) : bool :=
  match s with
  | Idle => negb (isSpeaking m)
  | Speaking => isSpeaking m && negb (isPaused m)
  | Paused => isPaused m
  end.

(** The object as [stop] leaves it when the engine is [e]. *)
Definition stopped (e : Synth.t) (m : SpeechManager) : SpeechManager :=
  withCurrentUtterance None (withSynth (Some (Synth.cancel e)) m).

(** The utterances the engine holds for the page. *)
Definition heldBy (m : SpeechManager) : list Utterance.t :=
  match synth m with Some e => Synth.queue e | None => [] end.

(** At most one utterance is active: the engine holds at most one, and it
    is the current one of the object whenever the object has one. *)
Definition atMostOneActive (m : SpeechManager) : Prop :=
  (length (heldBy m) <= 1)%nat /\
  forall u, currentUtterance m = Some u -> forall v, In v (heldBy m) -> v = u.

(** ** The specification's wording *)

(** The voice policy: among the English voices the first that sounds
    female, else the first English voice, else the first voice of the
    catalog, else the default voice is left as it was. *)
Definition preferredVoice `{Host} (catalog : list VoiceHandle)
    (unset : option VoiceHandle) : option VoiceHandle :=
  match find soundsFemale (filter isEnglish catalog) with
  | Some v => Some v
  | None =>
      match filter isEnglish catalog with
      | v :: _ => Some v
      | [] => match catalog with v :: _ => Some v | [] => unset end
      end
  end.

(** The two tests of the policy in the specification's words, apart from
    the code's: a language tag that is ["en"] or ["en-"] and more, and a
    name that holds, once in lower case, one of the five marks. *)
Definition hasEnglishTag (v : VoiceHandle) : Prop :=
  lang v = js "en" \/ exists region, lang v = js "en-" ++ region.

Definition femaleMarks : list jsstring :=
  [js "female"; js "woman"; js "samantha"; js "karen"; js "victoria"].

Definition namedFemale `{Host} (v : VoiceHandle) : Prop :=
  exists mark before rest,
    In mark femaleMarks /\ toLowerCase (name v) = before ++ mark ++ rest.

(** [x] is the first element of [l] with the property [P]. *)
Definition firstOf {A : Type} (P : A -> Prop) (l : list A) (x : A) : Prop :=
  exists before rest, l = before ++ x :: rest /\ P x /\ forall y, In y before -> ~ P y.

(** A field of the request merged from [options] over the settings, as
    the code does it: the value given when one is given and is truthy, the
    setting otherwise. *)
Definition mergedNumber (given : option number) (setting result : number) : Prop :=
  (forall x, given = Some x -> truthy x = true -> result = x) /\
  (forall x, given = Some x -> truthy x = false -> result = setting) /\
  (given = None -> result = setting).

(** ** Scanning positions *)

(** The code unit before the position reached after [s], [prev] being the
    one before [s]. *)
Fixpoint lastUnit (prev : option codeUnit) (s : jsstring) : option codeUnit :=
  match s with
  | [] => prev
  | c :: rest => lastUnit (Some c) rest
  end.

(** ** Sample data *)

(** A text longer than 3000 code units: an [a], 3000 spaces and a [b]. *)
Definition spacedOut : jsstring := js "a" ++ repeat 0x20 3000 ++ js "b".

(** Two lines of text separated by one line feed. *)
Definition twoLines : jsstring := js "First line" ++ [0xA] ++ js "Second line".

Definition david : VoiceHandle := {| name := js "Microsoft David"; lang := js "en-US" |}.
Definition samantha : VoiceHandle := {| name := js "Samantha"; lang := js "en-US" |}.

(** A request to speak at volume 0. *)
Definition silent : Options.t := {|
  Options.rate := None;
  Options.pitch := None;
  Options.volume := Some 0%float;
  Options.voice := None
|}.

(** A request to speak half as fast again. *)
Definition brisk : Options.t := {|
  Options.rate := Some 1.5%float;
  Options.pitch := None;
  Options.volume := None;
  Options.voice := None
|}.

(** An engine at rest with the given voices. *)
Definition quietEngine (catalog : list VoiceHandle) : Synth.t := {|
  Synth.catalog := catalog;
  Synth.queue := [];
  Synth.paused := false;
  Synth.failing := false
|}.

(** A new object on a page whose engine is at rest and knows two voices. *)
Definition freshManager : SpeechManager :=
  newSpeechManager (H := plainHost) (Some (quietEngine [david; samantha])).

(** The same object while it reads "Hello" aloud. *)
Definition readingManager : SpeechManager :=
  after (speak (H := plainHost) (Some (js "Hello")) Options.none) freshManager.

(** * The rest of the page *)

From Stdlib Require DecimalString.
From Stdlib Require Import Sorted.

(** ** The listeners of speech.js

    The document-wide [click] and [keydown] listeners registered on
    [DOMContentLoaded].  What they look up in the document is their input:
    the trigger [closest] finds, its attributes, the elements its selectors
    lead to, the text selection and the open modal. *)

(** An element a listener reads its text from. *)
Record Element := {
  elementTextContent : jsstring;
  elementInnerText : jsstring
}.

(** [el.textContent || el.innerText] *)
Definition readableText (el : Element) : jsstring :=
  orElse (elementTextContent el) (elementInnerText el).

(** The speech trigger a click landed on. *)
Record Trigger := {
  (* [data-text], when the trigger has the attribute *)
  dataText : option jsstring;
  (* [data-speak], when the trigger has it: what [querySelector] finds *)
  dataSpeak : option (option Element);
  (* the closest [.modal-body], [.card-body] or [.chat-bubble], when there
     is one: the answer element [querySelector] finds in it *)
  answerNearby : option (option Element)
}.

(** [textToSpeak] as the click listener works it out. *)
Definition textToSpeak (t : Trigger) : jsstring :=
  match dataText t with
  | Some text => text
  | None =>
      match dataSpeak t with
      | Some found =>
          match found with
          | Some textElement => readableText textElement
          | None => []
          end
      | None =>
          match answerNearby t with
          | Some (Some answerElement) => readableText answerElement
          | _ => []
          end
      end
  end.

(** The click listener; [target] is what [e.target.closest(...)] returns.
    The result tells whether [e.preventDefault()] was called. *)
Definition onClick `{Host} (notifier : bool) (target : option Trigger) : Action bool :=
  match target with
  | None => ret false
  | Some t =>
      m <- this ;;
      if isSpeaking m then (stop ;; ret true)
      else if isEmpty (textToSpeak t) then
        (console Warn "No text found to speak" ;;
         (if notifier
          then emit (Notification "No text available to read aloud." "warning" 2000)
          else ret tt) ;;
         ret true)
      else (speak (Some (textToSpeak t)) Options.none ;; ret true)
  end.

Record KeyDown := {
  ctrlKey : bool;
  metaKey : bool;
  shiftKey : bool;
  key : jsstring
}.

(** What the [keydown] listener reads from the page. *)
Record PageView := {
  (* [window.getSelection().toString()] *)
  selection : jsstring;
  (* the [.modal.show] element, when there is one: the [textContent] of
     its [#modal-answer] or [.modal-body], when it has one *)
  openModal : option (option jsstring)
}.

(** Ctrl or Cmd, with Shift and [S] *)
Definition isSpeechShortcut (e : KeyDown) : bool :=
  (ctrlKey e || metaKey e) && shiftKey e && sameString (key e) (js "S").

(** The [keydown] listener; the result tells whether [e.preventDefault()]
    was called. *)
Definition onKeyDown `{Host} (e : KeyDown) (page : PageView) : Action bool :=
  prevented <-
    (if isSpeechShortcut e then
       m <- this ;;
       (if isSpeaking m then stop
        else if isEmpty (selection page) then
          match openModal page with
          | Some (Some modalText) => speak (Some modalText) Options.none
          | _ => ret tt
          end
        else speak (Some (selection page)) Options.none) ;;
       ret true
     else ret false) ;;
  m <- this ;;
  (if sameString (key e) (js "Escape") && isSpeaking m then stop else ret tt) ;;
  ret prevented.

(** ** Blanks in a string *)

(** Every whitespace unit of [s] is a plain space and no two of them are
    neighbours; [afterSpace] tells whether a space stands right before
    [s]. *)
Fixpoint singleSpaced (afterSpace : bool) (s : jsstring) : bool :=
  match s with
  | [] => true
  | c :: rest =>
      if isSpace c
      then (c =? 0x20) && negb afterSpace && singleSpaced true rest
      else singleSpaced false rest
  end.

(** Whether a space stands right before the position after [s]. *)
Fixpoint spaceAtEnd (afterSpace : bool) (s : jsstring) : bool :=
  match s with
  | [] => afterSpace
  | c :: rest => spaceAtEnd (isSpace c) rest
  end.

(** A replacement that starts and ends on a unit that is not whitespace and
    has single spaces inside. *)
Definition solidReplacement (replacement : jsstring) : Prop :=
  (exists c r, replacement = c :: r /\ isSpace c = false) /\
  singleSpaced false replacement = true /\
  spaceAtEnd false replacement = false.

(** ** Class lists *)

(** [classList.remove] and [classList.add]: the list is a set of tokens. *)
Definition removeClass (token : string) (classes : list string) : list string :=
  filter (fun c => negb (String.eqb c token)) classes.

Definition addClass (token : string) (classes : list string) : list string :=
  if existsb (String.eqb token) classes then classes else classes ++ [token].

(** ** Form utilities (main.js) *)

Module FormUtils.

(** The [rules] object of [validateField].  [required] and [email] are
    read for their truthiness; the two lengths are counts, left out
    ([None]) or given. *)
Record Rules := {
  required : bool;
  minLength : option nat;
  maxLength : option nat;
  email : bool
}.

(** A length rule as a number: one left out counts as 0, which is falsy as
    well. *)
Definition limit (n : option nat) : nat :=
  match n with Some n => n | None => 0%nat end.

(** [[^\s@]] *)
Definition isAddressUnit (c : codeUnit) : bool := negb (isSpace c) && negb (c =? 0x40).

(** A dot with a unit after it. *)
Fixpoint dotBeforeEnd (s : jsstring) : bool :=
  match s with
  | c :: (_ :: _) as rest => (c =? 0x2E) || dotBeforeEnd rest
  | _ => false
  end.

(** [/^[^\s@]+@[^\s@]+\.[^\s@]+$/.test(email)].  The greedy first class
    takes every unit up to the first [@] or whitespace, and stopping
    earlier would leave a unit that is not [@] where the [@] must stand.
    What follows the [@] has to match to the end, so all of it is of the
    class, and some dot in it has a unit before it and a unit after it. *)
Definition isValidEmail (email : jsstring) : bool :=
  let name := spanLen isAddressUnit email in
  match skipn name email with
  | c :: domain =>
      (0 <? name)%nat && (c =? 0x40) && forallb isAddressUnit domain &&
      match domain with
      | _ :: rest => dotBeforeEnd rest
      | [] => false
      end
  | [] => false
  end.

(** A count as a template literal prints it. *)
Definition decimal (n : nat) : jsstring := js (DecimalString.NilEmpty.string_of_uint (Nat.to_uint n)).

(** [isValid] and [message] as [validateField] works them out from
    [field.value]. *)
Definition judge (rules : Rules) (fieldValue : jsstring) : bool * jsstring :=
  let value := trim fieldValue in
  if required rules && isEmpty value then
    (false, js "This field is required")
  else if (0 <? limit (minLength rules))%nat &&
          (length value <? limit (minLength rules))%nat then
    (false, js "Minimum " ++ decimal (limit (minLength rules)) ++ js " characters required")
  else if (0 <? limit (maxLength rules))%nat &&
          (limit (maxLength rules) <? length value)%nat then
    (false, js "Maximum " ++ decimal (limit (maxLength rules)) ++ js " characters allowed")
  else if email rules && negb (isValidEmail value) then
    (false, js "Please enter a valid email address")
  else (true, []).

(** A form field: its value, its class list, and the text of the
    [.invalid-feedback] element beside it, when there is one. *)
Record Field := {
  value : jsstring;
  classList : list string;
  feedback : option jsstring
}.

Definition showFieldValidation (field : Field) (isValid : bool) (message : jsstring) : Field :=
  if isValid then
    {| value := value field;
       classList := addClass "is-valid" (removeClass "is-invalid" (classList field));
       feedback := feedback field |}
  else
    {| value := value field;
       classList := addClass "is-invalid" (removeClass "is-valid" (classList field));
       feedback := match feedback field with
                   | Some _ => Some message
                   | None => None
                   end |}.

(** [validateField(field, rules)]: the field as it is left, and the
    verdict returned. *)
Definition validateField (field : Field) (rules : Rules) : Field * bool :=
  let (isValid, message) := judge rules (value field) in
  (showFieldValidation field isValid message, isValid).

End FormUtils.

(** ** What the engine is asked, in order *)

(** In a record of effects, every request was handed to the engine right
    after a [cancel] and the speech-ended hook. *)
Definition cancelsBeforeSpeaking (fx : list Effect) : Prop :=
  forall before u later,
    fx = before ++ Engine (Speak u) :: later ->
    exists earlier, before = earlier ++ [Engine Cancel; Ui OnSpeechEnd].

(** ** Positions in a text *)

(** [[^\s]] *)
Definition notSpace (c : codeUnit) : bool := negb (isSpace c).

(** Whitespace, or the start or the end of the text. *)
Definition isBreakAt (c : option codeUnit) : bool :=
  match c with Some c => isSpace c | None => true end.

(** The address of a link: [http://] or [https://] and what follows up to
    the next whitespace. *)
Definition isLink (address : jsstring) : Prop :=
  exists rest,
    (address = js "http://" ++ rest \/ address = js "https://" ++ rest) /\
    rest <> [] /\ Forall (fun c => notSpace c = true) address.

(** Whitespace or a sentence mark: what a match of the punctuation pattern
    is made of. *)
Definition isPause (c : codeUnit) : bool := isSpace c || isSentenceMark c.

Definition isMarkAt (c : option codeUnit) : bool :=
  match c with Some c => isSentenceMark c | None => false end.

Definition isPauseAt (c : option codeUnit) : bool :=
  match c with Some c => isPause c | None => false end.


(** ** The speech buttons

    The four hooks of the class rewrite the buttons of the page.  The
    document is the list of its elements in document order; of an element
    the hooks read the class list and the first [i] element inside it,
    which [querySelector] finds and which is an element of the document
    itself, perhaps shared with an enclosing button. *)

Module Buttons.

Record Node := {
  classes : list string;
  (* the place in the document of what [querySelector('i')] finds *)
  firstIcon : option nat
}.

Definition Document := list Node.

Definition hasClass (token : string) (n : Node) : bool :=
  existsb (String.eqb token) (classes n).

(** A selector that is a list of classes. *)
Definition matchesAny (selector : list string) (n : Node) : bool :=
  existsb (fun token => hasClass token n) selector.

Fixpoint selectFrom (selector : list string) (i : nat) (doc : Document) : list nat :=
  match doc with
  | [] => []
  | n :: rest =>
      if matchesAny selector n then i :: selectFrom selector (S i) rest
      else selectFrom selector (S i) rest
  end.

(** [document.querySelectorAll]: the places of the elements that match, in
    document order, as they are when the call is made. *)
Definition querySelectorAll (selector : list string) (doc : Document) : list nat :=
  selectFrom selector 0 doc.

Definition withClasses (f : list string -> list string) (n : Node) : Node :=
  {| classes := f (classes n); firstIcon := firstIcon n |}.

(** The document with the class list of the element at [i] changed. *)
Fixpoint alter (f : list string -> list string) (i : nat) (doc : Document) {struct doc}
    : Document :=
  match doc, i with
  | [], _ => []
  | n :: rest, O => withClasses f n :: rest
  | n :: rest, S i => n :: alter f i rest
  end.

(** [btn.querySelector('i')] *)
Definition iconOf (doc : Document) (btn : nat) : option nat :=
  match nth_error doc btn with
  | Some n => firstIcon n
  | None => None
  end.

(** [if (icon) icon.className = ...] *)
Definition setIcon (className : list string) (btn : nat) (doc : Document) : Document :=
  match iconOf doc btn with
  | Some icon => alter (fun _ => className) icon doc
  | None => doc
  end.

Definition speechButtons : list string := ["speak-btn"; "speak-answer"; "speak-question"]%string.

Definition onSpeechStart (doc : Document) : Document :=
  fold_left
    (fun doc btn => alter (addClass "speaking") btn (setIcon ["fas"; "fa-stop"]%string btn doc))
    (querySelectorAll speechButtons doc) doc.

Definition onSpeechEnd (doc : Document) : Document :=
  fold_left
    (fun doc btn =>
       alter (removeClass "speaking") btn (setIcon ["fas"; "fa-volume-up"]%string btn doc))
    (querySelectorAll speechButtons doc) doc.

Definition onSpeechPause (doc : Document) : Document :=
  fold_left (fun doc btn => setIcon ["fas"; "fa-play"]%string btn doc)
    (querySelectorAll ["speaking"%string] doc) doc.

Definition onSpeechResume (doc : Document) : Document :=
  fold_left (fun doc btn => setIcon ["fas"; "fa-stop"]%string btn doc)
    (querySelectorAll ["speaking"%string] doc) doc.

(** What a hook does to the page. *)
Definition render (hook : Hook) : Document -> Document :=
  match hook with
  | OnSpeechStart => onSpeechStart
  | OnSpeechEnd => onSpeechEnd
  | OnSpeechPause => onSpeechPause
  | OnSpeechResume => onSpeechResume
  end.

(** The selector of a hook. *)
Definition selectorOf (hook : Hook) : list string :=
  match hook with
  | OnSpeechStart | OnSpeechEnd => speechButtons
  | OnSpeechPause | OnSpeechResume => ["speaking"%string]
  end.

(** The class list of the element at [i]. *)
Definition classesAt (doc : Document) (i : nat) : option (list string) :=
  option_map classes (nth_error doc i).

(** Whether the element at [i] matches. *)
Definition selects (selector : list string) (doc : Document) (i : nat) : bool :=
  match nth_error doc i with
  | Some n => matchesAny selector n
  | None => false
  end.

(** The icon of an element stands inside it, so after it in the
    document. *)
Definition inDocumentOrder (doc : Document) : Prop :=
  forall btn icon, iconOf doc btn = Some icon -> (btn < icon < length doc)%nat.

(** One round of a hook. *)
Definition visit (className : list string) (mark : list string -> list string)
    (doc : Document) (btn : nat) : Document :=
  alter mark btn (setIcon className btn doc).

End Buttons.

(** ** More sample data *)

(** A button that carries its text in [data-text]. *)
Definition greetingButton : Trigger :=
  {| dataText := Some (js "Good morning"); dataSpeak := None; answerNearby := None |}.

(** A button whose [data-speak] selector finds no element. *)
Definition danglingButton : Trigger :=
  {| dataText := None; dataSpeak := Some None; answerNearby := None |}.

(** A button whose [data-text] holds three blanks. *)
Definition blankButton : Trigger :=
  {| dataText := Some (js "   "); dataSpeak := None; answerNearby := None |}.

(** Ctrl+Shift+S and Escape. *)
Definition shortcutKey : KeyDown :=
  {| ctrlKey := true; metaKey := false; shiftKey := true; key := js "S" |}.

Definition escapeKey : KeyDown :=
  {| ctrlKey := false; metaKey := false; shiftKey := false; key := js "Escape" |}.

(** A page with no selection and no open modal. *)
Definition plainPage : PageView := {| selection := []; openModal := None |}.

(** The object on a page whose browser has no speech synthesis. *)
Definition muteManager : SpeechManager := newSpeechManager (H := plainHost) None.

(** An optional address field. *)
Definition optionalAddress : FormUtils.Rules :=
  {| FormUtils.required := false; FormUtils.minLength := None;
     FormUtils.maxLength := Some 80%nat; FormUtils.email := true |}.

Definition lessonLink : jsstring := js "https://example.org/lesson/7".

(** A card with a speech button that holds an icon, and a line of text. *)
Definition answerCard : Buttons.Document := [
  {| Buttons.classes := ["btn"; "speak-answer"]%string; Buttons.firstIcon := Some 1%nat |};
  {| Buttons.classes := ["fas"; "fa-volume-up"]%string; Buttons.firstIcon := None |};
  {| Buttons.classes := ["chat-answer"]%string; Buttons.firstIcon := None |}
].

(** The same card once speech has started. *)
Definition answerCardSpeaking : Buttons.Document := Buttons.onSpeechStart answerCard.

(** Two speech buttons, one inside the other, around one icon that is a
    speech button as well. *)
Definition nestedButtons : Buttons.Document := [
  {| Buttons.classes := ["speak-btn"]%string; Buttons.firstIcon := Some 2%nat |};
  {| Buttons.classes := ["speak-question"]%string; Buttons.firstIcon := Some 2%nat |};
  {| Buttons.classes := ["fas"; "fa-volume-up"; "speak-answer"]%string;
     Buttons.firstIcon := None |}
].
(** * Properties *)

(** ** The normalizer *)

Section Normalizer.
Context {H : Host}.

Lemma truncationNotice_length : length truncationNotice = 30%nat.
Proof. reflexivity. Qed.

Lemma prepareText_nonempty (c : codeUnit) (rest : jsstring) :
  prepareText (Some (c :: rest)) =
    if (maxLength <? length (cleaned (c :: rest)))%nat
    then firstn maxLength (cleaned (c :: rest)) ++ truncationNotice
    else cleaned (c :: rest).
Proof. reflexivity. Qed.

(** C10. Whatever the text, absent and empty ones included, [prepareText]
    returns at most 3000 code units plus the 30 of the truncation notice. *)
Theorem prepareText_length_bound :
  length truncationNotice = 30%nat /\
  forall text : option jsstring, (length (prepareText text) <= 3030)%nat.
Proof.
  split; [reflexivity|].
  intros [[|c rest]|]; try (cbn; lia).
  rewrite prepareText_nonempty.
  destruct (maxLength <? length (cleaned (c :: rest)))%nat eqn:Hlong.
  - rewrite length_app, length_firstn, truncationNotice_length.
    unfold maxLength. lia.
  - apply Nat.ltb_ge in Hlong. unfold maxLength in Hlong. lia.
Qed.

(** C6, as the code has it: the limit is tested on the cleaned text.  When
    that is longer than 3000 code units the result is its first 3000 code
    units followed by the notice; otherwise it is the cleaned text itself. *)
Theorem prepareText_truncates_cleaned (c : codeUnit) (rest : jsstring) :
  let text := c :: rest in
  ((3000 < length (cleaned text))%nat ->
     prepareText (Some text) = firstn 3000 (cleaned text) ++ truncationNotice /\
     length (firstn 3000 (cleaned text)) = 3000%nat) /\
  ((length (cleaned text) <= 3000)%nat ->
     prepareText (Some text) = cleaned text).
Proof.
  cbv zeta. rewrite prepareText_nonempty. unfold maxLength. split; intro Hlen.
  - apply Nat.ltb_lt in Hlen as Hb. rewrite Hb. split; [reflexivity|].
    rewrite length_firstn. lia.
  - apply Nat.ltb_ge in Hlen as Hb. rewrite Hb. reflexivity.
Qed.

End Normalizer.

(** A text of 3001 letters is cut to its first 3000 and marked. *)
Lemma prepareText_truncates_cleaned_on_letters :
  prepareText (H := plainHost) (Some (repeat 0x61 3001)) =
    firstn 3000 (cleaned (H := plainHost) (repeat 0x61 3001)) ++ truncationNotice /\
  length (firstn 3000 (cleaned (H := plainHost) (repeat 0x61 3001))) = 3000%nat.
Proof.
  apply (proj1 (prepareText_truncates_cleaned (H := plainHost) 0x61 (repeat 0x61 3000))).
  vm_compute. apply Nat.leb_le. vm_compute. reflexivity.
Defined.

(** C6, against the claim as stated: [spacedOut] is longer than 3000 code
    units, yet it comes back as ["a b"], neither cut nor marked. *)
Lemma long_input_not_truncated :
  (3000 < length spacedOut)%nat /\
  prepareText (H := plainHost) (Some spacedOut) = js "a b" /\
  prepareText (H := plainHost) (Some spacedOut) <>
    firstn 3000 (cleaned (H := plainHost) spacedOut) ++ truncationNotice.
Proof.
  split; [vm_compute; lia|].
  assert (E : prepareText (H := plainHost) (Some spacedOut) = js "a b") by (vm_compute; reflexivity).
  split; [exact E|]. rewrite E. vm_compute. discriminate.
Qed.

(** *** Scanning lemmas *)

Lemma lastUnit_cons (prev : option codeUnit) (c : codeUnit) (s : jsstring) :
  lastUnit prev (c :: s) = lastUnit None (c :: s).
Proof. reflexivity. Qed.

Lemma lastUnit_app (prev : option codeUnit) (a b : jsstring) :
  lastUnit prev (a ++ b) = lastUnit (lastUnit prev a) b.
Proof. revert prev. induction a as [|c a IH]; intro prev; cbn; [reflexivity | apply IH]. Qed.

(** One step of the scan at a position where no match is being skipped. *)
Lemma replaceAll_at (m : Matcher) (prev : option codeUnit) (c : codeUnit) (rest : jsstring) :
  replaceAll m prev 0 (c :: rest) =
    match m prev (c :: rest) with
    | Some (S k, replacement) => replacement ++ replaceAll m (Some c) k rest
    | _ => c :: replaceAll m (Some c) 0 rest
    end.
Proof. reflexivity. Qed.

Lemma replaceAll_at_app (m : Matcher) (prev : option codeUnit) (c : codeUnit)
    (a b : jsstring) :
  replaceAll m prev 0 ((c :: a) ++ b) =
    match m prev ((c :: a) ++ b) with
    | Some (S k, replacement) => replacement ++ replaceAll m (Some c) k (a ++ b)
    | _ => c :: replaceAll m (Some c) 0 (a ++ b)
    end.
Proof. reflexivity. Qed.

Lemma replaceAll_skip (m : Matcher) (a b : jsstring) :
  forall prev, replaceAll m prev (length a) (a ++ b) = replaceAll m (lastUnit prev a) 0 b.
Proof.
  induction a as [|c a IH]; intro prev; cbn.
  - reflexivity.
  - apply IH.
Qed.

Lemma replaceAll_no_match (m : Matcher) (s : jsstring) :
  (forall prev a b, s = a ++ b -> b <> [] -> m prev b = None) ->
  forall prev, replaceAll m prev 0 s = s.
Proof.
  induction s as [|c s IH]; intros Hm prev; cbn.
  - reflexivity.
  - rewrite (Hm prev [] (c :: s)) by (cbn; congruence).
    f_equal. apply IH. intros p a b -> Hb.
    apply (Hm p (c :: a) b); [reflexivity | exact Hb].
Qed.

Lemma spanLen_le (p : codeUnit -> bool) (s : jsstring) : (spanLen p s <= length s)%nat.
Proof. induction s as [|c s IH]; cbn; [lia|]. destruct (p c); cbn; lia. Qed.

Lemma spanLen_app_short (p : codeUnit -> bool) (a b : jsstring) :
  (spanLen p a < length a)%nat -> spanLen p (a ++ b) = spanLen p a.
Proof.
  induction a as [|c a IH]; cbn; intro Hlt; [lia|].
  destruct (p c); [|reflexivity]. f_equal. apply IH. lia.
Qed.

Lemma spanLen_all (p : codeUnit -> bool) (a b : jsstring) :
  Forall (fun c => p c = true) a ->
  spanLen p (a ++ b) = (length a + spanLen p b)%nat.
Proof.
  induction 1 as [|c a Hc _ IH]; cbn; [reflexivity|].
  rewrite Hc, IH. reflexivity.
Qed.

Lemma isNewline_isSpace (c : codeUnit) : isNewline c = true -> isSpace c = true.
Proof. unfold isNewline. intro E. apply N.eqb_eq in E. subst c. reflexivity. Qed.

Lemma isDigit_isWord (c : codeUnit) : isDigit c = true -> isWord c = true.
Proof. unfold isWord. intros ->. reflexivity. Qed.

Lemma isDigit_not_space (c : codeUnit) : isDigit c = true -> isSpace c = false.
Proof.
  unfold isDigit, isSpace. intro E. apply andb_prop in E as [Hlo Hhi].
  apply N.leb_le in Hlo, Hhi.
  repeat (apply orb_false_intro);
    try (apply N.eqb_neq; lia); apply andb_false_intro1; apply N.leb_gt; lia.
Qed.

(** *** Line breaks *)

Lemma whitespaceRun_leaves_no_newline (s : jsstring) :
  forall prev skip,
    Forall (fun c => isNewline c = false) (replaceAll whitespaceRun prev skip s).
Proof.
  induction s as [|c s IH]; intros prev skip; cbn.
  - constructor.
  - destruct skip as [|k]; [|apply IH].
    unfold whitespaceRun. cbn. destruct (isSpace c) eqn:Hc.
    + cbn. constructor; [reflexivity | apply IH].
    + constructor; [|apply IH].
      destruct (isNewline c) eqn:Hn; [|reflexivity].
      apply isNewline_isSpace in Hn. congruence.
Qed.

Lemma newlineRun_idle (s : jsstring) :
  Forall (fun c => isNewline c = false) s ->
  forall prev, replaceAll newlineRun prev 0 s = s.
Proof.
  intros Hs. apply replaceAll_no_match. intros prev a [|c b] -> Hb; [congruence|].
  apply Forall_app in Hs as [_ Hs]. inversion Hs as [|? ? Hc _]; subst.
  unfold newlineRun. cbn. rewrite Hc. reflexivity.
Qed.

(** After [/\s+/g] has run, [/\n+/g] finds nothing to replace. *)
Lemma newline_replacement_never_fires (s : jsstring) :
  replace newlineRun (replace whitespaceRun s) = replace whitespaceRun s.
Proof. apply newlineRun_idle, whitespaceRun_leaves_no_newline. Qed.

(** C5. On [twoLines] the line break comes out as a plain space, with no
    period: the replacement of newlines by periods runs after the collapse
    of whitespace, which has already turned every line feed into a space. *)
Theorem line_break_becomes_plain_space :
  prepareText (H := plainHost) (Some twoLines) = js "First line Second line" /\
  forall s : jsstring,
    replace newlineRun (replace whitespaceRun s) = replace whitespaceRun s.
Proof.
  split; [vm_compute; reflexivity | exact newline_replacement_never_fires].
Qed.

(** *** Long numbers *)

Lemma not_word_not_digit (c : codeUnit) : isWord c = false -> isDigit c = false.
Proof. destruct (isDigit c) eqn:E; [|reflexivity]. rewrite (isDigit_isWord _ E). discriminate. Qed.

Lemma not_wordAt_not_digitAt (c : option codeUnit) :
  isWordAt c = false -> isDigitAt c = false.
Proof. destruct c as [c|]; [apply not_word_not_digit | reflexivity]. Qed.

(** A string that ends on a unit other than a digit has a unit past its
    leading digits. *)
Lemma digits_stop_early (s : jsstring) :
  s <> [] -> isDigitAt (lastUnit None s) = false -> (spanLen isDigit s < length s)%nat.
Proof.
  induction s as [|c s IH]; intros Hne Hlast; [congruence|].
  cbn. destruct (isDigit c) eqn:Hc; [|lia].
  destruct s as [|d s].
  - cbn in Hlast. congruence.
  - apply -> Nat.succ_lt_mono. apply IH; [congruence | exact Hlast].
Qed.

Lemma longNumber_local (prev : option codeUnit) (a b : jsstring) :
  (spanLen isDigit a < length a)%nat ->
  longNumber prev (a ++ b) = longNumber prev a.
Proof.
  intro Hlt. unfold longNumber.
  rewrite (spanLen_app_short _ _ _ Hlt).
  assert (Hhd : hd_error (a ++ b) = hd_error a) by (destruct a; [cbn in Hlt; lia | reflexivity]).
  rewrite Hhd, !nth_error_app1 by lia.
  rewrite firstn_app.
  replace (spanLen isDigit a - length a)%nat with 0%nat by lia.
  cbn. rewrite app_nil_r. reflexivity.
Qed.

Lemma longNumber_consumes_digits (prev : option codeUnit) (c : codeUnit) (s : jsstring)
    (k : nat) (replacement : jsstring) :
  longNumber prev (c :: s) = Some (S k, replacement) -> k = spanLen isDigit s.
Proof.
  unfold longNumber. cbn.
  destruct (isDigit c).
  - destruct (_ && _ && _); intro E; inversion E. reflexivity.
  - rewrite andb_false_r. discriminate.
Qed.

(** Scanning a prefix that ends on a unit other than a digit does not
    depend on what follows it. *)
Lemma longNumber_prefix (pre rest : jsstring) :
  pre <> [] -> isDigitAt (lastUnit None pre) = false ->
  forall prev skip, (skip <= spanLen isDigit pre)%nat ->
    replaceAll longNumber prev skip (pre ++ rest) =
    replaceAll longNumber prev skip pre ++ replaceAll longNumber (lastUnit prev pre) 0 rest.
Proof.
  induction pre as [|c pre IH]; intros Hne Hlast prev skip Hskip; [congruence|].
  destruct pre as [|d pre].
  - assert (Hc : isDigit c = false) by exact Hlast.
    cbn in Hskip. rewrite Hc in Hskip. assert (skip = 0%nat) as -> by lia.
    cbn -[longNumber].
    assert (E : forall s, longNumber prev (c :: s) = None).
    { intro s. unfold longNumber. cbn. rewrite Hc. cbn. rewrite andb_false_r. reflexivity. }
    rewrite !E. reflexivity.
  - assert (Hlast' : isDigitAt (lastUnit None (d :: pre)) = false) by exact Hlast.
    assert (Hne' : d :: pre <> []) by congruence.
    destruct skip as [|k].
    + rewrite replaceAll_at_app, replaceAll_at.
      rewrite longNumber_local by (apply digits_stop_early; [congruence | exact Hlast]).
      destruct (longNumber prev (c :: d :: pre)) as [[[|k] replacement]|] eqn:E.
      * rewrite (IH Hne' Hlast' (Some c) 0%nat) by lia. reflexivity.
      * apply longNumber_consumes_digits in E. subst k.
        rewrite (IH Hne' Hlast' (Some c)) by lia.
        rewrite app_assoc. reflexivity.
      * rewrite (IH Hne' Hlast' (Some c) 0%nat) by lia. reflexivity.
    + assert (Hk : (k <= spanLen isDigit (d :: pre))%nat).
      { change (spanLen isDigit (c :: d :: pre))
          with (if isDigit c then S (spanLen isDigit (d :: pre)) else 0%nat) in Hskip.
        destruct (isDigit c); lia. }
      change (replaceAll longNumber prev (S k) ((c :: d :: pre) ++ rest))
        with (replaceAll longNumber (Some c) k ((d :: pre) ++ rest)).
      rewrite (IH Hne' Hlast' (Some c) k Hk). reflexivity.
Qed.

(** A run of at least four digits between two word boundaries is matched
    whole and replaced by its digits, one space between neighbours. *)
Lemma longNumber_matches_run (prev : option codeUnit) (run post : jsstring) :
  Forall (fun c => isDigit c = true) run -> (4 <= length run)%nat ->
  isWordAt prev = false -> isWordAt (hd_error post) = false ->
  longNumber prev (run ++ post) = Some (length run, splitJoin run).
Proof.
  intros Hrun Hlen Hprev Hpost. unfold longNumber.
  assert (Hspan : spanLen isDigit (run ++ post) = length run).
  { rewrite (spanLen_all _ _ _ Hrun).
    destruct post as [|d post]; cbn; [lia|].
    cbn in Hpost. rewrite (not_word_not_digit _ Hpost). lia. }
  rewrite Hspan.
  destruct run as [|c run]; [cbn in Hlen; lia|].
  assert (Hfirst : isWordAt (hd_error ((c :: run) ++ post)) = true).
  { cbn. apply isDigit_isWord. inversion Hrun; assumption. }
  assert (Hin : isWordAt (nth_error ((c :: run) ++ post) (length (c :: run) - 1)) = true).
  { rewrite nth_error_app1 by (cbn; lia).
    destruct (nth_error (c :: run) (length (c :: run) - 1)) as [d|] eqn:E.
    - cbn. apply isDigit_isWord. apply nth_error_In in E.
      rewrite Forall_forall in Hrun. apply Hrun, E.
    - apply nth_error_None in E. cbn in E. lia. }
  assert (Hout : isWordAt (nth_error ((c :: run) ++ post) (length (c :: run))) = false).
  { rewrite nth_error_app2 by lia. rewrite Nat.sub_diag.
    destruct post; exact Hpost. }
  unfold wordBoundary. rewrite Hprev, Hfirst, Hin, Hout.
  apply Nat.leb_le in Hlen. rewrite Hlen. cbn [xorb andb].
  rewrite firstn_app, firstn_all, Nat.sub_diag. cbn [firstn]. rewrite app_nil_r.
  reflexivity.
Qed.

Lemma replace_longNumber_run (prev : option codeUnit) (run post : jsstring) :
  Forall (fun c => isDigit c = true) run -> (4 <= length run)%nat ->
  isWordAt prev = false -> isWordAt (hd_error post) = false ->
  replaceAll longNumber prev 0 (run ++ post) =
  splitJoin run ++ replaceAll longNumber (lastUnit None run) 0 post.
Proof.
  intros Hrun Hlen Hprev Hpost.
  pose proof (longNumber_matches_run prev run post Hrun Hlen Hprev Hpost) as E.
  destruct run as [|c run]; [cbn in Hlen; lia|].
  rewrite replaceAll_at_app, E. cbn [length]. rewrite replaceAll_skip. reflexivity.
Qed.

(** A digit run with a word character before it, or a letter or underscore
    right after it, is copied as it stands. *)
Lemma replace_longNumber_glued (run post : jsstring) :
  Forall (fun c => isDigit c = true) run ->
  isDigitAt (hd_error post) = false ->
  forall prev,
    isWordAt prev = true \/ isWordAt (hd_error post) = true ->
    replaceAll longNumber prev 0 (run ++ post) =
    run ++ replaceAll longNumber (lastUnit prev run) 0 post.
Proof.
  intros Hrun Hstop. induction Hrun as [|c run Hc Hrun IH]; intros prev Hglue.
  - reflexivity.
  - assert (E : longNumber prev ((c :: run) ++ post) = None).
    { unfold longNumber. destruct Hglue as [Hprev | Hpost].
      - unfold wordBoundary at 1. rewrite Hprev. cbn [app hd_error isWordAt].
        rewrite (isDigit_isWord _ Hc). reflexivity.
      - assert (Hspan : spanLen isDigit ((c :: run) ++ post) = length (c :: run)).
        { rewrite spanLen_all by (constructor; assumption).
          destruct post as [|d post]; cbn [spanLen]; [lia|].
          cbn in Hstop. rewrite Hstop. lia. }
        rewrite Hspan.
        assert (Hin : isWordAt (nth_error ((c :: run) ++ post) (length (c :: run) - 1)) = true).
        { rewrite nth_error_app1 by (cbn; lia).
          destruct (nth_error (c :: run) (length (c :: run) - 1)) as [d|] eqn:E.
          - cbn. apply isDigit_isWord. apply nth_error_In in E.
            assert (Hall : Forall (fun c => isDigit c = true) (c :: run)) by (constructor; assumption).
            rewrite Forall_forall in Hall. apply Hall, E.
          - apply nth_error_None in E. cbn in E. lia. }
        assert (Hout : isWordAt (nth_error ((c :: run) ++ post) (length (c :: run))) = true).
        { rewrite nth_error_app2 by lia. rewrite Nat.sub_diag.
          destruct post; exact Hpost. }
        unfold wordBoundary at 2. rewrite Hin, Hout. cbn [xorb].
        rewrite andb_false_r. reflexivity. }
    rewrite replaceAll_at_app, E. cbn [app lastUnit]. f_equal. apply IH.
    left. cbn. apply isDigit_isWord, Hc.
Qed.

(** [splitJoin] puts the digits at the even places and a space at each odd
    place between two of them. *)
Lemma splitJoin_places (s : jsstring) :
  forall i, (i < length s)%nat ->
    nth_error (splitJoin s) (2 * i) = nth_error s i /\
    ((S i < length s)%nat -> nth_error (splitJoin s) (2 * i + 1) = Some 0x20).
Proof.
  induction s as [|c s IH]; intros i Hi; [cbn in Hi; lia|].
  destruct s as [|d s].
  - cbn in Hi. assert (i = 0%nat) as -> by lia. cbn. split; [reflexivity | lia].
  - destruct i as [|i].
    + cbn. split; reflexivity.
    + cbn [length] in Hi. destruct (IH i ltac:(cbn [length]; lia)) as [Heven Hodd].
      replace (2 * S i)%nat with (S (S (2 * i))) by lia.
      replace (S (S (2 * i)) + 1)%nat with (S (S (2 * i + 1))) by lia.
      change (splitJoin (c :: d :: s)) with (c :: 0x20 :: splitJoin (d :: s)).
      cbn [nth_error]. split; [exact Heven|].
      intro Hlt. apply Hodd. cbn [length] in Hlt |- *. lia.
Qed.

Lemma splitJoin_length (s : jsstring) :
  length (splitJoin s) = (2 * length s - 1)%nat.
Proof.
  induction s as [|c s IH]; [reflexivity|].
  destruct s as [|d s]; [reflexivity|].
  change (splitJoin (c :: d :: s)) with (c :: 0x20 :: splitJoin (d :: s)).
  cbn [length] in *. lia.
Qed.

Lemma trimStart_kept (c : codeUnit) (s : jsstring) :
  isSpace c = false -> trimStart (c :: s) = c :: s.
Proof. intro Hc. cbn. rewrite Hc. reflexivity. Qed.

Lemma trimEnd_kept (s : jsstring) (c : codeUnit) :
  isSpace c = false -> trimEnd (s ++ [c]) = s ++ [c].
Proof.
  intro Hc. unfold trimEnd. rewrite rev_app_distr. cbn [rev app].
  rewrite (trimStart_kept _ _ Hc). cbn [rev]. rewrite rev_involutive. reflexivity.
Qed.

Lemma splitJoin_last (c : codeUnit) (s : jsstring) :
  exists t d, splitJoin (c :: s) = t ++ [d] /\ In d (c :: s).
Proof.
  revert c. induction s as [|e s IH]; intro c.
  - exists [], c. cbn. auto.
  - destruct (IH e) as (t & d & Ht & Hin).
    exists (c :: 0x20 :: t), d.
    change (splitJoin (c :: e :: s)) with (c :: 0x20 :: splitJoin (e :: s)).
    rewrite Ht. split; [reflexivity | right; exact Hin].
Qed.

Lemma isDigit_not_mark (c : codeUnit) : isDigit c = true -> isSentenceMark c = false.
Proof.
  unfold isDigit, isSentenceMark. intro E. apply andb_prop in E as [Hlo Hhi].
  apply N.leb_le in Hlo, Hhi.
  repeat (apply orb_false_intro); apply N.eqb_neq; lia.
Qed.

Lemma digits_suffix_head (s a b : jsstring) :
  Forall (fun c => isDigit c = true) s -> s = a ++ b -> b <> [] ->
  exists d b', b = d :: b' /\ isDigit d = true.
Proof.
  intros Hs -> Hb. destruct b as [|d b']; [congruence|].
  apply Forall_app in Hs as [_ Hs]. inversion Hs; subst. eauto.
Qed.

(** The replacements that come before the long numbers leave a string of
    digits alone. *)
Lemma digits_pass_untouched (s : jsstring) :
  Forall (fun c => isDigit c = true) s ->
  replace url (replace duplicatePunctuation (replace newlineRun (replace whitespaceRun s))) = s.
Proof.
  intro Hs.
  assert (Hw : replace whitespaceRun s = s).
  { apply replaceAll_no_match. intros prev a b E Hb.
    destruct (digits_suffix_head s a b Hs E Hb) as (d & b' & -> & Hd).
    unfold whitespaceRun. cbn. rewrite (isDigit_not_space _ Hd). reflexivity. }
  rewrite newline_replacement_never_fires, Hw.
  assert (Hp : replace duplicatePunctuation s = s).
  { apply replaceAll_no_match. intros prev a b E Hb.
    destruct (digits_suffix_head s a b Hs E Hb) as (d & b' & -> & Hd).
    unfold duplicatePunctuation. rewrite (isDigit_not_mark _ Hd). reflexivity. }
  rewrite Hp.
  apply replaceAll_no_match. intros prev a b E Hb.
  destruct (digits_suffix_head s a b Hs E Hb) as (d & b' & -> & Hd).
  unfold url. destruct (wordBoundary prev (hd_error (d :: b'))); [|reflexivity].
  assert (Hh : (0x68 =? d) = false).
  { unfold isDigit in Hd. apply andb_prop in Hd as [Hlo Hhi].
    apply N.leb_le in Hlo, Hhi. apply N.eqb_neq. lia. }
  change (stripPrefix (js "http") (d :: b'))
    with (if 0x68 =? d then stripPrefix (js "ttp") b' else None).
  rewrite Hh. reflexivity.
Qed.

Lemma cleanUp_digits (run : jsstring) :
  Forall (fun c => isDigit c = true) run -> (4 <= length run)%nat ->
  cleanUp run = splitJoin run.
Proof.
  intros Hrun Hlen. unfold cleanUp. rewrite (digits_pass_untouched _ Hrun).
  unfold replace.
  rewrite <- (app_nil_r run) at 1.
  rewrite (replace_longNumber_run None run [] Hrun Hlen eq_refl eq_refl).
  cbn [replaceAll]. rewrite app_nil_r.
  destruct run as [|c run]; [cbn in Hlen; lia|].
  assert (Hc : isSpace c = false) by (apply isDigit_not_space; inversion Hrun; assumption).
  destruct (splitJoin_last c run) as (t & d & Ht & Hin).
  assert (Hd : isSpace d = false).
  { apply isDigit_not_space. rewrite Forall_forall in Hrun. apply Hrun, Hin. }
  unfold trim.
  assert (Hstart : trimStart (splitJoin (c :: run)) = splitJoin (c :: run)).
  { destruct run as [|e run]; [apply trimStart_kept, Hc|].
    change (splitJoin (c :: e :: run)) with (c :: 0x20 :: splitJoin (e :: run)).
    apply trimStart_kept, Hc. }
  rewrite Hstart, Ht. apply trimEnd_kept, Hd.
Qed.

(** C4, as the code has it.  The step that breaks up long numbers rewrites
    a run of at least four digits exactly when the run lies between two
    word boundaries: such a run, wherever it stands, comes out with one
    space between neighbouring digits, while a run with a letter, a digit
    or an underscore right before or after it is copied unchanged.  A text
    that is nothing but a run of 4 to 1500 digits is normalized to its
    digits one space apart. *)
Theorem delimited_digit_run_is_spaced :
  (forall pre run post : jsstring,
     Forall (fun c => isDigit c = true) run -> (4 <= length run)%nat ->
     isWordAt (lastUnit None pre) = false -> isWordAt (hd_error post) = false ->
     replace longNumber (pre ++ run ++ post) =
       replace longNumber pre ++ splitJoin run ++
       replaceAll longNumber (lastUnit None (pre ++ run)) 0 post) /\
  (forall pre run post : jsstring,
     Forall (fun c => isDigit c = true) run ->
     isDigitAt (lastUnit None pre) = false -> isDigitAt (hd_error post) = false ->
     isWordAt (lastUnit None pre) = true \/ isWordAt (hd_error post) = true ->
     replace longNumber (pre ++ run ++ post) =
       replace longNumber pre ++ run ++
       replaceAll longNumber (lastUnit None (pre ++ run)) 0 post) /\
  (forall (s : jsstring) (i : nat), (S i < length s)%nat ->
     nth_error (splitJoin s) (2 * i) = nth_error s i /\
     nth_error (splitJoin s) (2 * i + 1) = Some 0x20 /\
     nth_error (splitJoin s) (2 * i + 2) = nth_error s (S i)) /\
  (forall (H : Host) (run : jsstring),
     Forall (fun c => isDigit c = true) run ->
     (4 <= length run <= 1500)%nat -> textContent run = run ->
     prepareText (Some run) = splitJoin run).
Proof.
  split; [|split; [|split]].
  - intros pre run post Hrun Hlen Hpre Hpost. unfold replace.
    assert (Hlast : lastUnit None (pre ++ run) = lastUnit None run).
    { rewrite lastUnit_app. destruct run; [cbn in Hlen; lia | reflexivity]. }
    rewrite Hlast. destruct pre as [|c pre].
    + cbn [app replaceAll]. apply replace_longNumber_run; assumption.
    + rewrite (longNumber_prefix (c :: pre) (run ++ post))
        by (congruence || (apply not_wordAt_not_digitAt; assumption) || lia).
      f_equal. apply replace_longNumber_run; assumption.
  - intros pre run post Hrun Hpre Hpost Hglue. unfold replace.
    rewrite lastUnit_app. destruct pre as [|c pre].
    + cbn [app replaceAll lastUnit]. apply replace_longNumber_glued; assumption.
    + rewrite (longNumber_prefix (c :: pre) (run ++ post)) by (congruence || assumption || lia).
      f_equal. apply replace_longNumber_glued; assumption.
  - intros s i Hi.
    destruct (splitJoin_places s i ltac:(lia)) as [Heven Hodd].
    destruct (splitJoin_places s (S i) Hi) as [Hnext _].
    replace (2 * i + 2)%nat with (2 * S i)%nat by lia. auto.
  - intros H run Hrun [Hlo Hhi] Htext.
    destruct run as [|c run]; [cbn in Hlo; lia|].
    rewrite prepareText_nonempty. unfold cleaned. rewrite Htext.
    cbn [orElse isEmpty]. rewrite (cleanUp_digits _ Hrun Hlo).
    assert (Hlen : (maxLength <? length (splitJoin (c :: run)))%nat = false).
    { apply Nat.ltb_ge. rewrite splitJoin_length. unfold maxLength. lia. }
    rewrite Hlen. reflexivity.
Qed.

(** The six-digit run of the specification's example, standing alone. *)
Lemma delimited_digit_run_is_spaced_example :
  prepareText (H := plainHost) (Some (js "123456")) = js "1 2 3 4 5 6".
Proof.
  apply (proj2 (proj2 (proj2 delimited_digit_run_is_spaced)) plainHost (js "123456")).
  - repeat constructor.
  - cbn. lia.
  - reflexivity.
Defined.

(** C4, against the claim as stated: the six-digit run of ["Ref123456"]
    follows a letter, and the text comes back without a single space. *)
Lemma glued_digit_run_not_spaced :
  prepareText (H := plainHost) (Some (js "Ref123456")) = js "Ref123456".
Proof. vm_compute. reflexivity. Qed.

(** ** Voice selection *)

Section Voices.
Context {H : Host}.

Lemma loadVoices_selects (e : Synth.t) (m : SpeechManager) :
  Settings.voice (settings (after (loadVoices e) m)) =
    preferredVoice (Synth.getVoices e) (Settings.voice (settings m)) /\
  voices (after (loadVoices e) m) = Synth.getVoices e.
Proof.
  unfold loadVoices, preferredVoice, after, bind, emit, update, this, console.
  cbn [fst snd withVoices voices settings].
  destruct (filter isEnglish (Synth.getVoices e)) as [|v english] eqn:Henglish.
  - cbn [length Nat.ltb Nat.leb find].
    destruct (Synth.getVoices e) as [|w catalog]; cbn; auto.
  - cbn [length]. change (0 <? S (length english))%nat with true. cbv iota.
    destruct (find soundsFemale (v :: english)); cbn; auto.
Qed.

End Voices.

(** *** The tests of the policy, in the specification's words *)

Lemma startsWith_prefix (p s : jsstring) :
  startsWith p s = true <-> exists r, s = p ++ r.
Proof.
  unfold startsWith. revert s. induction p as [|a p IH]; intro s.
  - cbn. split; [exists s; reflexivity | reflexivity].
  - destruct s as [|b s]; cbn.
    + split; [discriminate | intros [r E]; discriminate E].
    + destruct (a =? b) eqn:Hab.
      * apply N.eqb_eq in Hab. subst b. rewrite IH. split.
        -- intros [r ->]. exists r. reflexivity.
        -- intros [r E]. injection E as E. exists r. exact E.
      * apply N.eqb_neq in Hab. split; [discriminate|].
        intros [r E]. injection E as Eb _. congruence.
Qed.

Lemma includes_parts (part s : jsstring) :
  includes part s = true <-> exists before rest, s = before ++ part ++ rest.
Proof.
  induction s as [|c s IH].
  - cbn [includes]. rewrite startsWith_prefix. split.
    + intros [r E]. exists [], r. exact E.
    + intros (before & rest & E). destruct before; [|discriminate E]. exists rest. exact E.
  - cbn [includes]. rewrite orb_true_iff, startsWith_prefix, IH. split.
    + intros [[r E]|(before & rest & E)].
      * exists [], r. exact E.
      * exists (c :: before), rest. cbn. rewrite E. reflexivity.
    + intros (before & rest & E). destruct before as [|d before].
      * left. exists rest. exact E.
      * right. injection E as _ E. exists before, rest. exact E.
Qed.

Lemma sameString_exact (a b : jsstring) : sameString a b = true <-> a = b.
Proof.
  revert b. induction a as [|x a IH]; intros [|y b]; cbn;
    try (split; [discriminate | intro E; discriminate E]); [tauto|].
  rewrite andb_true_iff, N.eqb_eq, IH. split.
  - intros [-> ->]. reflexivity.
  - intro E. injection E as -> ->. auto.
Qed.

Lemma isEnglish_tag (v : VoiceHandle) : isEnglish v = true <-> hasEnglishTag v.
Proof.
  unfold isEnglish, hasEnglishTag.
  rewrite orb_true_iff, startsWith_prefix, sameString_exact. tauto.
Qed.

Lemma soundsFemale_named (H : Host) (v : VoiceHandle) :
  soundsFemale v = true <-> namedFemale v.
Proof.
  unfold soundsFemale, namedFemale, femaleMarks.
  rewrite !orb_true_iff, !includes_parts. split.
  - intros [[[[(b & r & E)|(b & r & E)]|(b & r & E)]|(b & r & E)]|(b & r & E)];
      eexists _, b, r; (split; [|exact E]); cbn [In]; auto 10.
  - intros (mark & b & r & Hin & E). cbn [In] in Hin.
    destruct Hin as [<-|[<-|[<-|[<-|[<-|[]]]]]]; eauto 10.
Qed.

(** *** First matches *)

Lemma find_first {A : Type} (p : A -> bool) (before rest : list A) (x : A) :
  p x = true -> (forall y, In y before -> p y = false) ->
  find p (before ++ x :: rest) = Some x.
Proof.
  intros Hx Hbefore. induction before as [|y before IH]; cbn.
  - rewrite Hx. reflexivity.
  - rewrite (Hbefore y) by (left; reflexivity). apply IH.
    intros z Hz. apply Hbefore. right. exact Hz.
Qed.

Lemma find_nothing {A : Type} (p : A -> bool) (l : list A) :
  (forall y, In y l -> p y = false) -> find p l = None.
Proof.
  intro Hl. induction l as [|y l IH]; [reflexivity|]. cbn.
  rewrite (Hl y) by (left; reflexivity). apply IH.
  intros z Hz. apply Hl. right. exact Hz.
Qed.

Lemma find_among {A : Type} (p q : A -> bool) (l : list A) :
  find p (filter q l) = find (fun x => q x && p x) l.
Proof.
  induction l as [|y l IH]; [reflexivity|]. cbn.
  destruct (q y); cbn; [|exact IH]. destruct (p y); [reflexivity | exact IH].
Qed.

Lemma head_of_filter {A : Type} (q : A -> bool) (l : list A) :
  match filter q l with v :: _ => Some v | [] => None end = find q l.
Proof.
  induction l as [|y l IH]; [reflexivity|]. cbn. destruct (q y); [reflexivity | exact IH].
Qed.

Lemma preferredVoice_by_find (H : Host) (catalog : list VoiceHandle)
    (unset : option VoiceHandle) :
  preferredVoice catalog unset =
    match find (fun v => isEnglish v && soundsFemale v) catalog with
    | Some v => Some v
    | None =>
        match find isEnglish catalog with
        | Some v => Some v
        | None => match catalog with v :: _ => Some v | [] => unset end
        end
    end.
Proof.
  unfold preferredVoice. rewrite find_among.
  destruct (find (fun v => isEnglish v && soundsFemale v) catalog); [reflexivity|].
  rewrite <- head_of_filter. destruct (filter isEnglish catalog); reflexivity.
Qed.

(** C7, as the code has it.  [loadVoices] selects the first voice of the
    catalog whose language tag is ["en"] or starts with ["en-"] and whose
    lower-cased name contains one of [female], [woman], [samantha],
    [karen], [victoria]; when no voice is both, the first voice with such a
    tag; when no voice has such a tag, the first voice of the catalog; and
    with an empty catalog it assigns nothing, so the default voice stays
    what it was, which is [null] on a new object.  With "Microsoft David"
    and "Samantha", both en-US, it selects "Samantha". *)
Theorem loadVoices_follows_policy :
  (forall (H : Host) (e : Synth.t) (m : SpeechManager),
     let catalog := Synth.getVoices e in
     let selected := Settings.voice (settings (after (loadVoices e) m)) in
     (forall v, firstOf (fun v => hasEnglishTag v /\ namedFemale v) catalog v ->
                selected = Some v) /\
     ((forall v, In v catalog -> ~ (hasEnglishTag v /\ namedFemale v)) ->
      forall v, firstOf hasEnglishTag catalog v -> selected = Some v) /\
     ((forall v, In v catalog -> ~ hasEnglishTag v) ->
      forall v rest, catalog = v :: rest -> selected = Some v) /\
     (catalog = [] -> selected = Settings.voice (settings m)) /\
     selected = preferredVoice catalog (Settings.voice (settings m))) /\
  (forall (H : Host),
     Settings.voice (settings (newSpeechManager (Some (quietEngine [])))) = None) /\
  Settings.voice
    (settings (newSpeechManager (H := plainHost) (Some (quietEngine [david; samantha]))))
    = Some samantha.
Proof.
  split; [|split; [intro H; reflexivity | vm_compute; reflexivity]].
  intros H e m catalog selected.
  assert (Hselected : selected = preferredVoice catalog (Settings.voice (settings m)))
    by apply loadVoices_selects.
  assert (Hboth : forall v, isEnglish v && soundsFemale v = true <->
                            hasEnglishTag v /\ namedFemale v).
  { intro v. rewrite andb_true_iff, isEnglish_tag, soundsFemale_named. tauto. }
  assert (Hnot : forall (p : VoiceHandle -> bool) (P : VoiceHandle -> Prop) (l : list VoiceHandle),
            (forall v, p v = true <-> P v) ->
            (forall v, In v l -> ~ P v) -> forall v, In v l -> p v = false).
  { intros p P l Hp Hl v Hv. destruct (p v) eqn:E; [|reflexivity].
    apply Hp in E. destruct (Hl v Hv E). }
  split; [|split; [|split; [|split; [|exact Hselected]]]];
    rewrite Hselected, preferredVoice_by_find.
  - intros v (before & rest & -> & Hv & Hbefore).
    rewrite find_first; [reflexivity | apply Hboth, Hv | exact (Hnot _ _ _ Hboth Hbefore)].
  - intros Hnone v (before & rest & E & Hv & Hbefore).
    rewrite (find_nothing _ _ (Hnot _ _ _ Hboth Hnone)), E.
    rewrite find_first; [reflexivity | apply isEnglish_tag, Hv
                        | exact (Hnot _ _ _ isEnglish_tag Hbefore)].
  - intros Hnone v rest E.
    assert (Hnone' : forall v, In v catalog -> ~ (hasEnglishTag v /\ namedFemale v))
      by (intros w Hw [Hen _]; exact (Hnone w Hw Hen)).
    rewrite (find_nothing _ _ (Hnot _ _ _ Hboth Hnone')),
            (find_nothing _ _ (Hnot _ _ _ isEnglish_tag Hnone)), E.
    reflexivity.
  - intros ->. reflexivity.
Qed.

(** C7, against the claim as stated: when the engine announces a change
    of voices and then knows none, the object lists no voice and the voice
    selected before is still the default voice: it is not unset. *)
Lemma stale_voice_outlives_empty_catalog :
  Settings.voice (settings freshManager) = Some samantha /\
  voices (after (react (H := plainHost) true (VoicesChanged [])) freshManager) = [] /\
  Settings.voice
    (settings (after (react (H := plainHost) true (VoicesChanged [])) freshManager))
    = Some samantha /\
  Settings.voice
    (settings (after (react (H := plainHost) true (VoicesChanged [])) freshManager))
    <> None.
Proof.
  split; [vm_compute; reflexivity|]. split; [vm_compute; reflexivity|].
  split; [vm_compute; reflexivity|]. vm_compute. discriminate.
Qed.

(** ** The operations, case by case *)

Section Operations.
Context {H : Host}.

Lemma stop_result (m : SpeechManager) :
  stop m =
    (tt,
     withCurrentUtterance None (withSynth (option_map Synth.cancel (synth m)) m),
     match synth m with
     | Some _ => [Engine Cancel; Ui OnSpeechEnd]
     | None => [Ui OnSpeechEnd]
     end).
Proof.
  unfold stop, bind, this, update, emit, onSpeechEnd.
  destruct m as [[e|] vs cur ini st]; reflexivity.
Qed.

Lemma speak_unavailable (m : SpeechManager) (text : option jsstring) (options : Options.t) :
  synth m = None ->
  speak text options m = (tt, m, [Console Warn "Speech synthesis not available"]).
Proof.
  intro Hs. unfold speak, bind, this, console, emit. rewrite Hs. reflexivity.
Qed.

Lemma speak_blank (m : SpeechManager) (e : Synth.t) (text : option jsstring)
    (options : Options.t) :
  synth m = Some e -> isEmpty (trim (prepareText text)) = true ->
  speak text options m =
    (tt, stopped e m, [Engine Cancel; Ui OnSpeechEnd; Console Warn "No text to speak"]).
Proof.
  intros Hs Hblank. unfold speak, bind at 1, this at 1. rewrite Hs.
  unfold bind. rewrite stop_result, Hs, Hblank. reflexivity.
Qed.

Lemma speak_proceeds (m : SpeechManager) (e : Synth.t) (text : option jsstring)
    (options : Options.t) :
  synth m = Some e -> isEmpty (trim (prepareText text)) = false ->
  let u := newUtterance (prepareText text) options (settings m) in
  speak text options m =
    if Synth.failing e
    then (tt, stopped e m,
          [Engine Cancel; Ui OnSpeechEnd; Engine (Speak u);
           Console Error "Failed to start speech:"])
    else (tt,
          withSynth (Some (Synth.withQueue [u] (Synth.cancel e)))
            (withCurrentUtterance (Some u) (stopped e m)),
          [Engine Cancel; Ui OnSpeechEnd; Engine (Speak u)]).
Proof.
  intros Hs Hblank u. unfold speak, bind at 1, this at 1. rewrite Hs.
  unfold bind. rewrite stop_result, Hs, Hblank.
  unfold this, update, startSpeaking, bind, emit, console, Synth.speak.
  cbn. fold u. destruct (Synth.failing e); reflexivity.
Qed.

End Operations.

(** ** Requests *)

Lemma speak_merges_with_or (H : Host) (m : SpeechManager) (e : Synth.t)
    (text : option jsstring) (options : Options.t) :
  synth m = Some e -> isEmpty (trim (prepareText text)) = false ->
  exists u : Utterance.t,
    In (Engine (Speak u)) (effectsOf (speak text options) m) /\
    (Synth.failing e = false ->
       currentUtterance (after (speak text options) m) = Some u) /\
    Utterance.text u = prepareText text /\
    mergedNumber (Options.rate options) (Settings.rate (settings m)) (Utterance.rate u) /\
    mergedNumber (Options.pitch options) (Settings.pitch (settings m)) (Utterance.pitch u) /\
    mergedNumber (Options.volume options) (Settings.volume (settings m)) (Utterance.volume u) /\
    (forall v, Options.voice options = Some v -> Utterance.voice u = Some v) /\
    (Options.voice options = None -> Utterance.voice u = Settings.voice (settings m)).
Proof.
  intros Hs Hblank.
  exists (newUtterance (prepareText text) options (settings m)).
  unfold effectsOf, after. rewrite (speak_proceeds m e text options Hs Hblank).
  assert (Hmerged : forall given setting, mergedNumber given setting (orNumber given setting)).
  { intros given setting. unfold mergedNumber, orNumber. repeat split.
    - intros x -> ->. reflexivity.
    - intros x -> ->. reflexivity.
    - intros ->. reflexivity. }
  repeat split; try apply Hmerged.
  - destruct (Synth.failing e); cbn; auto.
  - intros ->. reflexivity.
  - intros v Hv. cbn. rewrite Hv. reflexivity.
  - intros Hv. cbn. rewrite Hv. reflexivity.
Qed.

(** C3, where the code departs from it.  Whenever [speak] gets as far as
    building a request, each of rate, pitch and volume is the value of
    [options] only when that value is truthy: a given 0 is passed over for
    the setting, as are -0 and NaN, while every other number, negative ones
    included, is taken.  Asked to speak "Hello" at volume 0, a new object
    builds a request at the volume 0.8 of its settings.  The sibling path
    does take a 0: after [updateSettings] with volume 0, [speak] without
    options builds a request at volume 0. *)
Theorem speak_passes_over_explicit_zero :
  (forall (H : Host) (m : SpeechManager) (e : Synth.t) (text : option jsstring)
          (options : Options.t),
     synth m = Some e -> isEmpty (trim (prepareText text)) = false ->
     exists u : Utterance.t,
       In (Engine (Speak u)) (effectsOf (speak text options) m) /\
       (Synth.failing e = false ->
          currentUtterance (after (speak text options) m) = Some u) /\
       Utterance.text u = prepareText text /\
       (Options.rate options = Some 0%float ->
          Utterance.rate u = Settings.rate (settings m)) /\
       (Options.pitch options = Some 0%float ->
          Utterance.pitch u = Settings.pitch (settings m)) /\
       (Options.volume options = Some 0%float ->
          Utterance.volume u = Settings.volume (settings m)) /\
       mergedNumber (Options.rate options) (Settings.rate (settings m)) (Utterance.rate u) /\
       mergedNumber (Options.pitch options) (Settings.pitch (settings m)) (Utterance.pitch u) /\
       mergedNumber (Options.volume options) (Settings.volume (settings m))
         (Utterance.volume u) /\
       (forall v, Options.voice options = Some v -> Utterance.voice u = Some v) /\
       (Options.voice options = None -> Utterance.voice u = Settings.voice (settings m))) /\
  (Options.volume silent = Some 0%float /\
   exists u : Utterance.t,
     currentUtterance (after (speak (H := plainHost) (Some (js "Hello")) silent) freshManager)
       = Some u /\
     Utterance.volume u = Settings.volume defaultSettings /\
     PrimFloat.eqb (Utterance.volume u) 0%float = false) /\
  (exists u : Utterance.t,
     currentUtterance
       (after (speak (H := plainHost) (Some (js "Hello")) Options.none)
          (after (updateSettings silent) freshManager)) = Some u /\
     Utterance.volume u = 0%float) /\
  (truthy 0%float = false /\ truthy (-0)%float = false /\ truthy PrimFloat.nan = false /\
   truthy 1.5%float = true /\ truthy (-1)%float = true).
Proof.
  split; [|split; [|split]].
  - intros H m e text options Hs Hblank.
    destruct (speak_merges_with_or H m e text options Hs Hblank)
      as (u & Hin & Hcur & Htext & Hrate & Hpitch & Hvolume & Hsome & Hnone).
    exists u. repeat split; try assumption;
      try (intro E; first [ exact (proj1 (proj2 Hrate) _ E eq_refl)
                          | exact (proj1 (proj2 Hpitch) _ E eq_refl)
                          | exact (proj1 (proj2 Hvolume) _ E eq_refl) ]);
      try apply Hrate; try apply Hpitch; try apply Hvolume.
  - split; [reflexivity|]. eexists. split; [vm_compute; reflexivity|].
    split; vm_compute; reflexivity.
  - eexists. split; vm_compute; reflexivity.
  - repeat split.
Qed.

(** ** Nothing to say *)

(** C2, as the code has it.  Without an engine [speak] logs a warning and
    changes nothing.  With an engine and a text that normalizes to nothing
    but blanks, it has already stopped the session when it finds out: the
    engine got one [cancel] and the speech-ended hook ran; it then logs a
    warning and returns.  No request reaches the engine and no notification
    is shown either way. *)
Theorem speak_without_text_or_engine (H : Host) (m : SpeechManager)
    (text : option jsstring) (options : Options.t) :
  (synth m = None ->
     speak text options m = (tt, m, [Console Warn "Speech synthesis not available"])) /\
  (forall e : Synth.t,
     synth m = Some e -> isEmpty (trim (prepareText text)) = true ->
     effectsOf (speak text options) m =
       [Engine Cancel; Ui OnSpeechEnd; Console Warn "No text to speak"] /\
     after (speak text options) m = after stop m) /\
  (prepareText text = [] -> isEmpty (trim (prepareText text)) = true).
Proof.
  split; [|split].
  - apply speak_unavailable.
  - intros e Hs Hblank. unfold effectsOf, after.
    rewrite (speak_blank m e text options Hs Hblank), stop_result, Hs.
    split; reflexivity.
  - intros ->. reflexivity.
Qed.

Lemma speak_without_text_or_engine_on_blanks :
  effectsOf (speak (H := plainHost) (Some (js "   ")) Options.none) readingManager =
    [Engine Cancel; Ui OnSpeechEnd; Console Warn "No text to speak"] /\
  after (speak (H := plainHost) (Some (js "   ")) Options.none) readingManager =
    after stop readingManager.
Proof.
  apply (proj1 (proj2 (speak_without_text_or_engine plainHost readingManager
                  (Some (js "   ")) Options.none))
           (Synth.withQueue
              [newUtterance (js "Hello") Options.none (settings freshManager)]
              (quietEngine [david; samantha])));
    reflexivity.
Defined.

(** C2, against the claim as stated: three blanks normalize to the empty
    text, yet [speak] calls [cancel] on the engine, and what it leaves
    behind holds no notification. *)
Lemma blank_text_still_cancels :
  prepareText (H := plainHost) (Some (js "   ")) = [] /\
  In (Engine Cancel)
     (effectsOf (speak (H := plainHost) (Some (js "   ")) Options.none) readingManager) /\
  forall message severity duration,
    ~ In (Notification message severity duration)
         (effectsOf (speak (H := plainHost) (Some (js "   ")) Options.none) readingManager).
Proof.
  split; [reflexivity|]. split; [left; reflexivity|].
  intros message severity duration [E|[E|[E|[]]]]; discriminate E.
Qed.

(** ** Stopping *)


(** ** Pausing and resuming *)

Lemma pause_idle (m : SpeechManager) :
  inState Speaking m = false -> pause m = (tt, m, []).
Proof.
  unfold inState, isSpeaking, isPaused, pause, bind, this.
  destruct (synth m) as [e|]; [|reflexivity].
  intros ->. reflexivity.
Qed.

(** C9. [pause] does nothing unless the session is speaking (the engine
    speaking and not paused), so nothing when it is idle, and [resume] does
    nothing unless it is paused.  From a speaking session [pause] has the
    engine pause, which leaves the session paused, and the pause hook runs
    when the engine reports the pause on the utterance. *)
Theorem pause_and_resume_are_guarded (m : SpeechManager) :
  (inState Speaking m = false -> pause m = (tt, m, [])) /\
  (inState Idle m = true -> pause m = (tt, m, [])) /\
  (inState Paused m = false -> resume m = (tt, m, [])) /\
  (inState Speaking m = true ->
     effectsOf pause m = [Engine Pause] /\
     inState Paused (after pause m) = true /\
     inState Speaking (after pause m) = false /\
     forall (H : Host) (notifier : bool),
       run notifier [CallPause; Reports OnPause] m =
         (tt, after pause m, [Engine Pause; Console Log "Speech paused"; Ui OnSpeechPause])).
Proof.
  split; [apply pause_idle|]. split; [|split].
  - intro Hidle. apply pause_idle.
    unfold inState in *. apply negb_true_iff in Hidle. rewrite Hidle. reflexivity.
  - unfold inState, isPaused, resume, bind, this.
    destruct (synth m) as [e|]; [|reflexivity]. intros ->. reflexivity.
  - unfold inState, isSpeaking, isPaused, effectsOf, after.
    intro Hspeaking.
    assert (Hpause : exists e, synth m = Some e /\
              pause m = (tt, withSynth (Some (Synth.pause e)) m, [Engine Pause])).
    { unfold pause, bind, this. destruct (synth m) as [e|]; [|discriminate].
      exists e. rewrite Hspeaking. split; reflexivity. }
    destruct Hpause as (e & Hs & Hpause). rewrite Hs in Hspeaking.
    apply andb_prop in Hspeaking as [Hq _].
    repeat split.
    + rewrite Hpause. reflexivity.
    + rewrite Hpause. reflexivity.
    + rewrite Hpause. cbn. apply andb_false_r.
    + intros H notifier. cbn [run react]. unfold bind. rewrite Hpause. reflexivity.
Qed.

Lemma pause_and_resume_are_guarded_when_reading :
  effectsOf pause readingManager = [Engine Pause] /\
  inState Paused (after pause readingManager) = true /\
  inState Speaking (after pause readingManager) = false /\
  forall (H : Host) (notifier : bool),
    run notifier [CallPause; Reports OnPause] readingManager =
      (tt, after pause readingManager,
       [Engine Pause; Console Log "Speech paused"; Ui OnSpeechPause]).
Proof.
  apply (proj2 (proj2 (proj2 (pause_and_resume_are_guarded readingManager)))).
  reflexivity.
Defined.

(** ** One utterance at a time *)

Lemma after_bind {A B} (x : Action A) (f : A -> Action B) (m : SpeechManager) :
  after (bind x f) m = after (f (fst (fst (x m)))) (after x m).
Proof.
  unfold after, bind. destruct (x m) as [[a m1] fx1]. cbn.
  destruct (f a m1) as [[b m2] fx2]. reflexivity.
Qed.

(** A step that leaves the engine's queue alone and at most forgets the
    current utterance keeps the invariant. *)
Lemma atMostOneActive_frame (m m' : SpeechManager) :
  heldBy m' = heldBy m ->
  currentUtterance m' = currentUtterance m \/ currentUtterance m' = None ->
  atMostOneActive m -> atMostOneActive m'.
Proof.
  intros Hq Hcur [Hlen Hsame]. unfold atMostOneActive. rewrite Hq.
  split; [exact Hlen|]. intros u Hu. apply Hsame.
  destruct Hcur as [E|E]; rewrite E in Hu; [exact Hu | discriminate].
Qed.

Lemma atMostOneActive_empty (m : SpeechManager) :
  heldBy m = [] -> atMostOneActive m.
Proof.
  intro Hq. unfold atMostOneActive. rewrite Hq. split; [cbn; lia|].
  intros u _ v [].
Qed.

Section OneAtATime.
Context {H : Host}.

Lemma loadVoices_frame (e : Synth.t) (m : SpeechManager) :
  synth (after (loadVoices e) m) = synth m /\
  currentUtterance (after (loadVoices e) m) = currentUtterance m /\
  isInitialized (after (loadVoices e) m) = isInitialized m.
Proof.
  unfold loadVoices, after, bind, emit, update, this, console.
  cbn [fst snd withVoices voices settings].
  destruct (0 <? length (filter isEnglish (Synth.getVoices e)))%nat;
    [|destruct (0 <? length (Synth.getVoices e))%nat]; cbn; auto.
Qed.

Lemma newSpeechManager_holds_nothing (catalog : list VoiceHandle) :
  heldBy (newSpeechManager None) = [] /\
  heldBy (newSpeechManager (Some (quietEngine catalog))) = [].
Proof.
  split; [reflexivity|].
  unfold heldBy, newSpeechManager, init. rewrite after_bind. cbn [this fst snd synth].
  rewrite (proj1 (loadVoices_frame _ _)). reflexivity.
Qed.

Lemma speak_keeps_one (m : SpeechManager) (text : option jsstring) (options : Options.t) :
  atMostOneActive m -> atMostOneActive (after (speak text options) m).
Proof.
  intro Hinv. unfold after. destruct (synth m) as [e|] eqn:Hs.
  - destruct (isEmpty (trim (prepareText text))) eqn:Hblank.
    + rewrite (speak_blank m e text options Hs Hblank).
      apply atMostOneActive_empty. reflexivity.
    + rewrite (speak_proceeds m e text options Hs Hblank).
      destruct (Synth.failing e).
      * apply atMostOneActive_empty. reflexivity.
      * split; [cbn; lia|]. cbn. intros u Hu v [Hv|[]]. congruence.
  - rewrite (speak_unavailable m text options Hs). exact Hinv.
Qed.

Lemma react_keeps_one (notifier : bool) (ev : Event) (m : SpeechManager) :
  atMostOneActive m -> atMostOneActive (after (react notifier ev) m).
Proof.
  intro Hinv. destruct ev as [text options| | | |new| |catalog|r|]; cbn [react].
  - apply speak_keeps_one, Hinv.
  - apply atMostOneActive_empty. unfold after. rewrite stop_result.
    unfold heldBy. cbn. destruct (synth m); reflexivity.
  - apply (atMostOneActive_frame m); [| |exact Hinv];
      unfold after, pause, bind, this, heldBy;
      destruct (synth m) as [e|] eqn:Hs; cbn; rewrite ?Hs; auto;
      destruct (Synth.speaking e && negb (Synth.paused e)); cbn; rewrite ?Hs; auto.
  - apply (atMostOneActive_frame m); [| |exact Hinv];
      unfold after, resume, bind, this, heldBy;
      destruct (synth m) as [e|] eqn:Hs; cbn; rewrite ?Hs; auto;
      destruct (Synth.paused e); cbn; rewrite ?Hs; auto.
  - apply (atMostOneActive_frame m); [reflexivity | left; reflexivity | exact Hinv].
  - unfold after, bind, this. cbn [fst snd].
    destruct (synth m) as [e|] eqn:Hs; [|exact Hinv].
    destruct (isInitialized m); [exact Hinv|].
    destruct (loadVoices_frame e m) as (Hsynth & Hcur & _).
    fold (after (loadVoices e) m).
    destruct (loadVoices e m) as [[[] m1] fx1] eqn:E.
    unfold after in Hsynth, Hcur. rewrite E in Hsynth, Hcur. cbn in Hsynth, Hcur |- *.
    apply (atMostOneActive_frame m); [| |exact Hinv].
    + unfold heldBy. cbn. rewrite Hsynth. reflexivity.
    + left. exact Hcur.
  - unfold after, bind, this, update. cbn [fst snd].
    destruct (synth m) as [e|] eqn:Hs; [|exact Hinv].
    destruct (loadVoices_frame (Synth.withCatalog catalog e)
                (withSynth (Some (Synth.withCatalog catalog e)) m)) as (Hsynth & Hcur & _).
    unfold after in Hsynth, Hcur.
    destruct (loadVoices (Synth.withCatalog catalog e)
                (withSynth (Some (Synth.withCatalog catalog e)) m)) as [[[] m1] fx1].
    cbn in Hsynth, Hcur |- *.
    apply (atMostOneActive_frame m); [| |exact Hinv].
    + unfold heldBy. rewrite Hsynth, Hs. reflexivity.
    + left. exact Hcur.
  - apply (atMostOneActive_frame m); [| |exact Hinv].
    + destruct r; try destruct notifier; reflexivity.
    + destruct r; try destruct notifier; cbn; auto.
  - destruct Hinv as [Hlen Hsame]. unfold atMostOneActive, after, update, heldBy in *.
    cbn. destruct (synth m) as [e|]; cbn in *; [|split; [lia | intros u _ v []]].
    destruct (Synth.queue e) as [|u0 q]; cbn in *; [split; [lia | intros u _ v []]|].
    split; [lia|]. intros u Hu v Hv. apply (Hsame u Hu). right. exact Hv.
Qed.

Lemma run_keeps_one (notifier : bool) (events : list Event) :
  forall m, atMostOneActive m -> atMostOneActive (after (run notifier events) m).
Proof.
  induction events as [|ev events IH]; intros m Hinv.
  - exact Hinv.
  - cbn [run]. rewrite after_bind. apply IH, react_keeps_one, Hinv.
Qed.

End OneAtATime.

(** C1, as the code has it.  Through every sequence of calls, listener
    runs and engine events at most one utterance is active, from a new
    object onwards.  A [speak] on
    an available engine first cancels what the engine holds and runs the
    speech-ended hook, through [stop] and not through a report of the
    engine; only then does it store a request.  When the normalized text
    has something to say and the engine takes the request, that request is
    afterwards the current utterance and the only one the engine holds;
    otherwise no utterance is current and the engine holds none. *)
Theorem speak_supersedes_previous_utterance :
  (forall (H : Host) (notifier : bool) (events : list Event) (m : SpeechManager),
     atMostOneActive m -> atMostOneActive (after (run notifier events) m)) /\
  (forall (H : Host) (notifier : bool) (events : list Event) (catalog : list VoiceHandle),
     atMostOneActive (after (run notifier events) (newSpeechManager None)) /\
     atMostOneActive
       (after (run notifier events) (newSpeechManager (Some (quietEngine catalog))))) /\
  (forall (H : Host) (m : SpeechManager) (e : Synth.t) (text : option jsstring)
          (options : Options.t),
     synth m = Some e ->
     exists rest : list Effect,
       effectsOf (speak text options) m = Engine Cancel :: Ui OnSpeechEnd :: rest /\
       match currentUtterance (after (speak text options) m) with
       | Some u =>
           u = newUtterance (prepareText text) options (settings m) /\
           heldBy (after (speak text options) m) = [u] /\
           rest = [Engine (Speak u)] /\
           isEmpty (trim (prepareText text)) = false /\ Synth.failing e = false
       | None =>
           heldBy (after (speak text options) m) = [] /\
           (isEmpty (trim (prepareText text)) = true \/ Synth.failing e = true)
       end).
Proof.
  split; [|split].
  - intros H notifier events m. apply run_keeps_one.
  - intros H notifier events catalog.
    split; apply run_keeps_one, atMostOneActive_empty;
      apply (newSpeechManager_holds_nothing catalog).
  - intros H m e text options Hs. unfold effectsOf, after.
    destruct (isEmpty (trim (prepareText text))) eqn:Hblank.
    + rewrite (speak_blank m e text options Hs Hblank).
      eexists. split; [reflexivity|]. cbn. auto.
    + rewrite (speak_proceeds m e text options Hs Hblank).
      destruct (Synth.failing e).
      * eexists. split; [reflexivity|]. cbn. auto.
      * eexists. split; [reflexivity|]. cbn. auto.
Qed.

(** The object reads "Hello" and is asked to read "Next answer". *)
Lemma speak_supersedes_previous_utterance_when_reading :
  exists rest : list Effect,
    effectsOf (speak (H := plainHost) (Some (js "Next answer")) Options.none) readingManager =
      Engine Cancel :: Ui OnSpeechEnd :: rest /\
    match
      currentUtterance
        (after (speak (H := plainHost) (Some (js "Next answer")) Options.none) readingManager)
    with
    | Some u =>
        u = newUtterance (prepareText (H := plainHost) (Some (js "Next answer")))
              Options.none (settings readingManager) /\
        heldBy (after (speak (H := plainHost) (Some (js "Next answer")) Options.none)
                  readingManager) = [u] /\
        rest = [Engine (Speak u)] /\
        isEmpty (trim (prepareText (H := plainHost) (Some (js "Next answer")))) = false /\
        Synth.failing
          (Synth.withQueue [newUtterance (js "Hello") Options.none (settings freshManager)]
             (quietEngine [david; samantha])) = false
    | None =>
        heldBy (after (speak (H := plainHost) (Some (js "Next answer")) Options.none)
                  readingManager) = [] /\
        (isEmpty (trim (prepareText (H := plainHost) (Some (js "Next answer")))) = true \/
         Synth.failing
           (Synth.withQueue [newUtterance (js "Hello") Options.none (settings freshManager)]
              (quietEngine [david; samantha])) = true)
    end.
Proof.
  exact (proj2 (proj2 speak_supersedes_previous_utterance) plainHost readingManager
           (Synth.withQueue [newUtterance (js "Hello") Options.none (settings freshManager)]
              (quietEngine [david; samantha]))
           (Some (js "Next answer")) Options.none eq_refl).
Defined.

(** C1, against the claim as stated: after "Hello", a [speak] of three
    blanks leaves the object with no current utterance and the engine with
    nothing to speak. *)
Lemma blank_speak_leaves_no_utterance :
  currentUtterance readingManager <> None /\
  currentUtterance
    (after (speak (H := plainHost) (Some (js "   ")) Options.none) readingManager) = None /\
  heldBy (after (speak (H := plainHost) (Some (js "   ")) Options.none) readingManager) = [].
Proof.
  split; [discriminate|]. split; reflexivity.
Qed.

(** ** Remarks *)

(** The numbers [||] passes over. *)
Remark truthy_numbers :
  truthy 0%float = false /\ truthy (-0)%float = false /\ truthy PrimFloat.nan = false /\
  truthy 1.5%float = true /\ truthy (-1)%float = true.
Proof. repeat split. Qed.

(** The replacements on small texts. *)
Remark replacements_at_work :
  replace whitespaceRun (js "a   b" ++ [0x9; 0xA] ++ js "c") = js "a b c" /\
  replace duplicatePunctuation (js "Wait... what?! Yes. . No") = js "Wait. what? Yes. No" /\
  replace url (js "see https://a.b/c?d=1 or http://e now, not xhttp://f") =
    js "see link or link now, not xhttp://f" /\
  replace longNumber (js "12345 x1234 1234_ 123 2024-01-15") =
    js "1 2 3 4 5 x1234 1234_ 123 2 0 2 4-01-15" /\
  trim ([0xA0] ++ js "  a b " ++ [0xD; 0xA]) = js "a b".
Proof. repeat split. Qed.

(** A long number standing as a word of its own in a sentence. *)
Remark order_number_is_spelled_out :
  prepareText (H := plainHost) (Some (js "Order 123456 shipped on 2024-01-15!!")) =
    js "Order 1 2 3 4 5 6 shipped on 2 0 2 4-01-15!".
Proof. vm_compute. reflexivity. Qed.

(** The handlers do not look at the utterance they are attached to: when
    the engine reports the end of "Hello" only after "Next answer" was
    started, the object forgets its current utterance while the engine
    still holds the new request. *)
Remark late_end_report_forgets_current :
  let m :=
    after (run (H := plainHost) true
             [CallSpeak (Some (js "Hello")) Options.none;
              CallSpeak (Some (js "Next answer")) Options.none;
              Reports OnEnd])
          freshManager in
  currentUtterance m = None /\
  heldBy m = [newUtterance (js "Next answer") Options.none (settings freshManager)].
Proof. split; reflexivity. Qed.

(** * Properties of the rest of the page *)

(** ** The listeners *)

Lemma sameString_eq (a b : jsstring) : sameString a b = true -> a = b.
Proof.
  revert b. induction a as [|x a IH]; intros [|y b] E; try discriminate; [reflexivity|].
  cbn in E. apply andb_prop in E as [Hx Hab]. apply N.eqb_eq in Hx.
  rewrite (IH b Hab), Hx. reflexivity.
Qed.

Lemma stop_while_speaking (m : SpeechManager) :
  isSpeaking m = true -> stop m = (tt, after stop m, [Engine Cancel; Ui OnSpeechEnd]).
Proof.
  intro Hs. unfold after. rewrite stop_result. unfold isSpeaking in Hs.
  destruct (synth m); [reflexivity | discriminate].
Qed.

Lemma stop_leaves_silence (m : SpeechManager) : isSpeaking (after stop m) = false.
Proof.
  unfold after. rewrite stop_result. unfold isSpeaking. cbn.
  destruct (synth m); reflexivity.
Qed.

Section Listeners.
Context {H : Host}.

(** X1. While the engine speaks, a click on any speech trigger and the
    keyboard shortcut do what [stop] does and nothing more: no text is
    looked up and nothing is spoken. *)
Theorem listeners_only_stop_while_speaking (notifier : bool) (m : SpeechManager)
    (t : Trigger) (e : KeyDown) (page : PageView) :
  isSpeaking m = true ->
  onClick notifier (Some t) m = (true, after stop m, [Engine Cancel; Ui OnSpeechEnd]) /\
  (isSpeechShortcut e = true ->
     onKeyDown e page m = (true, after stop m, [Engine Cancel; Ui OnSpeechEnd])).
Proof.
  intro Hs. split.
  - unfold onClick, bind, this. rewrite Hs, (stop_while_speaking m Hs). reflexivity.
  - intro Hkey. unfold onKeyDown, bind, this. rewrite Hkey, Hs, (stop_while_speaking m Hs).
    cbn [ret]. rewrite stop_leaves_silence, andb_false_r. reflexivity.
Qed.

(** X2. A click that finds no text to read leaves the object and the engine
    alone: it logs a warning and, when the notification banner is loaded,
    shows the "nothing to read" notice.  An empty [data-text] attribute is
    such a case whatever the other two sources hold. *)
Theorem click_with_nothing_to_read (notifier : bool) (m : SpeechManager) (t : Trigger) :
  isSpeaking m = false -> textToSpeak t = [] ->
  onClick notifier (Some t) m =
    (true, m,
     Console Warn "No text found to speak" ::
     (if notifier
      then [Notification "No text available to read aloud." "warning" 2000]
      else [])) /\
  forall found nearby,
    textToSpeak {| dataText := Some []; dataSpeak := found; answerNearby := nearby |} = [].
Proof.
  intros Hs Ht. split; [|reflexivity].
  unfold onClick, bind, this. rewrite Hs, Ht. destruct notifier; reflexivity.
Qed.

(** X3. A click that finds text made of blanks only gets no notice: the text
    goes to [speak], which stops the session, logs a warning and returns. *)
Theorem click_with_blank_text_is_not_announced (notifier : bool) (m : SpeechManager)
    (e : Synth.t) (t : Trigger) :
  synth m = Some e -> isSpeaking m = false ->
  textToSpeak t <> [] -> isEmpty (trim (prepareText (Some (textToSpeak t)))) = true ->
  onClick notifier (Some t) m =
    (true, stopped e m, [Engine Cancel; Ui OnSpeechEnd; Console Warn "No text to speak"]).
Proof.
  intros He Hs Ht Hblank. unfold onClick, bind, this. rewrite Hs.
  assert (Hne : isEmpty (textToSpeak t) = false)
    by (destruct (textToSpeak t); [congruence | reflexivity]).
  rewrite Hne, (speak_blank m e _ Options.none He Hblank). reflexivity.
Qed.

(** X4. From a silent session on a working engine, a click that finds
    something to say starts reading it, and the next click on any trigger
    takes the object to where a plain [stop] would have taken it. *)
Theorem click_twice_starts_and_stops (notifier : bool) (m : SpeechManager) (e : Synth.t)
    (t t' : Trigger) :
  synth m = Some e -> isSpeaking m = false -> Synth.failing e = false ->
  isEmpty (trim (prepareText (Some (textToSpeak t)))) = false ->
  let u := newUtterance (prepareText (Some (textToSpeak t))) Options.none (settings m) in
  let reading := after (onClick notifier (Some t)) m in
  effectsOf (onClick notifier (Some t)) m = [Engine Cancel; Ui OnSpeechEnd; Engine (Speak u)] /\
  currentUtterance reading = Some u /\ heldBy reading = [u] /\ isSpeaking reading = true /\
  onClick notifier (Some t') reading = (true, after stop m, [Engine Cancel; Ui OnSpeechEnd]).
Proof.
  intros He Hs Hok Htext u reading.
  assert (Hne : isEmpty (textToSpeak t) = false).
  { destruct (textToSpeak t) eqn:E; [|reflexivity]. cbn in Htext. discriminate. }
  assert (Hclick : onClick notifier (Some t) m =
            (true,
             withSynth (Some (Synth.withQueue [u] (Synth.cancel e)))
               (withCurrentUtterance (Some u) (stopped e m)),
             [Engine Cancel; Ui OnSpeechEnd; Engine (Speak u)])).
  { unfold onClick, bind, this. rewrite Hs, Hne.
    rewrite (speak_proceeds m e _ Options.none He Htext), Hok. reflexivity. }
  unfold reading, effectsOf, after. rewrite Hclick. cbn [fst snd].
  repeat split.
  unfold onClick, bind, this. cbn [isSpeaking synth withSynth Synth.speaking Synth.queue Synth.withQueue].
  rewrite !stop_result, He. reflexivity.
Qed.

(** X5. A key press that is neither the speech shortcut nor Escape during
    speech does nothing at all; Escape during speech does what [stop]
    does, and does not call [preventDefault]. *)
Theorem keydown_other_keys (m : SpeechManager) (e : KeyDown) (page : PageView) :
  isSpeechShortcut e = false ->
  (sameString (key e) (js "Escape") && isSpeaking m = false ->
     onKeyDown e page m = (false, m, [])) /\
  (sameString (key e) (js "Escape") && isSpeaking m = true ->
     onKeyDown e page m = (false, after stop m, [Engine Cancel; Ui OnSpeechEnd])).
Proof.
  intro Hkey. split; intro Hesc; unfold onKeyDown, bind, this; rewrite Hkey; cbn [ret];
    rewrite Hesc; [reflexivity|].
  apply andb_prop in Hesc as [_ Hs]. rewrite (stop_while_speaking m Hs). reflexivity.
Qed.

End Listeners.

(** ** Settings *)

(** Closes a goal [~ In x l] for a list [l] written out whose members all
    differ from [x] by their constructors. *)
Ltac absent_from_list :=
  let E := fresh "E" in
  intro E; cbn in E;
  repeat (destruct E as [E|E]; [discriminate E|]);
  exact E.

Section SettingsAndSession.
Context {H : Host}.

(** X6. [updateSettings] is silent and touches neither the engine nor the
    utterance being spoken; the next [speak] without options builds its
    request from the updated settings, each field being the value last
    given for it, a given 0 included. *)
Theorem updateSettings_applies_to_next_speak (m : SpeechManager) (new : Options.t)
    (text : option jsstring) :
  effectsOf (updateSettings new) m = [] /\
  synth (after (updateSettings new) m) = synth m /\
  currentUtterance (after (updateSettings new) m) = currentUtterance m /\
  forall e : Synth.t,
    synth m = Some e -> Synth.failing e = false ->
    isEmpty (trim (prepareText text)) = false ->
    exists u : Utterance.t,
      currentUtterance (after (speak text Options.none) (after (updateSettings new) m)) = Some u /\
      heldBy (after (speak text Options.none) (after (updateSettings new) m)) = [u] /\
      Utterance.rate u =
        match Options.rate new with Some x => x | None => Settings.rate (settings m) end /\
      Utterance.pitch u =
        match Options.pitch new with Some x => x | None => Settings.pitch (settings m) end /\
      Utterance.volume u =
        match Options.volume new with Some x => x | None => Settings.volume (settings m) end /\
      Utterance.voice u =
        match Options.voice new with Some v => Some v | None => Settings.voice (settings m) end.
Proof.
  repeat split.
  intros e He Hok Htext. unfold after at 1 3.
  rewrite (speak_proceeds (after (updateSettings new) m) e text Options.none He Htext), Hok.
  eexists. repeat split.
Qed.

(** ** Pausing and resuming, there and back *)

Lemma withSynth_same (m : SpeechManager) (e : Synth.t) :
  synth m = Some e -> withSynth (Some e) m = m.
Proof. destruct m as [s vs cur ini st]. cbn. intros ->. reflexivity. Qed.

Lemma pause_acts (m : SpeechManager) (e : Synth.t) :
  synth m = Some e -> Synth.speaking e = true -> Synth.paused e = false ->
  pause m = (tt, withSynth (Some (Synth.pause e)) m, [Engine Pause]).
Proof.
  intros He Hq Hp. unfold pause, bind at 1, this. rewrite He, Hq, Hp. reflexivity.
Qed.

Lemma resume_acts (m : SpeechManager) (e : Synth.t) :
  synth m = Some e -> Synth.paused e = true ->
  resume m = (tt, withSynth (Some (Synth.resume e)) m, [Engine Resume]).
Proof.
  intros He Hp. unfold resume, bind at 1, this. rewrite He, Hp. reflexivity.
Qed.

(** X7. From a speaking session [pause] followed by [resume] brings the object
    and the engine back exactly, with one call to the engine each; so does
    [resume] followed by [pause] from a session paused in mid-speech. *)
Theorem pause_resume_round_trip (notifier : bool) (m : SpeechManager) :
  (inState Speaking m = true ->
     run notifier [CallPause; CallResume] m = (tt, m, [Engine Pause; Engine Resume])) /\
  (inState Paused m = true -> isSpeaking m = true ->
     run notifier [CallResume; CallPause] m = (tt, m, [Engine Resume; Engine Pause])).
Proof.
  unfold inState, isSpeaking, isPaused. split.
  - intro Hs. destruct (synth m) as [e|] eqn:He; [|discriminate].
    apply andb_prop in Hs as [Hq Hp]. apply negb_true_iff in Hp.
    cbn [run react]. unfold bind, ret.
    rewrite (pause_acts m e He Hq Hp).
    rewrite (resume_acts (withSynth (Some (Synth.pause e)) m) (Synth.pause e) eq_refl eq_refl).
    replace (Synth.resume (Synth.pause e)) with e
      by (destruct e; cbn in Hp; subst; reflexivity).
    destruct m; cbn in He |- *; subst; reflexivity.
  - intros Hp Hq. destruct (synth m) as [e|] eqn:He; [|discriminate].
    cbn [run react]. unfold bind, ret.
    rewrite (resume_acts m e He Hp).
    rewrite (pause_acts (withSynth (Some (Synth.resume e)) m) (Synth.resume e) eq_refl Hq eq_refl).
    replace (Synth.pause (Synth.resume e)) with e
      by (destruct e; cbn in Hp; subst; reflexivity).
    destruct m; cbn in He |- *; subst; reflexivity.
Qed.

(** X8. [speak] and [stop] never ask the engine to pause or to resume, and the
    engine's paused flag is after them what it was before: a session that
    is stopped while paused is still paused when the next request is
    queued. *)
Theorem speak_and_stop_keep_the_paused_flag (m : SpeechManager)
    (text : option jsstring) (options : Options.t) :
  (~ In (Engine Pause) (effectsOf (speak text options) m) /\
   ~ In (Engine Resume) (effectsOf (speak text options) m) /\
   isPaused (after (speak text options) m) = isPaused m) /\
  (~ In (Engine Pause) (effectsOf stop m) /\
   ~ In (Engine Resume) (effectsOf stop m) /\
   isPaused (after stop m) = isPaused m).
Proof.
  assert (Hstop : ~ In (Engine Pause) (effectsOf stop m) /\
                  ~ In (Engine Resume) (effectsOf stop m) /\
                  isPaused (after stop m) = isPaused m).
  { unfold effectsOf, after, isPaused. rewrite stop_result.
    destruct (synth m) as [e|] eqn:He; cbn; rewrite ?He;
      repeat split; absent_from_list. }
  split; [|exact Hstop].
  unfold effectsOf, after, isPaused.
  destruct (synth m) as [e|] eqn:He.
  - destruct (isEmpty (trim (prepareText text))) eqn:Hblank.
    + rewrite (speak_blank m e text options He Hblank). cbn.
      repeat split; absent_from_list.
    + rewrite (speak_proceeds m e text options He Hblank).
      destruct (Synth.failing e); cbn; repeat split; absent_from_list.
  - rewrite (speak_unavailable m text options He). cbn. rewrite He.
    repeat split; absent_from_list.
Qed.

(** X9. When the engine reports an error on an utterance, the handler logs it
    twice, shows the failure notice when the notification banner is
    loaded, and forgets the current utterance.  It runs no hook, so the
    speech buttons are not reset, and it makes no call on the engine, which
    is left as it was. *)
Theorem error_report_resets_no_button (notifier : bool) (error : jsstring)
    (m : SpeechManager) :
  effectsOf (react notifier (Reports (OnError error))) m =
    Console Error "Speech error:" :: Console Error "Speech synthesis error:" ::
    (if notifier
     then [Notification "Speech playback failed. Please try again." "warning" 3000]
     else []) /\
  (forall hook, ~ In (Ui hook) (effectsOf (react notifier (Reports (OnError error))) m)) /\
  (forall call, ~ In (Engine call) (effectsOf (react notifier (Reports (OnError error))) m)) /\
  currentUtterance (after (react notifier (Reports (OnError error))) m) = None /\
  synth (after (react notifier (Reports (OnError error))) m) = synth m /\
  isSpeaking (after (react notifier (Reports (OnError error))) m) = isSpeaking m.
Proof.
  destruct notifier; cbn; repeat split; intro; absent_from_list.
Qed.

End SettingsAndSession.

(** ** The selected voice *)

Section SelectedVoice.
Context {H : Host}.

Lemma loadVoices_state (e : Synth.t) (m : SpeechManager) :
  after (loadVoices e) m =
    withSettings
      (setVoice (preferredVoice (Synth.getVoices e) (Settings.voice (settings m))) (settings m))
      (withVoices (Synth.getVoices e) m).
Proof.
  unfold loadVoices, preferredVoice, after, bind, emit, update, this, console.
  cbn [fst snd withVoices voices settings].
  destruct (filter isEnglish (Synth.getVoices e)) as [|v english] eqn:Henglish.
  - cbn [length Nat.ltb Nat.leb find].
    destruct (Synth.getVoices e) as [|w catalog]; cbn; [|reflexivity].
    destruct m as [s vs cur ini [r p vol vo]]. reflexivity.
  - cbn [length]. change (0 <? S (length english))%nat with true. cbv iota.
    destruct (find soundsFemale (v :: english)); reflexivity.
Qed.

Lemma preferredVoice_settles (catalog : list VoiceHandle) (x : option VoiceHandle) :
  preferredVoice catalog (preferredVoice catalog x) = preferredVoice catalog x.
Proof.
  unfold preferredVoice.
  destruct (find soundsFemale (filter isEnglish catalog)); [reflexivity|].
  destruct (filter isEnglish catalog); [|reflexivity].
  destruct catalog; reflexivity.
Qed.

(** X10. Whenever the engine knows a voice, [loadVoices] selects one of the
    voices it knows; an English one whenever it knows an English voice; and
    one that is English and sounds female whenever it knows such a voice.
    Loading the same catalog again changes nothing. *)
Theorem loadVoices_picks_from_the_catalog (e : Synth.t) (m : SpeechManager) :
  (Synth.getVoices e <> [] ->
     exists v, Settings.voice (settings (after (loadVoices e) m)) = Some v /\
               In v (Synth.getVoices e)) /\
  (forall w, In w (Synth.getVoices e) -> isEnglish w = true ->
     exists v, Settings.voice (settings (after (loadVoices e) m)) = Some v /\
               In v (Synth.getVoices e) /\ isEnglish v = true) /\
  (forall w, In w (Synth.getVoices e) -> isEnglish w = true -> soundsFemale w = true ->
     exists v, Settings.voice (settings (after (loadVoices e) m)) = Some v /\
               In v (Synth.getVoices e) /\ isEnglish v = true /\ soundsFemale v = true) /\
  after (loadVoices e) (after (loadVoices e) m) = after (loadVoices e) m.
Proof.
  rewrite !loadVoices_state. cbn [settings withSettings withVoices Settings.voice setVoice].
  set (catalog := Synth.getVoices e). set (x := Settings.voice (settings m)).
  split; [|split; [|split]].
  - intro Hne. unfold preferredVoice.
    destruct (find soundsFemale (filter isEnglish catalog)) as [v|] eqn:Hfind.
    + apply find_some in Hfind as [Hin _]. apply filter_In in Hin as [Hin _]. eauto.
    + destruct (filter isEnglish catalog) as [|v english] eqn:Henglish.
      * destruct catalog as [|v catalog']; [congruence|]. exists v. split; [reflexivity | left; reflexivity].
      * assert (Hin : In v (filter isEnglish catalog)) by (rewrite Henglish; left; reflexivity).
        apply filter_In in Hin as [Hin _]. eauto.
  - intros w Hw Hen. unfold preferredVoice.
    assert (Hwf : In w (filter isEnglish catalog)) by (apply filter_In; auto).
    destruct (find soundsFemale (filter isEnglish catalog)) as [v|] eqn:Hfind.
    + apply find_some in Hfind as [Hin _]. apply filter_In in Hin as [Hin Hv]. eauto.
    + destruct (filter isEnglish catalog) as [|v english] eqn:Henglish; [destruct Hwf|].
      assert (Hin : In v (filter isEnglish catalog)) by (rewrite Henglish; left; reflexivity).
      apply filter_In in Hin as [Hin Hv]. eauto.
  - intros w Hw Hen Hfe. unfold preferredVoice.
    assert (Hwf : In w (filter isEnglish catalog)) by (apply filter_In; auto).
    destruct (find soundsFemale (filter isEnglish catalog)) as [v|] eqn:Hfind.
    + apply find_some in Hfind as [Hin Hv]. apply filter_In in Hin as [Hin Hve]. eauto 6.
    + pose proof (find_none _ _ Hfind w Hwf) as Hno. congruence.
  - rewrite preferredVoice_settles.
    destruct m as [s vs cur ini [r p vol vo]]. reflexivity.
Qed.

End SelectedVoice.

(** ** Trimming *)

Lemma trimStart_shape (s : jsstring) :
  trimStart s = [] \/ exists c r, trimStart s = c :: r /\ isSpace c = false.
Proof.
  induction s as [|c s IH]; [left; reflexivity|].
  cbn. destruct (isSpace c) eqn:Hc; [exact IH | right; eauto].
Qed.

Lemma trimStart_before_last (l : jsstring) (c : codeUnit) :
  isSpace c = false -> exists u, trimStart (l ++ [c]) = u ++ [c].
Proof.
  intro Hc. induction l as [|d l IH].
  - exists []. cbn. rewrite Hc. reflexivity.
  - cbn. destruct (isSpace d); [exact IH | exists (d :: l); reflexivity].
Qed.

Lemma trimEnd_shape (s : jsstring) :
  trimEnd s = [] \/ exists r c, trimEnd s = r ++ [c] /\ isSpace c = false.
Proof.
  unfold trimEnd. destruct (trimStart_shape (rev s)) as [E|(c & r & E & Hc)]; rewrite E.
  - left. reflexivity.
  - right. exists (rev r), c. split; [reflexivity | exact Hc].
Qed.

Lemma trimEnd_keeps_head (c : codeUnit) (r : jsstring) :
  isSpace c = false -> exists u, trimEnd (c :: r) = c :: u.
Proof.
  intro Hc. unfold trimEnd. cbn [rev].
  destruct (trimStart_before_last (rev r) c Hc) as [u E]. rewrite E.
  exists (rev u). rewrite rev_app_distr. reflexivity.
Qed.

(** What [trim] returns is empty, or starts and ends on a unit that is not
    whitespace. *)
Lemma trim_shape (s : jsstring) :
  trim s = [] \/
  (exists c r, trim s = c :: r /\ isSpace c = false) /\
  (exists r c, trim s = r ++ [c] /\ isSpace c = false).
Proof.
  unfold trim. destruct (trimStart_shape s) as [E|(c & r & E & Hc)]; rewrite E.
  - left. reflexivity.
  - right. destruct (trimEnd_keeps_head c r Hc) as [u Hu]. split; [eauto|].
    destruct (trimEnd_shape (c :: r)) as [E'|Hlast]; [congruence | exact Hlast].
Qed.

Lemma trim_fixed (s : jsstring) :
  (exists c r, s = c :: r /\ isSpace c = false) ->
  (exists r c, s = r ++ [c] /\ isSpace c = false) ->
  trim s = s.
Proof.
  intros (c & r & E & Hc) (r' & d & E' & Hd). unfold trim.
  assert (Hstart : trimStart s = s) by (rewrite E; apply trimStart_kept, Hc).
  rewrite Hstart, E'. apply trimEnd_kept, Hd.
Qed.

Lemma trim_idempotent (s : jsstring) : trim (trim s) = trim s.
Proof.
  destruct (trim_shape s) as [E|[Hhead Hlast]].
  - rewrite E. reflexivity.
  - apply trim_fixed; assumption.
Qed.

Section Trimmed.
Context {H : Host}.

(** X13. Whatever the text, [prepareText] returns a string that neither starts
    nor ends with whitespace, truncated or not; so the test [speak] makes
    on the trimmed result is a test for the empty result. *)
Theorem prepareText_is_trimmed (text : option jsstring) :
  trim (prepareText text) = prepareText text /\
  isEmpty (trim (prepareText text)) = isEmpty (prepareText text).
Proof.
  assert (Htrim : trim (prepareText text) = prepareText text).
  { destruct text as [[|c rest]|]; try reflexivity.
    rewrite prepareText_nonempty.
    destruct (maxLength <? length (cleaned (c :: rest)))%nat eqn:Hlong.
    - apply Nat.ltb_lt in Hlong. unfold cleaned, cleanUp in *.
      match goal with |- context [firstn _ (trim ?x)] => set (raw := x) in * end.
      destruct (trim_shape raw) as [E|[(d & r & E & Hd) _]].
      + rewrite E in Hlong. cbn in Hlong. lia.
      + rewrite E. apply trim_fixed.
        * exists d, (firstn 2999 r ++ truncationNotice). split; [reflexivity | exact Hd].
        * exists (firstn maxLength (d :: r) ++ removelast truncationNotice), 0x2E.
          split; [|reflexivity]. rewrite <- app_assoc. reflexivity.
    - unfold cleaned, cleanUp. apply trim_idempotent. }
  split; [exact Htrim | rewrite Htrim; reflexivity].
Qed.

(** X14. A text that the page renders as whitespace only, or as nothing, is
    normalized to the empty string. *)
Theorem prepareText_of_blank_text_is_empty (text : jsstring) :
  Forall (fun c => isSpace c = true) (textContent text) ->
  Forall (fun c => isSpace c = true) (innerText text) ->
  prepareText (Some text) = [].
Proof.
  intros Htc Hit. destruct text as [|c rest]; [reflexivity|].
  rewrite prepareText_nonempty.
  assert (Hclean : forall s, Forall (fun c => isSpace c = true) s -> cleanUp s = []).
  { intros s Hs. unfold cleanUp. destruct s as [|d s]; [reflexivity|].
    assert (Hw : replace whitespaceRun (d :: s) = [0x20]).
    { unfold replace. rewrite replaceAll_at.
      assert (Hspan : spanLen isSpace (d :: s) = S (length s)).
      { rewrite <- (app_nil_r (d :: s)), (spanLen_all isSpace (d :: s) [] Hs). cbn. lia. }
      unfold whitespaceRun. rewrite Hspan.
      rewrite <- (app_nil_r s) at 2. rewrite replaceAll_skip. reflexivity. }
    rewrite Hw. reflexivity. }
  assert (Hcleaned : cleaned (c :: rest) = []).
  { unfold cleaned. apply Hclean. unfold orElse.
    destruct (textContent (c :: rest)); cbn [isEmpty]; [|exact Htc].
    destruct (innerText (c :: rest)); cbn [isEmpty]; [constructor | exact Hit]. }
  rewrite Hcleaned. reflexivity.
Qed.

End Trimmed.

(** ** Blanks in the normalized text *)

Lemma singleSpaced_weaken (s : jsstring) (b : bool) :
  singleSpaced true s = true -> singleSpaced b s = true.
Proof.
  destruct s as [|c s]; [reflexivity|]. cbn.
  destruct (isSpace c); [|auto]. rewrite andb_false_r. discriminate.
Qed.

Lemma singleSpaced_any (s : jsstring) (b : bool) :
  singleSpaced b s = true -> singleSpaced false s = true.
Proof.
  destruct b; [apply singleSpaced_weaken | auto].
Qed.

Lemma singleSpaced_tail (b : bool) (c : codeUnit) (s : jsstring) :
  singleSpaced b (c :: s) = true -> singleSpaced false s = true.
Proof.
  cbn. destruct (isSpace c); [|auto].
  intro E. apply andb_prop in E as [_ E]. apply singleSpaced_weaken, E.
Qed.

Lemma singleSpaced_app (a s : jsstring) :
  forall b, singleSpaced b (a ++ s) = singleSpaced b a && singleSpaced (spaceAtEnd b a) s.
Proof.
  induction a as [|c a IH]; intro b; cbn; [reflexivity|].
  destruct (isSpace c); rewrite IH; [|reflexivity].
  rewrite <- !andb_assoc. reflexivity.
Qed.

Lemma singleSpaced_prefix (a s : jsstring) (b : bool) :
  singleSpaced b (a ++ s) = true -> singleSpaced b a = true.
Proof. rewrite singleSpaced_app. intro E. apply andb_prop in E as [E _]. exact E. Qed.

(** In a string the scan has gone through, a whitespace unit is a plain
    space and the unit after it is not whitespace. *)
Lemma singleSpaced_places (s : jsstring) :
  forall b, singleSpaced b s = true ->
  forall i c, nth_error s i = Some c -> isSpace c = true ->
    c = 0x20 /\ forall d, nth_error s (S i) = Some d -> isSpace d = false.
Proof.
  induction s as [|x s IH]; intros b Hs i c Hi Hc; [destruct i; discriminate|].
  destruct i as [|i].
  - cbn in Hi. inversion Hi; subst x. cbn in Hs. rewrite Hc in Hs.
    apply andb_prop in Hs as [Hs Hrest]. apply andb_prop in Hs as [Hx _].
    apply N.eqb_eq in Hx. split; [exact Hx|].
    intros d Hd. destruct s as [|y s]; [discriminate|]. cbn in Hd. inversion Hd; subst y.
    cbn in Hrest. destruct (isSpace d); [|reflexivity].
    rewrite andb_false_r in Hrest. discriminate.
  - apply (IH false (singleSpaced_tail b x s Hs) i c Hi Hc).
Qed.

(** [/\s+/g] leaves single spaces: from a position outside a run, and from
    one inside the run whose space has just been written. *)
Lemma whitespaceRun_singleSpaced (s : jsstring) :
  (forall prev, singleSpaced false (replaceAll whitespaceRun prev 0 s) = true) /\
  (forall prev, singleSpaced true (replaceAll whitespaceRun prev (spanLen isSpace s) s) = true).
Proof.
  induction s as [|c s [IHout IHin]]; [split; reflexivity|].
  assert (Hout : forall prev, singleSpaced false (replaceAll whitespaceRun prev 0 (c :: s)) = true).
  { intro prev. rewrite replaceAll_at. unfold whitespaceRun. cbn [spanLen].
    destruct (isSpace c) eqn:Hc.
    - cbn [js map list_ascii_of_string app]. cbn [singleSpaced].
      change (isSpace (N_of_ascii " ")) with true. cbv iota.
      rewrite IHin. reflexivity.
    - cbn [singleSpaced]. rewrite Hc. apply IHout. }
  split; [exact Hout|].
  intro prev. cbn [spanLen]. destruct (isSpace c) eqn:Hc.
  - cbn [replaceAll]. apply IHin.
  - specialize (Hout prev). rewrite replaceAll_at in Hout |- *.
    unfold whitespaceRun in *. cbn [spanLen] in *. rewrite Hc in *.
    cbn [singleSpaced] in *. rewrite Hc in *. exact Hout.
Qed.

Lemma solidReplacement_in_place (replacement rest : jsstring) (b : bool) :
  solidReplacement replacement ->
  singleSpaced b (replacement ++ rest) = singleSpaced false rest.
Proof.
  intros [(c & r & -> & Hc) [Hss Hend]]. rewrite singleSpaced_app.
  cbn in Hss, Hend |- *. rewrite Hc in *. rewrite Hss, Hend. reflexivity.
Qed.

(** A global replace whose replacements are all solid keeps single spaces
    single. *)
Lemma replaceAll_singleSpaced (m : Matcher) :
  (forall prev s k replacement,
     m prev s = Some (S k, replacement) -> solidReplacement replacement) ->
  forall s,
    (forall prev b, singleSpaced b s = true ->
       singleSpaced b (replaceAll m prev 0 s) = true) /\
    (forall prev k b, singleSpaced b s = true ->
       singleSpaced false (replaceAll m prev k s) = true).
Proof.
  intros Hm s. induction s as [|c s [IHcopy IHskip]]; [split; reflexivity|].
  assert (Hcopy : forall prev b, singleSpaced b (c :: s) = true ->
            singleSpaced b (replaceAll m prev 0 (c :: s)) = true).
  { intros prev b Hs. rewrite replaceAll_at.
    assert (Hplain : singleSpaced b (c :: replaceAll m (Some c) 0 s) = true).
    { cbn in Hs |- *. destruct (isSpace c).
      - apply andb_prop in Hs as [Hhead Hrest]. rewrite Hhead. apply IHcopy, Hrest.
      - apply IHcopy, Hs. }
    destruct (m prev (c :: s)) as [[[|k] replacement]|] eqn:E; try exact Hplain.
    rewrite (solidReplacement_in_place _ _ _ (Hm _ _ _ _ E)).
    apply (IHskip (Some c) k false), (singleSpaced_tail b c s Hs). }
  split; [exact Hcopy|].
  intros prev [|k] b Hs.
  - apply Hcopy, (singleSpaced_any _ b), Hs.
  - cbn [replaceAll]. apply (IHskip (Some c) k false), (singleSpaced_tail b c s Hs).
Qed.

Lemma isSentenceMark_not_space (c : codeUnit) : isSentenceMark c = true -> isSpace c = false.
Proof.
  unfold isSentenceMark. intro E.
  apply orb_prop in E as [E|E]; [apply orb_prop in E as [E|E]|];
    apply N.eqb_eq in E; subst c; reflexivity.
Qed.

Lemma duplicatePunctuation_solid (prev : option codeUnit) (s : jsstring) (k : nat)
    (replacement : jsstring) :
  duplicatePunctuation prev s = Some (S k, replacement) -> solidReplacement replacement.
Proof.
  unfold duplicatePunctuation. destruct s as [|c s]; [discriminate|].
  destruct (isSentenceMark c) eqn:Hc; [|discriminate].
  destruct (spanLen isSentenceMark _); [discriminate|].
  intro E. inversion E; subst. apply isSentenceMark_not_space in Hc.
  split; [exists c, []; auto | cbn; rewrite Hc; auto].
Qed.

Lemma url_solid (prev : option codeUnit) (s : jsstring) (k : nat) (replacement : jsstring) :
  url prev s = Some (S k, replacement) -> solidReplacement replacement.
Proof.
  unfold url. destruct (wordBoundary _ _); [|discriminate].
  destruct (stripPrefix (js "http") s) as [r|]; [|discriminate].
  destruct (stripPrefix (js "://") _) as [r'|]; [|discriminate].
  destruct (spanLen _ r'); [discriminate|].
  intro E. inversion E; subst.
  split; [eexists _, _; split; reflexivity | split; reflexivity].
Qed.

Lemma leading_digits (s : jsstring) :
  Forall (fun c => isDigit c = true) (firstn (spanLen isDigit s) s).
Proof.
  induction s as [|c s IH]; [constructor|].
  cbn. destruct (isDigit c) eqn:Hc; cbn; constructor; assumption.
Qed.

Lemma splitJoin_solid (c : codeUnit) (s : jsstring) :
  Forall (fun c => isDigit c = true) (c :: s) -> solidReplacement (splitJoin (c :: s)).
Proof.
  revert c. induction s as [|d s IH]; intros c Hall.
  - inversion Hall as [|? ? Hc _]; subst. apply isDigit_not_space in Hc.
    split; [exists c, []; auto | cbn; rewrite Hc; auto].
  - inversion Hall as [|? ? Hc Hrest]; subst. apply isDigit_not_space in Hc.
    destruct (IH d Hrest) as [(x & r & E & Hx) [Hss Hend]].
    change (splitJoin (c :: d :: s)) with (c :: 0x20 :: splitJoin (d :: s)).
    unfold solidReplacement. cbn [singleSpaced spaceAtEnd]. rewrite Hc.
    change (isSpace 0x20) with true. cbv iota.
    split; [eauto|]. rewrite E in Hss, Hend |- *. cbn in Hss, Hend |- *.
    rewrite Hx in *. auto.
Qed.

Lemma longNumber_solid (prev : option codeUnit) (s : jsstring) (k : nat)
    (replacement : jsstring) :
  longNumber prev s = Some (S k, replacement) -> solidReplacement replacement.
Proof.
  unfold longNumber. destruct (_ && _ && _); [|discriminate].
  intro E. inversion E as [[Hn Hrep]].
  pose proof (leading_digits s) as Hall. rewrite Hn in Hall |- *.
  destruct (firstn (S k) s) as [|c r] eqn:Hfirst.
  - destruct s; [cbn in Hn; discriminate | cbn in Hfirst; discriminate].
  - apply splitJoin_solid, Hall.
Qed.

Lemma trimStart_suffix (s : jsstring) : exists x, s = x ++ trimStart s.
Proof.
  induction s as [|c s [x IH]]; [exists []; reflexivity|].
  cbn. destruct (isSpace c); [|exists []; reflexivity].
  exists (c :: x). cbn. f_equal. exact IH.
Qed.

Lemma trimEnd_prefix (s : jsstring) : exists x, s = trimEnd s ++ x.
Proof.
  unfold trimEnd. destruct (trimStart_suffix (rev s)) as [x E].
  exists (rev x). rewrite <- rev_app_distr, <- E, rev_involutive. reflexivity.
Qed.

Lemma trim_singleSpaced (s : jsstring) :
  singleSpaced false s = true -> singleSpaced false (trim s) = true.
Proof.
  intro Hs. unfold trim.
  assert (Hstart : singleSpaced false (trimStart s) = true).
  { destruct (trimStart_suffix s) as [x E]. rewrite E, singleSpaced_app in Hs.
    apply andb_prop in Hs as [_ Hs]. apply (singleSpaced_any _ _ Hs). }
  destruct (trimEnd_prefix (trimStart s)) as [x E]. rewrite E in Hstart.
  apply (singleSpaced_prefix _ _ _ Hstart).
Qed.

Lemma cleanUp_singleSpaced (s : jsstring) : singleSpaced false (cleanUp s) = true.
Proof.
  unfold cleanUp. apply trim_singleSpaced. unfold replace at 1.
  apply (replaceAll_singleSpaced longNumber longNumber_solid). unfold replace at 1.
  apply (replaceAll_singleSpaced url url_solid). unfold replace at 1.
  apply (replaceAll_singleSpaced duplicatePunctuation duplicatePunctuation_solid).
  rewrite newline_replacement_never_fires. apply whitespaceRun_singleSpaced.
Qed.

(** X15. Whatever the text and whatever the page makes of its markup,
    [prepareText] returns a string in which the only whitespace is the
    plain space and no two spaces are neighbours: tabs, line breaks and
    runs of blanks do not survive. *)
Theorem prepareText_has_single_spaces (H : Host) (text : option jsstring) :
  forall (i : nat) (c : codeUnit),
    nth_error (prepareText text) i = Some c -> isSpace c = true ->
    c = 0x20 /\
    forall d, nth_error (prepareText text) (S i) = Some d -> isSpace d = false.
Proof.
  apply (singleSpaced_places _ false).
  destruct text as [[|c rest]|]; try reflexivity.
  rewrite prepareText_nonempty.
  destruct (maxLength <? length (cleaned (c :: rest)))%nat.
  - rewrite singleSpaced_app. apply andb_true_intro. split.
    + apply (singleSpaced_prefix _ (skipn maxLength (cleaned (c :: rest)))).
      rewrite firstn_skipn. apply cleanUp_singleSpaced.
    + destruct (spaceAtEnd false (firstn maxLength (cleaned (c :: rest)))); reflexivity.
  - apply cleanUp_singleSpaced.
Qed.

(** ** Field validation *)

Lemma trimStart_blank_prefix (a s : jsstring) :
  Forall (fun c => isSpace c = true) a -> trimStart (a ++ s) = trimStart s.
Proof. induction 1 as [|c a Hc _ IH]; cbn; [reflexivity | rewrite Hc; exact IH]. Qed.

Lemma trimEnd_blank_suffix (s b : jsstring) :
  Forall (fun c => isSpace c = true) b -> trimEnd (s ++ b) = trimEnd s.
Proof.
  intro Hb. unfold trimEnd. rewrite rev_app_distr, trimStart_blank_prefix; [reflexivity|].
  apply Forall_rev, Hb.
Qed.

Lemma trimStart_app (s b : jsstring) :
  trimStart s <> [] -> trimStart (s ++ b) = trimStart s ++ b.
Proof.
  induction s as [|c s IH]; cbn; [congruence|].
  destruct (isSpace c); [exact IH | reflexivity].
Qed.

Lemma trimStart_all_blank (s : jsstring) :
  trimStart s = [] -> Forall (fun c => isSpace c = true) s.
Proof.
  induction s as [|c s IH]; cbn; [constructor|].
  destruct (isSpace c) eqn:Hc; [|discriminate]. intro E. constructor; auto.
Qed.

(** Whitespace around a string does not change what [trim] returns. *)
Lemma trim_padding (a s b : jsstring) :
  Forall (fun c => isSpace c = true) a -> Forall (fun c => isSpace c = true) b ->
  trim (a ++ s ++ b) = trim s.
Proof.
  intros Ha Hb. unfold trim. rewrite (trimStart_blank_prefix a _ Ha).
  destruct (trimStart s) as [|c r] eqn:E.
  - assert (Hall : Forall (fun c => isSpace c = true) (s ++ b)).
    { apply Forall_app. split; [apply trimStart_all_blank, E | exact Hb]. }
    rewrite <- (app_nil_r (s ++ b)), (trimStart_blank_prefix _ [] Hall). reflexivity.
  - rewrite trimStart_app by congruence. rewrite E. apply trimEnd_blank_suffix, Hb.
Qed.

Module FormUtilsFacts.
Import FormUtils.

Lemma isAddressUnit_at : isAddressUnit 0x40 = false.
Proof. reflexivity. Qed.

Lemma isAddressUnit_dot : isAddressUnit 0x2E = true.
Proof. reflexivity. Qed.

Lemma dotBeforeEnd_spec (s : jsstring) :
  dotBeforeEnd s = true <-> exists r y t, s = r ++ 0x2E :: y :: t.
Proof.
  split.
  - induction s as [|c s IH]; [discriminate|].
    destruct s as [|d s]; [discriminate|].
    change (dotBeforeEnd (c :: d :: s)) with ((c =? 0x2E) || dotBeforeEnd (d :: s)).
    intro E. apply orb_prop in E as [E|E].
    + apply N.eqb_eq in E. subst c. exists [], d, s. reflexivity.
    + destruct (IH E) as (r & y & t & Hs). exists (c :: r), y, t. rewrite Hs. reflexivity.
  - intros (r & y & t & ->). induction r as [|c r IH].
    + reflexivity.
    + cbn [app]. destruct (r ++ 0x2E :: y :: t) as [|d u] eqn:E.
      * destruct r; discriminate.
      * change (dotBeforeEnd (c :: d :: u)) with ((c =? 0x2E) || dotBeforeEnd (d :: u)).
        rewrite IH. apply orb_true_r.
Qed.

Lemma spanLen_firstn (p : codeUnit -> bool) (s : jsstring) :
  Forall (fun c => p c = true) (firstn (spanLen p s) s).
Proof.
  induction s as [|c s IH]; [constructor|].
  cbn. destruct (p c) eqn:Hc; cbn; constructor; assumption.
Qed.

Lemma spanLen_stops (p : codeUnit -> bool) (a : jsstring) (c : codeUnit) (b : jsstring) :
  Forall (fun c => p c = true) a -> p c = false -> spanLen p (a ++ c :: b) = length a.
Proof.
  intros Ha Hc. rewrite (spanLen_all p a (c :: b) Ha). cbn. rewrite Hc. lia.
Qed.

(** X25. The addresses [isValidEmail] accepts are exactly the strings made of a
    name, an [@], and a domain with a dot inside it, where name and both
    sides of the dot are non-empty and hold neither whitespace nor [@]. *)
Theorem isValidEmail_accepts_exactly (s : jsstring) :
  isValidEmail s = true <->
  exists name a b : jsstring,
    s = name ++ [0x40] ++ a ++ [0x2E] ++ b /\
    name <> [] /\ a <> [] /\ b <> [] /\
    Forall (fun c => isAddressUnit c = true) (name ++ a ++ b).
Proof.
  unfold isValidEmail. split.
  - pose proof (spanLen_firstn isAddressUnit s) as Hname.
    pose proof (firstn_skipn (spanLen isAddressUnit s) s) as Hsplit.
    destruct (skipn (spanLen isAddressUnit s) s) as [|c domain]; [discriminate|].
    intro E. apply andb_prop in E as [E Hdot]. apply andb_prop in E as [E Hdomain].
    apply andb_prop in E as [Hlen Hat].
    apply Nat.ltb_lt in Hlen. apply N.eqb_eq in Hat. subst c.
    destruct domain as [|x rest]; [discriminate|].
    apply dotBeforeEnd_spec in Hdot as (r & y & t & ->).
    exists (firstn (spanLen isAddressUnit s) s), (x :: r), (y :: t).
    split; [exact (eq_sym Hsplit)|].
    split; [destruct s; cbn in *; [lia|]; destruct (isAddressUnit c); cbn in *; [discriminate | lia]|].
    split; [discriminate|]. split; [discriminate|].
    rewrite forallb_forall, <- Forall_forall in Hdomain.
    apply Forall_app. split; [exact Hname|].
    inversion Hdomain as [|? ? Hx Hrest]; subst.
    apply Forall_app in Hrest as [Hr Hrest]. inversion Hrest as [|? ? _ Hyt]; subst.
    apply Forall_app. split; [constructor; assumption | exact Hyt].
  - intros (name & a & b & -> & Hname & Ha & Hb & Hall).
    apply Forall_app in Hall as [Hn Hall]. apply Forall_app in Hall as [Hau Hbu].
    cbn [app]. rewrite (spanLen_stops isAddressUnit name 0x40 _ Hn isAddressUnit_at).
    rewrite skipn_app, skipn_all, Nat.sub_diag. cbn [app skipn].
    assert (Hlen : (0 <? length name)%nat = true).
    { apply Nat.ltb_lt. destruct name; [congruence | cbn; lia]. }
    rewrite Hlen, N.eqb_refl. cbn [andb].
    assert (Hdomain : forallb isAddressUnit (a ++ 0x2E :: b) = true).
    { rewrite forallb_forall, <- Forall_forall. apply Forall_app.
      split; [exact Hau | constructor; [reflexivity | exact Hbu]]. }
    rewrite Hdomain. cbn [andb].
    destruct a as [|x r]; [congruence|]. destruct b as [|y t]; [congruence|].
    cbn [app]. apply dotBeforeEnd_spec. eauto.
Qed.

Lemma judge_cases (rules : Rules) (raw : jsstring) :
  let v := trim raw in
  let failed :=
    (required rules && isEmpty v) ||
    ((0 <? limit (minLength rules))%nat && (length v <? limit (minLength rules))%nat) ||
    ((0 <? limit (maxLength rules))%nat && (limit (maxLength rules) <? length v)%nat) ||
    (email rules && negb (isValidEmail v)) in
  fst (judge rules raw) = negb failed /\
  (snd (judge rules raw) = [] <-> failed = false).
Proof.
  cbv zeta. unfold judge.
  destruct (required rules && isEmpty (trim raw)); [cbn; split; [reflexivity | split; discriminate]|].
  destruct ((0 <? limit (minLength rules))%nat && _);
    [cbn; split; [reflexivity | split; discriminate]|].
  destruct ((0 <? limit (maxLength rules))%nat && _);
    [cbn; split; [reflexivity | split; discriminate]|].
  destruct (email rules && _); cbn; split; try reflexivity; split; auto; discriminate.
Qed.

(** X26. [validateField] accepts a value exactly when its trimmed form meets
    every rule given: it is not empty when required, no shorter than
    [minLength], no longer than a [maxLength] other than 0 (which is no
    limit at all), and an address when [email] is set.  The message is
    empty exactly when the value is accepted. *)
Theorem validateField_accepts_iff (field : Field) (rules : Rules) :
  let v := trim (value field) in
  (snd (validateField field rules) = true <->
     (required rules = true -> v <> []) /\
     (forall n, minLength rules = Some n -> (n <= length v)%nat) /\
     (forall n, maxLength rules = Some n -> n <> 0%nat -> (length v <= n)%nat) /\
     (email rules = true -> isValidEmail v = true)) /\
  (snd (validateField field rules) = true <-> snd (judge rules (value field)) = []).
Proof.
  cbv zeta. unfold validateField.
  destruct (judge_cases rules (value field)) as [Hfst Hsnd]. cbv zeta in Hfst, Hsnd.
  destruct (judge rules (value field)) as [ok message]. cbn [fst snd] in *.
  set (v := trim (value field)) in *.
  split.
  - rewrite Hfst, negb_true_iff, !orb_false_iff, !andb_false_iff.
    split.
    + intros [[[Hreq Hmin] Hmax] Hmail]. repeat split.
      * intros Hr E. rewrite Hr, E in Hreq. destruct Hreq; discriminate.
      * intros n Hn. rewrite Hn in Hmin. cbn [limit] in Hmin.
        destruct Hmin as [E|E]; apply Nat.ltb_ge in E; lia.
      * intros n Hn Hpos. rewrite Hn in Hmax. cbn [limit] in Hmax.
        destruct Hmax as [E|E]; apply Nat.ltb_ge in E; lia.
      * intros Hm. rewrite Hm in Hmail. destruct Hmail as [E|E]; [discriminate|].
        apply negb_false_iff, E.
    + intros (Hreq & Hmin & Hmax & Hmail). repeat split.
      * destruct (required rules); [|auto]. right.
        destruct v; [exfalso; apply Hreq; reflexivity | reflexivity].
      * destruct (minLength rules) as [n|]; cbn [limit]; [|auto].
        right. apply Nat.ltb_ge. apply Hmin. reflexivity.
      * destruct (maxLength rules) as [[|n]|]; cbn [limit]; auto.
        right. apply Nat.ltb_ge. apply Hmax; [reflexivity | lia].
      * destruct (email rules); [|auto]. right. rewrite Hmail; reflexivity.
  - rewrite Hsnd, Hfst. apply negb_true_iff.
Qed.

(** X27. Whitespace before and after the value of a field changes neither the
    verdict nor the message. *)
Theorem judge_ignores_padding (rules : Rules) (a raw b : jsstring) :
  Forall (fun c => isSpace c = true) a -> Forall (fun c => isSpace c = true) b ->
  judge rules (a ++ raw ++ b) = judge rules raw.
Proof.
  intros Ha Hb. unfold judge. rewrite (trim_padding a raw b Ha Hb). reflexivity.
Qed.

Lemma isValidEmail_empty : isValidEmail [] = false.
Proof. reflexivity. Qed.

(** X28. A field left blank is accepted exactly when it is not required, no
    [minLength] of 1 or more is set and the [email] rule is off: an optional
    address or an optional text with a minimum length cannot stay empty. *)
Theorem blank_field_verdict (rules : Rules) (raw : jsstring) :
  Forall (fun c => isSpace c = true) raw ->
  fst (judge rules raw) =
    negb (required rules) && (limit (minLength rules) =? 0)%nat && negb (email rules).
Proof.
  intro Hraw.
  assert (Hv : trim raw = []).
  { pose proof (trim_padding raw [] [] Hraw (Forall_nil _)) as E.
    cbn [app] in E. rewrite app_nil_r in E. exact E. }
  destruct (judge_cases rules raw) as [Hfst _]. cbv zeta in Hfst.
  rewrite Hfst, Hv. cbn [isEmpty length]. rewrite isValidEmail_empty.
  destruct (required rules), (email rules), (limit (minLength rules)) as [|n],
    (limit (maxLength rules)) as [|k]; reflexivity.
Qed.

Lemma In_removeClass (token c : string) (classes : list string) :
  In c (removeClass token classes) <-> In c classes /\ c <> token.
Proof.
  unfold removeClass. rewrite filter_In, negb_true_iff.
  split; intros [Hin Hc]; split; try exact Hin.
  - intro E. apply String.eqb_eq in E. congruence.
  - apply String.eqb_neq, Hc.
Qed.

Lemma In_addClass (token c : string) (classes : list string) :
  In c (addClass token classes) <-> c = token \/ In c classes.
Proof.
  unfold addClass. destruct (existsb (String.eqb token) classes) eqn:E.
  - apply existsb_exists in E as (x & Hx & Heq). apply String.eqb_eq in Heq. subst x.
    split; [auto | intros [->|Hin]; assumption].
  - rewrite in_app_iff. cbn. split; [intros [Hin|[->|[]]]; auto | intros [->|Hin]; auto].
Qed.

Lemma NoDup_removeClass (token : string) (classes : list string) :
  NoDup classes -> NoDup (removeClass token classes).
Proof. apply NoDup_filter. Qed.

Lemma NoDup_addClass (token : string) (classes : list string) :
  NoDup classes -> NoDup (addClass token classes).
Proof.
  intro Hnd. unfold addClass. destruct (existsb (String.eqb token) classes) eqn:E; [exact Hnd|].
  apply NoDup_app; [exact Hnd | constructor; [intros [] | constructor] |].
  intros x Hx [Hx'|[]]. subst x.
  assert (Hex : existsb (String.eqb token) classes = true).
  { apply existsb_exists. exists token. split; [exact Hx | apply String.eqb_refl]. }
  congruence.
Qed.

(** X29. After [validateField] the field carries [is-valid] exactly when it was
    accepted and [is-invalid] exactly when it was not, never both; every
    other class is kept and no class is doubled.  The feedback element gets
    the message of a rejection; an acceptance leaves whatever message it
    showed before. *)
Theorem validateField_marks_the_field (field : Field) (rules : Rules) :
  let marked := fst (validateField field rules) in
  let ok := snd (validateField field rules) in
  (In "is-valid"%string (classList marked) <-> ok = true) /\
  (In "is-invalid"%string (classList marked) <-> ok = false) /\
  (forall c, c <> "is-valid"%string -> c <> "is-invalid"%string ->
     (In c (classList marked) <-> In c (classList field))) /\
  (NoDup (classList field) -> NoDup (classList marked)) /\
  value marked = value field /\
  feedback marked =
    (if ok then feedback field
     else option_map (fun _ => snd (judge rules (value field))) (feedback field)).
Proof.
  cbv zeta. unfold validateField.
  destruct (judge rules (value field)) as [[|] message];
    cbn [fst snd showFieldValidation classList value feedback].
  - split; [|split; [|split; [|split; [|split]]]].
    + split; [reflexivity | intros _; apply In_addClass; auto].
    + split; [|discriminate]. intro Hin.
      apply In_addClass in Hin as [E|Hin]; [discriminate|].
      apply In_removeClass in Hin as [_ Hne]. congruence.
    + intros c Hv Hi. rewrite In_addClass, In_removeClass.
      split; [intros [E|[Hin _]]; [congruence | exact Hin] | auto].
    + intro Hnd. apply NoDup_addClass, NoDup_removeClass, Hnd.
    + reflexivity.
    + reflexivity.
  - split; [|split; [|split; [|split; [|split]]]].
    + split; [|discriminate]. intro Hin.
      apply In_addClass in Hin as [E|Hin]; [discriminate|].
      apply In_removeClass in Hin as [_ Hne]. congruence.
    + split; [reflexivity | intros _; apply In_addClass; auto].
    + intros c Hv Hi. rewrite In_addClass, In_removeClass.
      split; [intros [E|[Hin _]]; [congruence | exact Hin] | auto].
    + intro Hnd. apply NoDup_addClass, NoDup_removeClass, Hnd.
    + reflexivity.
    + destruct (feedback field); reflexivity.
Qed.

End FormUtilsFacts.

(** ** What the engine is asked, in order *)

Lemma effectsOf_bind {A B} (x : Action A) (f : A -> Action B) (m : SpeechManager) :
  effectsOf (bind x f) m = effectsOf x m ++ effectsOf (f (fst (fst (x m)))) (after x m).
Proof.
  unfold effectsOf, after, bind. destruct (x m) as [[a m1] fx1]. cbn.
  destruct (f a m1) as [[b m2] fx2]. reflexivity.
Qed.

Lemma cancelsBeforeSpeaking_nil : cancelsBeforeSpeaking [].
Proof. intros [|x before] u later E; discriminate E. Qed.

Lemma cancelsBeforeSpeaking_app (fx1 fx2 : list Effect) :
  cancelsBeforeSpeaking fx1 -> cancelsBeforeSpeaking fx2 ->
  cancelsBeforeSpeaking (fx1 ++ fx2).
Proof.
  intros H1 H2 before u later E.
  apply app_eq_app in E as [l [[E1 E2]|[E1 E2]]].
  - destruct l as [|x l].
    + cbn in E2. destruct (H2 [] u later (eq_sym E2)) as [[|y earlier] Hearlier]; discriminate.
    + inversion E2; subst. apply (H1 before u l). reflexivity.
  - destruct (H2 l u later E2) as [earlier Hearlier]. subst.
    exists (fx1 ++ earlier). rewrite app_assoc. reflexivity.
Qed.

Lemma cancelsBeforeSpeaking_quiet (fx : list Effect) :
  (forall u, ~ In (Engine (Speak u)) fx) -> cancelsBeforeSpeaking fx.
Proof.
  intros Hquiet before u later E. exfalso. apply (Hquiet u). rewrite E.
  apply in_elt.
Qed.

Lemma cancelsBeforeSpeaking_request (u : Utterance.t) :
  cancelsBeforeSpeaking [Engine Cancel; Ui OnSpeechEnd; Engine (Speak u)].
Proof.
  intros before v later E.
  destruct before as [|a [|b [|c before]]]; try discriminate E.
  - inversion E; subst. exists []. reflexivity.
  - inversion E as [[Ha Hb Hc Hrest]]. destruct before; discriminate Hrest.
Qed.

Section EngineCalls.
Context {H : Host}.

Lemma loadVoices_effects (e : Synth.t) (m : SpeechManager) :
  effectsOf (loadVoices e) m = [Engine GetVoices; Console Log "Loaded voices, selected:"].
Proof.
  unfold loadVoices, effectsOf, bind, emit, update, this, console.
  cbn [fst snd withVoices voices settings].
  destruct (0 <? length (filter isEnglish (Synth.getVoices e)))%nat;
    [|destruct (0 <? length (Synth.getVoices e))%nat]; reflexivity.
Qed.

Lemma speak_cancels_first (m : SpeechManager) (text : option jsstring) (options : Options.t) :
  cancelsBeforeSpeaking (effectsOf (speak text options) m).
Proof.
  unfold effectsOf. destruct (synth m) as [e|] eqn:He.
  - destruct (isEmpty (trim (prepareText text))) eqn:Hblank.
    + rewrite (speak_blank m e text options He Hblank).
      apply cancelsBeforeSpeaking_quiet. intro u. absent_from_list.
    + rewrite (speak_proceeds m e text options He Hblank).
      destruct (Synth.failing e); cbn [snd].
      * apply (cancelsBeforeSpeaking_app [_; _; _] [_]);
          [apply cancelsBeforeSpeaking_request|].
        apply cancelsBeforeSpeaking_quiet. intro u. absent_from_list.
      * apply cancelsBeforeSpeaking_request.
  - rewrite (speak_unavailable m text options He).
    apply cancelsBeforeSpeaking_quiet. intro u. absent_from_list.
Qed.

Lemma react_cancels_first (notifier : bool) (ev : Event) (m : SpeechManager) :
  cancelsBeforeSpeaking (effectsOf (react notifier ev) m).
Proof.
  destruct ev as [text options| | | |new| |catalog|r|]; cbn [react].
  - apply speak_cancels_first.
  - unfold effectsOf. rewrite stop_result. apply cancelsBeforeSpeaking_quiet.
    intro u. destruct (synth m); absent_from_list.
  - apply cancelsBeforeSpeaking_quiet. intro u.
    unfold effectsOf, pause, bind, this. destruct (synth m) as [e|]; [|absent_from_list].
    destruct (Synth.speaking e && negb (Synth.paused e)); absent_from_list.
  - apply cancelsBeforeSpeaking_quiet. intro u.
    unfold effectsOf, resume, bind, this. destruct (synth m) as [e|]; [|absent_from_list].
    destruct (Synth.paused e); absent_from_list.
  - apply cancelsBeforeSpeaking_nil.
  - apply cancelsBeforeSpeaking_quiet. intro u. rewrite effectsOf_bind.
    cbn [this fst snd effectsOf app]. fold (effectsOf (A := unit)).
    destruct (synth m) as [e|]; [|absent_from_list].
    destruct (isInitialized m); [absent_from_list|].
    rewrite effectsOf_bind, loadVoices_effects. absent_from_list.
  - apply cancelsBeforeSpeaking_quiet. intro u. rewrite effectsOf_bind.
    cbn [this fst snd effectsOf app]. fold (effectsOf (A := unit)).
    destruct (synth m) as [e|]; [|absent_from_list].
    rewrite effectsOf_bind, loadVoices_effects. absent_from_list.
  - apply cancelsBeforeSpeaking_quiet. intro u.
    destruct r; try destruct notifier; absent_from_list.
  - apply cancelsBeforeSpeaking_nil.
Qed.

(** X19. Through a whole life of the page, whatever is called and whatever the
    engine reports, every request reaches the engine right after a
    [cancel] and the speech-ended hook: requests are never queued behind
    one another. *)
Theorem every_request_follows_a_cancel (notifier : bool) (events : list Event)
    (m : SpeechManager) :
  cancelsBeforeSpeaking (effectsOf (run notifier events) m).
Proof.
  revert m. induction events as [|ev events IH]; intro m.
  - apply cancelsBeforeSpeaking_nil.
  - cbn [run]. rewrite effectsOf_bind.
    apply cancelsBeforeSpeaking_app; [apply react_cancels_first | apply IH].
Qed.

Lemma react_without_engine (notifier : bool) (ev : Event) (m : SpeechManager) :
  synth m = None ->
  synth (after (react notifier ev) m) = None /\
  currentUtterance (after (react notifier ev) m) =
    match ev with
    | CallStop | Reports OnEnd | Reports (OnError _) => None
    | _ => currentUtterance m
    end /\
  forall call, ~ In (Engine call) (effectsOf (react notifier ev) m).
Proof.
  intro He. unfold after, effectsOf.
  destruct ev as [text options| | | |new| |catalog|r|]; cbn [react].
  - rewrite (speak_unavailable m text options He). repeat split; auto. intro; absent_from_list.
  - rewrite stop_result, He. cbn. repeat split. intro; absent_from_list.
  - unfold pause, bind, this. rewrite He. cbn. repeat split; auto.
  - unfold resume, bind, this. rewrite He. cbn. repeat split; auto.
  - cbn. repeat split; auto.
  - unfold bind, this. rewrite He. cbn. repeat split; auto.
  - unfold bind, this. rewrite He. cbn. repeat split; auto.
  - destruct r; try destruct notifier; cbn; repeat split; auto; intro; absent_from_list.
  - unfold update. cbn. rewrite He. repeat split; auto.
Qed.

(** X20. On a page without speech synthesis nothing that happens makes the
    object call an engine or hold an utterance: the engine stays absent,
    no effect is an engine call, and an object without a current utterance
    never gets one. *)
Theorem without_engine_nothing_is_spoken (notifier : bool) (events : list Event)
    (m : SpeechManager) :
  synth m = None ->
  synth (after (run notifier events) m) = None /\
  (currentUtterance m = None -> currentUtterance (after (run notifier events) m) = None) /\
  (forall call, ~ In (Engine call) (effectsOf (run notifier events) m)) /\
  isSpeaking (after (run notifier events) m) = false.
Proof.
  revert m. induction events as [|ev events IH]; intros m He.
  - unfold isSpeaking. cbn. rewrite He. repeat split; auto.
  - cbn [run]. rewrite after_bind, effectsOf_bind.
    destruct (react_without_engine notifier ev m He) as (He' & Hcur & Hquiet).
    destruct (IH _ He') as (Hs & Hc & Hq & Hsp).
    split; [exact Hs|]. split; [|split; [|exact Hsp]].
    + intro Hnone. apply Hc. rewrite Hcur.
      destruct ev as [| | | | | | |[]|]; auto.
    + intros call Hin. apply in_app_or in Hin as [Hin|Hin].
      * apply (Hquiet call Hin).
      * apply (Hq call Hin).
Qed.

End EngineCalls.

(** ** Links *)

(** A global replace whose matches stay inside runs of units of one class
    scans a prefix that ends outside the class without looking at what
    follows the prefix. *)
Lemma replaceAll_prefix (m : Matcher) (p : codeUnit -> bool) :
  (forall prev a b, (spanLen p a < length a)%nat -> m prev (a ++ b) = m prev a) ->
  (forall prev s k replacement,
     m prev s = Some (S k, replacement) -> (S k <= spanLen p s)%nat) ->
  forall pre rest : jsstring,
    (spanLen p (rev pre) = 0)%nat -> pre <> [] ->
    forall prev skip, (skip <= spanLen p pre)%nat ->
      replaceAll m prev skip (pre ++ rest) =
      replaceAll m prev skip pre ++ replaceAll m (lastUnit prev pre) 0 rest.
Proof.
  intros Hlocal Hinside pre rest.
  induction pre as [|c pre IH]; intros Hlast Hne prev skip Hskip; [congruence|].
  assert (Hshort : forall s : jsstring, spanLen p (rev s) = 0%nat -> s <> [] ->
            (spanLen p s < length s)%nat).
  { clear. induction s as [|x s IHs]; intros Hl Hn; [congruence|].
    cbn. destruct (p x) eqn:Hx; [|lia].
    destruct s as [|y s].
    - cbn in Hl. rewrite Hx in Hl. discriminate.
    - apply -> Nat.succ_lt_mono. apply IHs; [|congruence].
      cbn [rev] in Hl |- *. destruct (rev s ++ [y]) as [|z t] eqn:E.
      + destruct (rev s); discriminate.
      + cbn in Hl |- *. destruct (p z); [discriminate | reflexivity]. }
  destruct pre as [|d pre].
  - assert (Hc : p c = false).
    { cbn in Hlast. destruct (p c); [discriminate | reflexivity]. }
    cbn in Hskip. rewrite Hc in Hskip. assert (skip = 0%nat) as -> by lia.
    cbn [app]. rewrite !replaceAll_at.
    assert (Hnone : forall s k replacement, m prev (c :: s) <> Some (S k, replacement)).
    { intros s k replacement E. apply Hinside in E. cbn in E. rewrite Hc in E. lia. }
    destruct (m prev (c :: rest)) as [[[|k] r]|] eqn:E1;
      destruct (m prev [c]) as [[[|k'] r']|] eqn:E2;
      try reflexivity; exfalso; eapply Hnone; eassumption.
  - assert (Hlast' : spanLen p (rev (d :: pre)) = 0%nat).
    { cbn [rev] in Hlast |- *. destruct (rev pre ++ [d]) as [|z t] eqn:E.
      - destruct (rev pre); discriminate.
      - cbn in Hlast |- *. destruct (p z); [discriminate | reflexivity]. }
    assert (Hne' : d :: pre <> []) by congruence.
    destruct skip as [|k].
    + rewrite replaceAll_at_app, replaceAll_at.
      rewrite Hlocal by (apply Hshort; assumption).
      destruct (m prev (c :: d :: pre)) as [[[|k] replacement]|] eqn:E.
      * rewrite (IH Hlast' Hne' (Some c) 0%nat) by lia. reflexivity.
      * apply Hinside in E.
        change (spanLen p (c :: d :: pre))
          with (if p c then S (spanLen p (d :: pre)) else 0%nat) in E.
        destruct (p c); [|lia].
        rewrite (IH Hlast' Hne' (Some c) k) by lia.
        rewrite app_assoc. reflexivity.
      * rewrite (IH Hlast' Hne' (Some c) 0%nat) by lia. reflexivity.
    + assert (Hk : (k <= spanLen p (d :: pre))%nat).
      { change (spanLen p (c :: d :: pre))
          with (if p c then S (spanLen p (d :: pre)) else 0%nat) in Hskip.
        destruct (p c); lia. }
      change (replaceAll m prev (S k) ((c :: d :: pre) ++ rest))
        with (replaceAll m (Some c) k ((d :: pre) ++ rest)).
      rewrite (IH Hlast' Hne' (Some c) k Hk). reflexivity.
Qed.

Lemma stripPrefix_spec (p s r : jsstring) : stripPrefix p s = Some r -> s = p ++ r.
Proof.
  revert s. induction p as [|a p IH]; intros s E; [inversion E; reflexivity|].
  destruct s as [|b s]; [discriminate|]. cbn in E.
  destruct (a =? b) eqn:Hab; [|discriminate]. apply N.eqb_eq in Hab. subst b.
  cbn. f_equal. apply IH, E.
Qed.

Lemma stripPrefix_app (p a b : jsstring) :
  Forall (fun c => notSpace c = true) p -> (spanLen notSpace a < length a)%nat ->
  stripPrefix p (a ++ b) = option_map (fun r => r ++ b) (stripPrefix p a) /\
  forall r, stripPrefix p a = Some r -> (spanLen notSpace r < length r)%nat.
Proof.
  intro Hp. revert a. induction Hp as [|x p Hx _ IH]; intros a Ha.
  - split; [reflexivity|]. intros r E. inversion E; subst. exact Ha.
  - destruct a as [|y a]; [cbn in Ha; lia|]. cbn [app stripPrefix].
    destruct (x =? y) eqn:Hxy; [|split; [reflexivity | discriminate]].
    apply N.eqb_eq in Hxy. subst y. apply IH.
    cbn in Ha. rewrite Hx in Ha. lia.
Qed.

Lemma url_local (prev : option codeUnit) (a b : jsstring) :
  (spanLen notSpace a < length a)%nat -> url prev (a ++ b) = url prev a.
Proof.
  intro Ha. unfold url.
  assert (Hhd : hd_error (a ++ b) = hd_error a) by (destruct a; [cbn in Ha; lia | reflexivity]).
  rewrite Hhd. destruct (wordBoundary prev (hd_error a)); [|reflexivity].
  assert (Htail : forall r2, (spanLen notSpace r2 < length r2)%nat ->
            match stripPrefix (js "://") (r2 ++ b) with
            | Some r =>
                match spanLen (fun c => negb (isSpace c)) r with
                | O => None
                | S n => Some (length (a ++ b) - length r + S n, js "link")%nat
                end
            | None => None
            end =
            match stripPrefix (js "://") r2 with
            | Some r =>
                match spanLen (fun c => negb (isSpace c)) r with
                | O => None
                | S n => Some (length a - length r + S n, js "link")%nat
                end
            | None => None
            end).
  { intros r2 Hr2.
    destruct (stripPrefix_app (js "://") r2 b ltac:(repeat constructor) Hr2) as [E3 Hr3].
    rewrite E3. destruct (stripPrefix (js "://") r2) as [r3|]; [|reflexivity].
    cbn [option_map]. specialize (Hr3 r3 eq_refl).
    change (fun c => negb (isSpace c)) with notSpace.
    rewrite (spanLen_app_short notSpace r3 b Hr3).
    destruct (spanLen notSpace r3); [reflexivity|].
    rewrite !length_app. f_equal. f_equal. lia. }
  destruct (stripPrefix_app (js "http") a b ltac:(repeat constructor) Ha) as [E1 Hr1].
  rewrite E1. destruct (stripPrefix (js "http") a) as [r1|]; [|reflexivity].
  cbn [option_map]. specialize (Hr1 r1 eq_refl). cbv zeta.
  destruct (stripPrefix_app (js "s") r1 b ltac:(repeat constructor) Hr1) as [E2 Hr2].
  rewrite E2. destruct (stripPrefix (js "s") r1) as [r2|]; cbn [option_map].
  - apply Htail, Hr2. reflexivity.
  - apply Htail, Hr1.
Qed.

(** A match of the link pattern covers the run of units other than
    whitespace that starts where it starts, and is replaced by [link]. *)
Lemma url_covers_the_run (prev : option codeUnit) (s : jsstring) (n : nat)
    (replacement : jsstring) :
  url prev s = Some (n, replacement) -> n = spanLen notSpace s /\ replacement = js "link".
Proof.
  unfold url. destruct (wordBoundary _ _); [|discriminate].
  destruct (stripPrefix (js "http") s) as [r1|] eqn:E1; [|discriminate].
  apply stripPrefix_spec in E1.
  set (r2 := match stripPrefix (js "s") r1 with Some r' => r' | None => r1 end).
  assert (E2 : exists scheme, s = scheme ++ r2 /\ Forall (fun c => notSpace c = true) scheme).
  { unfold r2. destruct (stripPrefix (js "s") r1) as [r'|] eqn:E.
    - apply stripPrefix_spec in E. exists (js "https"). subst. split; [reflexivity|].
      repeat constructor.
    - exists (js "http"). split; [exact E1 | repeat constructor]. }
  destruct E2 as (scheme & Hs & Hscheme).
  destruct (stripPrefix (js "://") r2) as [r3|] eqn:E3; [|discriminate].
  apply stripPrefix_spec in E3.
  change (fun c => negb (isSpace c)) with notSpace.
  destruct (spanLen notSpace r3) as [|k] eqn:Hk; [discriminate|].
  intro E. inversion E; subst n replacement. split; [|reflexivity].
  rewrite Hs, E3.
  rewrite (spanLen_all notSpace scheme _ Hscheme).
  rewrite (spanLen_all notSpace (js "://") r3 ltac:(repeat constructor)), Hk.
  rewrite !length_app. lia.
Qed.

Lemma url_matches_link (prev : option codeUnit) (address post : jsstring) :
  isLink address -> isWordAt prev = false -> isBreakAt (hd_error post) = true ->
  url prev (address ++ post) = Some (length address, js "link").
Proof.
  intros (rest & Haddress & Hrest & Hall) Hprev Hpost.
  assert (Hrun : forall body, Forall (fun c => notSpace c = true) body ->
            spanLen (fun c => negb (isSpace c)) (body ++ post) = length body).
  { intros body Hbody. change (fun c => negb (isSpace c)) with notSpace.
    rewrite (spanLen_all notSpace body post Hbody).
    destruct post as [|d post]; cbn; [lia|].
    cbn in Hpost. unfold notSpace. rewrite Hpost. cbn. lia. }
  assert (Hbody : Forall (fun c => notSpace c = true) rest).
  { destruct Haddress as [->| ->]; apply Forall_app in Hall; tauto. }
  destruct Haddress as [->| ->]; rewrite <- app_assoc; unfold url, wordBoundary; rewrite Hprev;
    cbn -[spanLen length Nat.sub Nat.add];
    rewrite (Hrun rest Hbody);
    (destruct rest as [|c rest]; [congruence|]);
    cbn [length]; rewrite !length_app; cbn [length];
    f_equal; f_equal; lia.
Qed.

Lemma isSpace_not_word (c : codeUnit) : isSpace c = true -> isWord c = false.
Proof.
  intro Hc. destruct (isWord c) eqn:Hw; [|reflexivity].
  unfold isWord, isDigit in Hw. unfold isSpace in Hc.
  repeat (apply orb_prop in Hc as [Hc|Hc]);
    try (apply N.eqb_eq in Hc; subst c; discriminate Hw).
  apply andb_prop in Hc as [Hlo Hhi]. apply N.leb_le in Hlo, Hhi.
  repeat (apply orb_prop in Hw as [Hw|Hw]);
    try (apply andb_prop in Hw as [Hl Hh]; apply N.leb_le in Hl, Hh; lia).
  apply N.eqb_eq in Hw. lia.
Qed.

Lemma break_is_not_word (c : option codeUnit) : isBreakAt c = true -> isWordAt c = false.
Proof. destruct c as [c|]; [apply isSpace_not_word | reflexivity]. Qed.

Lemma replace_url_at_link (pre address post : jsstring) :
  isLink address ->
  isBreakAt (lastUnit None pre) = true -> isBreakAt (hd_error post) = true ->
  replace url (pre ++ address ++ post) =
    replace url pre ++ js "link" ++ replaceAll url (lastUnit None (pre ++ address)) 0 post.
Proof.
  intros Hlink Hpre Hpost. unfold replace.
  assert (Hne : exists c rest, address = c :: rest).
  { destruct Hlink as (rest & [->| ->] & _); cbn; eauto. }
  destruct Hne as (c & rest & Haddress).
  assert (Hafter : forall prev, isWordAt prev = false ->
            replaceAll url prev 0 (address ++ post) =
            js "link" ++ replaceAll url (lastUnit None address) 0 post).
  { intros prev Hprev. pose proof (url_matches_link prev address post Hlink Hprev Hpost) as E.
    rewrite Haddress in *. rewrite replaceAll_at_app, E. cbn [length].
    rewrite replaceAll_skip. reflexivity. }
  assert (Hlast : lastUnit None (pre ++ address) = lastUnit None address).
  { rewrite lastUnit_app, Haddress. reflexivity. }
  rewrite Hlast. destruct pre as [|d pre].
  - cbn [app replaceAll]. apply Hafter. reflexivity.
  - assert (Hend : spanLen notSpace (rev (d :: pre)) = 0%nat).
    { clear - Hpre. revert d Hpre. induction pre as [|x pre IH]; intros d Hpre.
      - cbn in Hpre |- *. unfold notSpace. rewrite Hpre. reflexivity.
      - specialize (IH x Hpre). cbn [rev] in IH |- *.
        destruct (rev pre ++ [x]) as [|z t] eqn:E; [destruct (rev pre); discriminate|].
        cbn in IH |- *. destruct (notSpace z); [discriminate | reflexivity]. }
    rewrite (replaceAll_prefix url notSpace url_local) with (skip := 0%nat);
      [| | exact Hend | congruence | lia].
    + f_equal. apply Hafter, break_is_not_word, Hpre.
    + intros prev s k replacement E. apply url_covers_the_run in E as [E _]. lia.
Qed.

(** X16. Every link that starts the text or follows whitespace, and runs to the
    end of the text or to whitespace, is replaced by the word [link],
    wherever it stands; the text before it and the text after it are
    scanned as if the link were not there. *)
Theorem link_is_replaced (pre address post : jsstring) :
  isLink address ->
  isBreakAt (lastUnit None pre) = true -> isBreakAt (hd_error post) = true ->
  replace url (pre ++ address ++ post) =
    replace url pre ++ js "link" ++ replaceAll url (lastUnit None (pre ++ address)) 0 post.
Proof. apply replace_url_at_link. Qed.

Lemma spaceless_suffix_head (s a b : jsstring) :
  Forall (fun c => notSpace c = true) s -> s = a ++ b -> b <> [] ->
  exists d b', b = d :: b' /\ isSpace d = false.
Proof.
  intros Hs -> Hb. destruct b as [|d b']; [congruence|].
  apply Forall_app in Hs as [_ Hs]. inversion Hs as [|? ? Hd _]; subst.
  exists d, b'. split; [reflexivity | apply negb_true_iff, Hd].
Qed.

Lemma duplicatePunctuation_keeps_units (s : jsstring) :
  forall prev skip c,
    In c (replaceAll duplicatePunctuation prev skip s) -> In c s.
Proof.
  induction s as [|x s IH]; intros prev skip c Hin; [exact Hin|].
  destruct skip as [|k].
  - rewrite replaceAll_at in Hin.
    assert (Hcopy : In c (x :: replaceAll duplicatePunctuation (Some x) 0 s) -> In c (x :: s)).
    { intros [E|E]; [left; exact E | right; apply (IH _ _ _ E)]. }
    destruct (duplicatePunctuation prev (x :: s)) as [[[|k] replacement]|] eqn:E; auto.
    unfold duplicatePunctuation in E. destruct (isSentenceMark x); [|discriminate].
    destruct (spanLen isSentenceMark _); [discriminate|].
    inversion E; subst. destruct Hin as [E'|Hin]; [left; exact E' | right; apply (IH _ _ _ Hin)].
  - right. apply (IH _ _ _ Hin).
Qed.

Lemma duplicatePunctuation_leaves_something (prev : option codeUnit) (c : codeUnit)
    (s : jsstring) :
  replaceAll duplicatePunctuation prev 0 (c :: s) <> [].
Proof.
  rewrite replaceAll_at.
  destruct (duplicatePunctuation prev (c :: s)) as [[[|k] replacement]|] eqn:E; try discriminate.
  unfold duplicatePunctuation in E. destruct (isSentenceMark c); [|discriminate].
  destruct (spanLen isSentenceMark _); [discriminate|]. inversion E; subst. discriminate.
Qed.

Lemma duplicatePunctuation_passes (scheme body : jsstring) :
  Forall (fun c => isSentenceMark c = false) scheme ->
  forall prev,
    replaceAll duplicatePunctuation prev 0 (scheme ++ body) =
    scheme ++ replaceAll duplicatePunctuation (lastUnit prev scheme) 0 body.
Proof.
  induction 1 as [|x scheme Hx _ IH]; intro prev; [reflexivity|].
  rewrite replaceAll_at_app. unfold duplicatePunctuation at 1. cbn [app]. rewrite Hx.
  cbn [app lastUnit]. f_equal. apply IH.
Qed.

(** Collapsing doubled punctuation turns a link into a link. *)
Lemma duplicatePunctuation_keeps_links (address : jsstring) :
  isLink address -> isLink (replace duplicatePunctuation address).
Proof.
  intros (rest & Haddress & Hrest & Hall). unfold replace.
  assert (Hbody : Forall (fun c => notSpace c = true) rest).
  { destruct Haddress as [->| ->]; apply Forall_app in Hall; tauto. }
  destruct rest as [|c rest]; [congruence|].
  exists (replaceAll duplicatePunctuation (Some 0x2F) 0 (c :: rest)).
  assert (Hout : Forall (fun c => notSpace c = true)
            (replaceAll duplicatePunctuation (Some 0x2F) 0 (c :: rest))).
  { apply Forall_forall. intros x Hx. apply duplicatePunctuation_keeps_units in Hx.
    rewrite Forall_forall in Hbody. apply Hbody, Hx. }
  split; [|split; [apply duplicatePunctuation_leaves_something|]].
  - destruct Haddress as [->| ->]; [left | right];
      rewrite duplicatePunctuation_passes by (repeat constructor); reflexivity.
  - destruct Haddress as [->| ->];
      rewrite duplicatePunctuation_passes by (repeat constructor);
      (apply Forall_app; split; [repeat constructor | exact Hout]).
Qed.

(** X17. A text that is nothing but a link, however long, is read as the one
    word [link]. *)
Theorem lone_link_is_read_as_link (H : Host) (address : jsstring) :
  isLink address -> textContent address = address ->
  prepareText (Some address) = js "link".
Proof.
  intros Hlink Htext.
  assert (Hne : exists c rest, address = c :: rest).
  { destruct Hlink as (rest & [->| ->] & _); cbn; eauto. }
  destruct Hne as (c & rest & Haddress).
  assert (Hclean : cleanUp address = js "link").
  { unfold cleanUp.
    assert (Hw : replace whitespaceRun address = address).
    { destruct Hlink as (body & _ & _ & Hall).
      apply replaceAll_no_match. intros prev a b E Hb.
      destruct (spaceless_suffix_head address a b Hall E Hb) as (d & b' & -> & Hd).
      unfold whitespaceRun. cbn. rewrite Hd. reflexivity. }
    rewrite newline_replacement_never_fires, Hw.
    pose proof (duplicatePunctuation_keeps_links address Hlink) as Hlink'.
    pose proof (replace_url_at_link [] _ [] Hlink' eq_refl eq_refl) as E.
    cbn [app] in E. rewrite app_nil_r in E. rewrite E. reflexivity. }
  rewrite Haddress in *. rewrite prepareText_nonempty. unfold cleaned.
  rewrite Htext. cbn [orElse isEmpty]. rewrite Hclean. reflexivity.
Qed.

(** ** Doubled punctuation *)

Lemma spanLen_skip_le (s : jsstring) :
  (spanLen isSpace s + spanLen isSentenceMark (skipn (spanLen isSpace s) s)
   <= spanLen isPause s)%nat.
Proof.
  induction s as [|c s IH]; [cbn; lia|].
  unfold isPause in *. cbn [spanLen]. destruct (isSpace c) eqn:Hc.
  - cbn [orb skipn]. lia.
  - cbn [skipn orb].
    assert (Hmono : forall t, (spanLen isSentenceMark t <=
              spanLen (fun c => isSpace c || isSentenceMark c) t)%nat).
    { clear. induction t as [|x t IHt]; cbn; [lia|].
      destruct (isSentenceMark x); [rewrite orb_true_r; lia | lia]. }
    specialize (Hmono (c :: s)). cbn [spanLen] in Hmono |- *. rewrite Hc in Hmono.
    cbn [orb] in Hmono. exact Hmono.
Qed.

Lemma duplicatePunctuation_inside (prev : option codeUnit) (s : jsstring) (k : nat)
    (replacement : jsstring) :
  duplicatePunctuation prev s = Some (S k, replacement) -> (S k <= spanLen isPause s)%nat.
Proof.
  unfold duplicatePunctuation. destruct s as [|c s]; [discriminate|].
  destruct (isSentenceMark c) eqn:Hc; [|discriminate].
  destruct (spanLen isSentenceMark _) as [|marks] eqn:Hmarks; [discriminate|].
  intro E. inversion E; subst.
  pose proof (spanLen_skip_le s) as Hle. rewrite Hmarks in Hle.
  cbn [spanLen]. unfold isPause at 1. rewrite Hc, orb_true_r. lia.
Qed.

Lemma spanLen_isSpace_le (s : jsstring) : (spanLen isSpace s <= spanLen isPause s)%nat.
Proof. pose proof (spanLen_skip_le s). lia. Qed.

Lemma duplicatePunctuation_local (prev : option codeUnit) (a b : jsstring) :
  (spanLen isPause a < length a)%nat ->
  duplicatePunctuation prev (a ++ b) = duplicatePunctuation prev a.
Proof.
  intro Ha. unfold duplicatePunctuation.
  destruct a as [|c a]; [cbn in Ha; lia|]. cbn [app].
  destruct (isSentenceMark c) eqn:Hc; [|reflexivity].
  assert (Ha' : (spanLen isPause a < length a)%nat).
  { cbn [spanLen length] in Ha. unfold isPause at 1 in Ha. rewrite Hc, orb_true_r in Ha. lia. }
  pose proof (spanLen_skip_le a) as Hle.
  rewrite (spanLen_app_short isSpace a b) by lia.
  rewrite skipn_app.
  replace (spanLen isSpace a - length a)%nat with 0%nat by lia. cbn [skipn].
  rewrite (spanLen_app_short isSentenceMark) by (rewrite length_skipn; lia).
  reflexivity.
Qed.

Lemma duplicatePunctuation_matches (prev : option codeUnit) (c : codeUnit)
    (blanks marks post : jsstring) :
  isSentenceMark c = true ->
  Forall (fun c => isSpace c = true) blanks ->
  Forall (fun c => isSentenceMark c = true) marks -> marks <> [] ->
  isMarkAt (hd_error post) = false ->
  duplicatePunctuation prev (c :: blanks ++ marks ++ post) =
    Some (S (length (blanks ++ marks)), [c]).
Proof.
  intros Hc Hblanks Hmarks Hne Hpost. unfold duplicatePunctuation. rewrite Hc.
  destruct marks as [|x marks]; [congruence|].
  assert (Hx : isSpace x = false).
  { inversion Hmarks; subst. apply isSentenceMark_not_space. assumption. }
  assert (Hb : spanLen isSpace (blanks ++ (x :: marks) ++ post) = length blanks).
  { rewrite (spanLen_all isSpace blanks _ Hblanks). cbn. rewrite Hx. lia. }
  rewrite Hb, skipn_app, skipn_all, Nat.sub_diag. cbn [app skipn].
  assert (Hm : spanLen isSentenceMark (x :: marks ++ post) = length (x :: marks)).
  { change (x :: marks ++ post) with ((x :: marks) ++ post).
    rewrite (spanLen_all isSentenceMark _ post Hmarks).
    destruct post as [|d post]; cbn; [lia|]. cbn in Hpost. rewrite Hpost. lia. }
  rewrite Hm. cbn [length]. rewrite length_app. cbn [length]. reflexivity.
Qed.

(** X18. A sentence mark followed by blanks, if any, and by further marks
    keeps the first mark only, wherever the group stands between a unit and
    a unit that are neither whitespace nor marks (or the ends of the
    text); the text before and after the group is scanned as if the group
    were not there. *)
Theorem doubled_punctuation_keeps_first_mark (pre : jsstring) (c : codeUnit)
    (blanks marks post : jsstring) :
  isSentenceMark c = true ->
  Forall (fun c => isSpace c = true) blanks ->
  Forall (fun c => isSentenceMark c = true) marks -> marks <> [] ->
  isPauseAt (lastUnit None pre) = false -> isMarkAt (hd_error post) = false ->
  replace duplicatePunctuation (pre ++ c :: blanks ++ marks ++ post) =
    replace duplicatePunctuation pre ++ [c] ++
    replaceAll duplicatePunctuation (lastUnit None (pre ++ c :: blanks ++ marks)) 0 post.
Proof.
  intros Hc Hblanks Hmarks Hne Hpre Hpost. unfold replace.
  assert (Hafter : forall prev,
            replaceAll duplicatePunctuation prev 0 (c :: blanks ++ marks ++ post) =
            [c] ++ replaceAll duplicatePunctuation (lastUnit (Some c) (blanks ++ marks)) 0 post).
  { intro prev. rewrite replaceAll_at.
    rewrite (duplicatePunctuation_matches prev c blanks marks post Hc Hblanks Hmarks Hne Hpost).
    rewrite app_assoc, replaceAll_skip. reflexivity. }
  assert (Hlast : lastUnit None (pre ++ c :: blanks ++ marks) =
                  lastUnit (Some c) (blanks ++ marks)).
  { rewrite lastUnit_app. reflexivity. }
  rewrite Hlast. destruct pre as [|d pre].
  - cbn [app replaceAll]. apply Hafter.
  - assert (Hend : spanLen isPause (rev (d :: pre)) = 0%nat).
    { clear - Hpre. revert d Hpre. induction pre as [|x pre IH]; intros d Hpre.
      - cbn in Hpre |- *. rewrite Hpre. reflexivity.
      - specialize (IH x Hpre). cbn [rev] in IH |- *.
        destruct (rev pre ++ [x]) as [|z t] eqn:E; [destruct (rev pre); discriminate|].
        cbn in IH |- *. destruct (isPause z); [discriminate | reflexivity]. }
    rewrite (replaceAll_prefix duplicatePunctuation isPause duplicatePunctuation_local
               duplicatePunctuation_inside (d :: pre) _ Hend) with (skip := 0%nat);
      [| congruence | lia].
    f_equal. apply Hafter.
Qed.

(** ** The listeners of [init] *)

Section InitListeners.
Context {H : Host}.

Lemma action_result (x : Action unit) (m : SpeechManager) :
  x m = (tt, after x m, effectsOf x m).
Proof. unfold after, effectsOf. destruct (x m) as [[[] m'] fx]. reflexivity. Qed.

(** X11. The first click on a page with an engine reads the engine's voices
    once more and marks the object initialized, leaving the engine and the
    utterance being spoken alone; every click after it does nothing. *)
Theorem first_click_loads_voices_once (notifier : bool) (m : SpeechManager) (e : Synth.t) :
  synth m = Some e -> isInitialized m = false ->
  let clicked := after (react notifier FirstClick) m in
  effectsOf (react notifier FirstClick) m =
    [Engine GetVoices; Console Log "Loaded voices, selected:"] /\
  isInitialized clicked = true /\
  voices clicked = Synth.getVoices e /\
  Settings.voice (settings clicked) =
    preferredVoice (Synth.getVoices e) (Settings.voice (settings m)) /\
  synth clicked = synth m /\ currentUtterance clicked = currentUtterance m /\
  react notifier FirstClick clicked = (tt, clicked, []).
Proof.
  intros He Hinit clicked.
  assert (Hrun : react notifier FirstClick m =
                 (tt, withIsInitialized true (after (loadVoices e) m),
                  [Engine GetVoices; Console Log "Loaded voices, selected:"])).
  { cbn [react]. unfold bind at 1, this. cbn [fst snd]. rewrite He, Hinit.
    unfold bind, update. rewrite (action_result (loadVoices e) m), loadVoices_effects.
    cbn [fst snd app]. reflexivity. }
  assert (Hclicked : clicked = withIsInitialized true (after (loadVoices e) m)).
  { unfold clicked, after at 1. rewrite Hrun. reflexivity. }
  destruct (loadVoices_selects e m) as [Hvoice Hvoices].
  destruct (loadVoices_frame e m) as (Hsynth & Hcurrent & _).
  split; [unfold effectsOf; rewrite Hrun; reflexivity|].
  rewrite Hclicked. cbn [withIsInitialized isInitialized voices settings synth currentUtterance].
  repeat split; try assumption.
  cbn [react]. unfold bind, this. cbn [fst snd withIsInitialized synth isInitialized].
  rewrite Hsynth, He. reflexivity.
Qed.

(** X12. When the engine announces a change of its voices, the object takes the
    new list and selects from it by the policy of [loadVoices]; rate, pitch
    and volume, the queue of the engine and the current utterance stay as
    they are.  When the new list is empty, the voice selected before stays
    selected although the object no longer lists it. *)
Theorem voices_changed_reselects (notifier : bool) (m : SpeechManager) (e : Synth.t)
    (catalog : list VoiceHandle) :
  synth m = Some e ->
  let changed := after (react notifier (VoicesChanged catalog)) m in
  voices changed = catalog /\
  Settings.voice (settings changed) = preferredVoice catalog (Settings.voice (settings m)) /\
  (catalog = [] -> Settings.voice (settings changed) = Settings.voice (settings m)) /\
  Settings.rate (settings changed) = Settings.rate (settings m) /\
  Settings.pitch (settings changed) = Settings.pitch (settings m) /\
  Settings.volume (settings changed) = Settings.volume (settings m) /\
  heldBy changed = heldBy m /\ isPaused changed = isPaused m /\
  currentUtterance changed = currentUtterance m.
Proof.
  intros He changed.
  assert (Hchanged : changed =
            after (loadVoices (Synth.withCatalog catalog e))
                  (withSynth (Some (Synth.withCatalog catalog e)) m)).
  { unfold changed, after at 1. cbn [react]. unfold bind at 1, this. cbn [fst snd].
    rewrite He. unfold bind, update.
    rewrite (action_result (loadVoices _) _). reflexivity. }
  rewrite Hchanged, loadVoices_state.
  cbn [withSettings withVoices withSynth settings voices synth currentUtterance setVoice
       Settings.rate Settings.pitch Settings.volume Settings.voice
       Synth.getVoices Synth.withCatalog Synth.catalog].
  unfold heldBy, isPaused. cbn [synth Synth.queue Synth.paused]. rewrite He.
  repeat split. intros ->. reflexivity.
Qed.

End InitListeners.

(** ** The speech buttons *)

Module ButtonsFacts.
Import Buttons.

Lemma nth_error_alter (f : list string -> list string) (i : nat) (doc : Document) (k : nat) :
  nth_error (alter f i doc) k =
    if Nat.eqb k i then option_map (withClasses f) (nth_error doc k) else nth_error doc k.
Proof.
  revert i k. induction doc as [|n rest IH]; intros i k.
  - cbn. destruct k; destruct (Nat.eqb _ _); reflexivity.
  - destruct i, k; cbn; try reflexivity. apply IH.
Qed.

Lemma length_alter (f : list string -> list string) (i : nat) (doc : Document) :
  length (alter f i doc) = length doc.
Proof.
  revert i. induction doc as [|n rest IH]; intro i; [reflexivity|].
  destruct i; cbn; [reflexivity | rewrite IH; reflexivity].
Qed.

Lemma iconOf_alter (f : list string -> list string) (i : nat) (doc : Document) (k : nat) :
  iconOf (alter f i doc) k = iconOf doc k.
Proof.
  unfold iconOf. rewrite nth_error_alter.
  destruct (Nat.eqb k i); [|reflexivity]. destruct (nth_error doc k); reflexivity.
Qed.

Lemma classesAt_alter (f : list string -> list string) (i : nat) (doc : Document) (k : nat) :
  classesAt (alter f i doc) k =
    if Nat.eqb k i then option_map f (classesAt doc k) else classesAt doc k.
Proof.
  unfold classesAt. rewrite nth_error_alter.
  destruct (Nat.eqb k i); [|reflexivity]. destruct (nth_error doc k); reflexivity.
Qed.

Lemma alter_same (i : nat) (doc : Document) : alter (fun c => c) i doc = doc.
Proof.
  revert i. induction doc as [|n rest IH]; intro i; [reflexivity|].
  destruct i; cbn; [destruct n; reflexivity | rewrite IH; reflexivity].
Qed.

Lemma length_setIcon (c : list string) (btn : nat) (doc : Document) :
  length (setIcon c btn doc) = length doc.
Proof. unfold setIcon. destruct (iconOf doc btn); [apply length_alter | reflexivity]. Qed.

Lemma iconOf_setIcon (c : list string) (btn : nat) (doc : Document) (k : nat) :
  iconOf (setIcon c btn doc) k = iconOf doc k.
Proof. unfold setIcon. destruct (iconOf doc btn); [apply iconOf_alter | reflexivity]. Qed.

Lemma length_visit (c : list string) (mark : list string -> list string) (doc : Document)
    (btn : nat) :
  length (visit c mark doc btn) = length doc.
Proof. unfold visit. rewrite length_alter. apply length_setIcon. Qed.

Lemma iconOf_visit (c : list string) (mark : list string -> list string) (doc : Document)
    (btn k : nat) :
  iconOf (visit c mark doc btn) k = iconOf doc k.
Proof. unfold visit. rewrite iconOf_alter. apply iconOf_setIcon. Qed.

Lemma inDocumentOrder_visit (c : list string) (mark : list string -> list string)
    (doc : Document) (btn : nat) :
  inDocumentOrder doc -> inDocumentOrder (visit c mark doc btn).
Proof.
  intros Hord b icon. rewrite iconOf_visit, length_visit. apply Hord.
Qed.

Lemma classesAt_visit_other (c : list string) (mark : list string -> list string)
    (doc : Document) (btn k : nat) :
  k <> btn -> iconOf doc btn <> Some k ->
  classesAt (visit c mark doc btn) k = classesAt doc k.
Proof.
  intros Hk Hicon. unfold visit. rewrite classesAt_alter.
  destruct (Nat.eqb_spec k btn) as [E|_]; [contradiction|].
  unfold setIcon. destruct (iconOf doc btn) as [j|]; [|reflexivity].
  rewrite classesAt_alter. destruct (Nat.eqb_spec k j) as [E|_]; [|reflexivity].
  subst. congruence.
Qed.

Lemma classesAt_visit_icon (c : list string) (mark : list string -> list string)
    (doc : Document) (btn k : nat) :
  k <> btn -> iconOf doc btn = Some k ->
  classesAt (visit c mark doc btn) k = option_map (fun _ => c) (classesAt doc k).
Proof.
  intros Hk Hicon. unfold visit. rewrite classesAt_alter.
  destruct (Nat.eqb_spec k btn) as [E|_]; [contradiction|].
  unfold setIcon. rewrite Hicon, classesAt_alter, Nat.eqb_refl. reflexivity.
Qed.

Lemma classesAt_visit_self (c : list string) (mark : list string -> list string)
    (doc : Document) (btn : nat) :
  inDocumentOrder doc ->
  classesAt (visit c mark doc btn) btn = option_map mark (classesAt doc btn).
Proof.
  intro Hord. unfold visit. rewrite classesAt_alter, Nat.eqb_refl. f_equal.
  unfold setIcon. destruct (iconOf doc btn) as [j|] eqn:Hicon; [|reflexivity].
  rewrite classesAt_alter. destruct (Nat.eqb_spec btn j) as [E|_]; [|reflexivity].
  apply Hord in Hicon. lia.
Qed.

Lemma classesAt_in_range (doc : Document) (k : nat) :
  (k < length doc)%nat -> exists l, classesAt doc k = Some l.
Proof.
  intro Hk. unfold classesAt. destruct (nth_error doc k) as [n|] eqn:E.
  - exists (classes n). reflexivity.
  - apply nth_error_None in E. lia.
Qed.

(** *** The selection *)

Lemma selectFrom_places (selector : list string) (doc : Document) (i k : nat) :
  In k (selectFrom selector i doc) <->
  (i <= k)%nat /\ selects selector doc (k - i) = true.
Proof.
  revert i. induction doc as [|n rest IH]; intro i.
  - unfold selects. cbn. destruct (k - i)%nat; cbn; split; [tauto | intros [_ E]; discriminate
                                                         | tauto | intros [_ E]; discriminate].
  - assert (Hrest : In k (selectFrom selector (S i) rest) <->
                    (i < k)%nat /\ selects selector (n :: rest) (k - i) = true).
    { rewrite IH. unfold selects. split; intros [Hle Hsel]; (split; [lia|]).
      - replace (k - i)%nat with (S (k - S i)) by lia. exact Hsel.
      - replace (k - i)%nat with (S (k - S i)) in Hsel by lia. exact Hsel. }
    cbn [selectFrom]. destruct (matchesAny selector n) eqn:Hn.
    + cbn [In]. rewrite Hrest. split.
      * intros [E|[Hlt Hsel]]; [subst; split; [lia|] | split; [lia | exact Hsel]].
        rewrite Nat.sub_diag. exact Hn.
      * intros [Hle Hsel]. destruct (Nat.eq_dec i k) as [E|Hne]; [left; exact E|].
        right. split; [lia | exact Hsel].
    + rewrite Hrest. split; [intros [Hlt Hsel]; split; [lia | exact Hsel]|].
      intros [Hle Hsel]. split; [|exact Hsel].
      destruct (Nat.eq_dec i k) as [E|Hne]; [|lia].
      subst. rewrite Nat.sub_diag in Hsel. unfold selects in Hsel. cbn in Hsel. congruence.
Qed.

Lemma selectFrom_sorted (selector : list string) (doc : Document) (i : nat) :
  StronglySorted lt (selectFrom selector i doc).
Proof.
  revert i. induction doc as [|n rest IH]; intro i; [constructor|].
  cbn [selectFrom]. destruct (matchesAny selector n); [|apply IH].
  constructor; [apply IH|]. apply Forall_forall. intros k Hk.
  apply selectFrom_places in Hk. lia.
Qed.

Lemma querySelectorAll_places (selector : list string) (doc : Document) (k : nat) :
  In k (querySelectorAll selector doc) <-> selects selector doc k = true.
Proof.
  unfold querySelectorAll. rewrite selectFrom_places, Nat.sub_0_r.
  split; [tauto | split; [lia | assumption]].
Qed.

Lemma querySelectorAll_member (selector : list string) (doc : Document) (k : nat) :
  existsb (Nat.eqb k) (querySelectorAll selector doc) = selects selector doc k.
Proof.
  destruct (selects selector doc k) eqn:Hsel.
  - apply existsb_exists. exists k. split; [|apply Nat.eqb_refl].
    apply querySelectorAll_places. exact Hsel.
  - destruct (existsb _ _) eqn:E; [|reflexivity].
    apply existsb_exists in E as (x & Hin & Hx). apply Nat.eqb_eq in Hx. subst x.
    apply querySelectorAll_places in Hin. congruence.
Qed.

Lemma selects_in_range (selector : list string) (doc : Document) (k : nat) :
  selects selector doc k = true -> (k < length doc)%nat.
Proof.
  unfold selects. destruct (nth_error doc k) eqn:E; [|discriminate].
  intros _. apply nth_error_Some. congruence.
Qed.

(** *** A hook's loop *)

Section Loop.
Variables (c : list string) (mark : list string -> list string).

Lemma loop_length (sel : list nat) (doc : Document) :
  length (fold_left (visit c mark) sel doc) = length doc.
Proof.
  revert doc. induction sel as [|a rest IH]; intro doc; [reflexivity|].
  cbn [fold_left]. rewrite IH. apply length_visit.
Qed.

Lemma loop_iconOf (sel : list nat) (doc : Document) (k : nat) :
  iconOf (fold_left (visit c mark) sel doc) k = iconOf doc k.
Proof.
  revert doc. induction sel as [|a rest IH]; intro doc; [reflexivity|].
  cbn [fold_left]. rewrite IH. apply iconOf_visit.
Qed.

Lemma loop_rest (sel : list nat) (doc : Document) (k : nat) :
  ~ In k sel -> (forall btn, In btn sel -> iconOf doc btn <> Some k) ->
  classesAt (fold_left (visit c mark) sel doc) k = classesAt doc k.
Proof.
  revert doc. induction sel as [|a rest IH]; intros doc Hk Hicon; [reflexivity|].
  cbn [fold_left]. rewrite IH.
  - apply classesAt_visit_other; [intro E; apply Hk; left; auto | apply Hicon; left; auto].
  - intro Hin. apply Hk. right. exact Hin.
  - intros btn Hin. rewrite iconOf_visit. apply Hicon. right. exact Hin.
Qed.

Lemma loop_below (sel : list nat) (doc : Document) (a : nat) :
  inDocumentOrder doc -> Forall (lt a) sel ->
  classesAt (fold_left (visit c mark) sel doc) a = classesAt doc a.
Proof.
  intros Hord Hsel. rewrite Forall_forall in Hsel. apply loop_rest.
  - intro Hin. apply Hsel in Hin. lia.
  - intros btn Hin Hicon. apply Hsel in Hin. apply Hord in Hicon. lia.
Qed.

Lemma loop_selected (sel : list nat) (doc : Document) (btn : nat) :
  inDocumentOrder doc -> StronglySorted lt sel -> In btn sel -> (btn < length doc)%nat ->
  exists l, classesAt (fold_left (visit c mark) sel doc) btn = Some (mark l).
Proof.
  revert doc. induction sel as [|a rest IH]; intros doc Hord Hsorted Hin Hlen; [destruct Hin|].
  apply StronglySorted_inv in Hsorted as [Hrest Hlt]. cbn [fold_left].
  pose proof (inDocumentOrder_visit c mark doc a Hord) as Hord'.
  destruct (Nat.eq_dec a btn) as [E|Hne].
  - subst a. destruct (classesAt_in_range doc btn Hlen) as [l Hl]. exists l.
    rewrite (loop_below rest _ btn Hord' Hlt), classesAt_visit_self, Hl by exact Hord.
    reflexivity.
  - apply IH; [exact Hord' | exact Hrest | destruct Hin; [contradiction | assumption] |].
    rewrite length_visit. exact Hlen.
Qed.

Lemma loop_icon_kept (sel : list nat) (doc : Document) (icon : nat) :
  inDocumentOrder doc -> StronglySorted lt sel -> classesAt doc icon = Some c ->
  classesAt (fold_left (visit c mark) sel doc) icon =
    Some (if existsb (Nat.eqb icon) sel then mark c else c).
Proof.
  revert doc. induction sel as [|a rest IH]; intros doc Hord Hsorted Hc; [exact Hc|].
  apply StronglySorted_inv in Hsorted as [Hrest Hlt]. cbn [fold_left existsb].
  pose proof (inDocumentOrder_visit c mark doc a Hord) as Hord'.
  destruct (Nat.eqb_spec icon a) as [E|Hne].
  - subst a. cbn [orb].
    rewrite (loop_below rest _ icon Hord' Hlt), classesAt_visit_self, Hc by exact Hord.
    reflexivity.
  - cbn [orb]. apply IH; [exact Hord' | exact Hrest |].
    destruct (iconOf doc a) as [j|] eqn:Hicon.
    + destruct (Nat.eq_dec j icon) as [E|Hj].
      * subst j. rewrite classesAt_visit_icon, Hc by assumption. reflexivity.
      * rewrite classesAt_visit_other; [exact Hc | exact Hne | congruence].
    + rewrite classesAt_visit_other; [exact Hc | exact Hne | congruence].
Qed.

Lemma loop_icon (sel : list nat) (doc : Document) (btn icon : nat) :
  inDocumentOrder doc -> StronglySorted lt sel -> In btn sel -> iconOf doc btn = Some icon ->
  classesAt (fold_left (visit c mark) sel doc) icon =
    Some (if existsb (Nat.eqb icon) sel then mark c else c).
Proof.
  revert doc. induction sel as [|a rest IH]; intros doc Hord Hsorted Hin Hicon; [destruct Hin|].
  apply StronglySorted_inv in Hsorted as [Hrest Hlt]. cbn [fold_left existsb].
  pose proof (inDocumentOrder_visit c mark doc a Hord) as Hord'.
  pose proof (Hord _ _ Hicon) as Hrange.
  assert (Hne : icon <> a).
  { destruct Hin as [E|Hin]; [subst; lia|].
    rewrite Forall_forall in Hlt. apply Hlt in Hin. lia. }
  destruct (Nat.eqb_spec icon a) as [E|_]; [contradiction|]. cbn [orb].
  destruct (Nat.eq_dec a btn) as [E|Hbtn].
  - subst a. apply loop_icon_kept; [exact Hord' | exact Hrest |].
    rewrite classesAt_visit_icon by assumption.
    destruct (classesAt_in_range doc icon) as [l Hl]; [lia|]. rewrite Hl. reflexivity.
  - apply (IH _ Hord' Hrest); [destruct Hin; [contradiction | assumption]|].
    rewrite iconOf_visit. exact Hicon.
Qed.

End Loop.

Lemma setIcon_visit (c : list string) (doc : Document) (btn : nat) :
  setIcon c btn doc = visit c (fun l => l) doc btn.
Proof. unfold visit. rewrite alter_same. reflexivity. Qed.

Lemma fold_left_same {A B : Type} (f g : A -> B -> A) (l : list B) (a : A) :
  (forall a b, f a b = g a b) -> fold_left f l a = fold_left g l a.
Proof.
  intro Hfg. revert a. induction l as [|b l IH]; intro a; [reflexivity|].
  cbn. rewrite Hfg. apply IH.
Qed.

Lemma icons_rest (c : list string) (sel : list nat) (doc : Document) (k : nat) :
  (forall btn, In btn sel -> iconOf doc btn <> Some k) ->
  classesAt (fold_left (visit c (fun l => l)) sel doc) k = classesAt doc k.
Proof.
  revert doc. induction sel as [|a rest IH]; intros doc Hfree; [reflexivity|].
  cbn [fold_left]. rewrite IH.
  - rewrite <- setIcon_visit. unfold setIcon.
    destruct (iconOf doc a) as [j|] eqn:Hicon; [|reflexivity].
    rewrite classesAt_alter. destruct (Nat.eqb_spec k j) as [E|_]; [|reflexivity].
    subst j. exfalso. apply (Hfree a); [left; reflexivity | exact Hicon].
  - intros btn Hin. rewrite iconOf_visit. apply Hfree. right. exact Hin.
Qed.

(** Each hook is a loop of visits over what its selector finds. *)
Lemma render_loop (hook : Hook) (doc : Document) :
  exists c mark,
    render hook doc = fold_left (visit c mark) (querySelectorAll (selectorOf hook) doc) doc.
Proof.
  destruct hook; cbn [render selectorOf].
  - exists ["fas"; "fa-stop"]%string, (addClass "speaking"). reflexivity.
  - exists ["fas"; "fa-volume-up"]%string, (removeClass "speaking"). reflexivity.
  - exists ["fas"; "fa-play"]%string, (fun l => l). unfold onSpeechPause.
    apply fold_left_same. intros a b. apply setIcon_visit.
  - exists ["fas"; "fa-stop"]%string, (fun l => l). unfold onSpeechResume.
    apply fold_left_same. intros a b. apply setIcon_visit.
Qed.

Lemma In_addClass_token (token : string) (l : list string) : In token (addClass token l).
Proof.
  unfold addClass. destruct (existsb (String.eqb token) l) eqn:E.
  - apply existsb_exists in E as (x & Hin & Hx). apply String.eqb_eq in Hx. subst. exact Hin.
  - apply in_or_app. right. left. reflexivity.
Qed.

Lemma not_In_removeClass_token (token : string) (l : list string) :
  ~ In token (removeClass token l).
Proof.
  unfold removeClass. intro Hin. apply filter_In in Hin as [_ Hne].
  rewrite String.eqb_refl in Hne. discriminate.
Qed.

(** X21. When speech starts, every speech button of a well-formed page ends up
    marked [speaking]; its icon, when it has one, shows the stop sign and
    nothing else, but for the mark [speaking] when the icon is a speech
    button itself. *)
Theorem onSpeechStart_marks_every_button (doc : Document) (btn : nat) :
  inDocumentOrder doc -> selects speechButtons doc btn = true ->
  (exists l, classesAt (onSpeechStart doc) btn = Some l /\ In "speaking"%string l) /\
  forall icon, iconOf doc btn = Some icon ->
    classesAt (onSpeechStart doc) icon =
      Some (if selects speechButtons doc icon
            then ["fas"; "fa-stop"; "speaking"]%string
            else ["fas"; "fa-stop"]%string).
Proof.
  intros Hord Hsel.
  change (onSpeechStart doc) with
    (fold_left (visit ["fas"; "fa-stop"]%string (addClass "speaking"))
       (querySelectorAll speechButtons doc) doc).
  assert (Hsorted : StronglySorted lt (querySelectorAll speechButtons doc))
    by apply selectFrom_sorted.
  apply querySelectorAll_places in Hsel as Hin.
  split.
  - destruct (loop_selected ["fas"; "fa-stop"]%string (addClass "speaking") _ doc btn
                Hord Hsorted Hin (selects_in_range _ _ _ Hsel)) as [l Hl].
    exists (addClass "speaking" l). split; [exact Hl | apply In_addClass_token].
  - intros icon Hicon.
    rewrite (loop_icon _ _ _ doc btn icon Hord Hsorted Hin Hicon), querySelectorAll_member.
    destruct (selects speechButtons doc icon); reflexivity.
Qed.

(** X22. When speech ends, every speech button of a well-formed page ends up
    without the mark [speaking], and its icon, when it has one, shows the
    loudspeaker and nothing else. *)
Theorem onSpeechEnd_unmarks_every_button (doc : Document) (btn : nat) :
  inDocumentOrder doc -> selects speechButtons doc btn = true ->
  (exists l, classesAt (onSpeechEnd doc) btn = Some l /\ ~ In "speaking"%string l) /\
  forall icon, iconOf doc btn = Some icon ->
    classesAt (onSpeechEnd doc) icon = Some ["fas"; "fa-volume-up"]%string.
Proof.
  intros Hord Hsel.
  change (onSpeechEnd doc) with
    (fold_left (visit ["fas"; "fa-volume-up"]%string (removeClass "speaking"))
       (querySelectorAll speechButtons doc) doc).
  assert (Hsorted : StronglySorted lt (querySelectorAll speechButtons doc))
    by apply selectFrom_sorted.
  apply querySelectorAll_places in Hsel as Hin.
  split.
  - destruct (loop_selected ["fas"; "fa-volume-up"]%string (removeClass "speaking") _ doc btn
                Hord Hsorted Hin (selects_in_range _ _ _ Hsel)) as [l Hl].
    exists (removeClass "speaking" l). split; [exact Hl | apply not_In_removeClass_token].
  - intros icon Hicon.
    rewrite (loop_icon _ _ _ doc btn icon Hord Hsorted Hin Hicon).
    destruct (existsb _ _); reflexivity.
Qed.

(** X23. Pausing and resuming change icons only: the icon of every element
    marked [speaking] shows the play sign after a pause and the stop sign
    after a resume, and every element that is not such an icon keeps its
    classes, the mark [speaking] included. *)
Theorem pause_and_resume_swap_icons (doc : Document) :
  inDocumentOrder doc ->
  (forall btn icon,
     selects ["speaking"%string] doc btn = true -> iconOf doc btn = Some icon ->
     classesAt (onSpeechPause doc) icon = Some ["fas"; "fa-play"]%string /\
     classesAt (onSpeechResume doc) icon = Some ["fas"; "fa-stop"]%string) /\
  (forall k,
     (forall btn, selects ["speaking"%string] doc btn = true -> iconOf doc btn <> Some k) ->
     classesAt (onSpeechPause doc) k = classesAt doc k /\
     classesAt (onSpeechResume doc) k = classesAt doc k).
Proof.
  intro Hord.
  assert (Hpause : onSpeechPause doc =
            fold_left (visit ["fas"; "fa-play"]%string (fun l => l))
              (querySelectorAll ["speaking"%string] doc) doc).
  { apply fold_left_same. intros a b. apply setIcon_visit. }
  assert (Hresume : onSpeechResume doc =
            fold_left (visit ["fas"; "fa-stop"]%string (fun l => l))
              (querySelectorAll ["speaking"%string] doc) doc).
  { apply fold_left_same. intros a b. apply setIcon_visit. }
  rewrite Hpause, Hresume.
  assert (Hsorted : StronglySorted lt (querySelectorAll ["speaking"%string] doc))
    by apply selectFrom_sorted.
  split.
  - intros btn icon Hsel Hicon. apply querySelectorAll_places in Hsel as Hin.
    rewrite !(loop_icon _ _ _ doc btn icon Hord Hsorted Hin Hicon).
    destruct (existsb _ _); split; reflexivity.
  - intros k Hk.
    assert (Hfree : forall btn, In btn (querySelectorAll ["speaking"%string] doc) ->
                                iconOf doc btn <> Some k).
    { intros btn Hin. apply Hk, querySelectorAll_places, Hin. }
    split; apply icons_rest; exact Hfree.
Qed.

(** X24. No hook adds or removes an element or moves an icon, and a hook
    changes the classes of no element but those its selector finds and
    their icons. *)
Theorem hooks_leave_the_rest (hook : Hook) (doc : Document) :
  length (render hook doc) = length doc /\
  (forall k, iconOf (render hook doc) k = iconOf doc k) /\
  (forall k,
     selects (selectorOf hook) doc k = false ->
     (forall btn, selects (selectorOf hook) doc btn = true -> iconOf doc btn <> Some k) ->
     classesAt (render hook doc) k = classesAt doc k).
Proof.
  destruct (render_loop hook doc) as (c & mark & ->).
  split; [apply loop_length|]. split; [intro k; apply loop_iconOf|].
  intros k Hk Hicon. apply loop_rest.
  - intro Hin. apply querySelectorAll_places in Hin. congruence.
  - intros btn Hin. apply Hicon, querySelectorAll_places, Hin.
Qed.

End ButtonsFacts.

(** * The properties at work *)

Ltac document_order :=
  let btn := fresh "btn" in
  let icon := fresh "icon" in
  let Hicon := fresh "Hicon" in
  intros btn icon Hicon; unfold Buttons.iconOf in Hicon;
  do 3 (destruct btn as [|btn];
        [vm_compute in Hicon; try discriminate Hicon; injection Hicon as <-; vm_compute; lia|]);
  destruct btn; discriminate Hicon.

Lemma answerCard_inDocumentOrder : Buttons.inDocumentOrder answerCard.
Proof. document_order. Qed.

Lemma answerCardSpeaking_inDocumentOrder : Buttons.inDocumentOrder answerCardSpeaking.
Proof. document_order. Qed.

Lemma nestedButtons_inDocumentOrder : Buttons.inDocumentOrder nestedButtons.
Proof. document_order. Qed.

Lemma listeners_only_stop_while_speaking_when_reading :
  onClick (H := plainHost) true (Some greetingButton) readingManager =
    (true, after stop readingManager, [Engine Cancel; Ui OnSpeechEnd]) /\
  onKeyDown (H := plainHost) shortcutKey plainPage readingManager =
    (true, after stop readingManager, [Engine Cancel; Ui OnSpeechEnd]).
Proof.
  destruct (listeners_only_stop_while_speaking (H := plainHost) true readingManager
              greetingButton shortcutKey plainPage eq_refl) as [Hclick Hkey].
  exact (conj Hclick (Hkey eq_refl)).
Defined.

Lemma click_with_nothing_to_read_on_dangling_selector :
  onClick (H := plainHost) true (Some danglingButton) freshManager =
    (true, freshManager,
     [Console Warn "No text found to speak";
      Notification "No text available to read aloud." "warning" 2000]).
Proof.
  exact (proj1 (click_with_nothing_to_read (H := plainHost) true freshManager danglingButton
                  eq_refl eq_refl)).
Defined.

Lemma click_with_blank_text_is_not_announced_on_blanks :
  onClick (H := plainHost) true (Some blankButton) freshManager =
    (true, stopped (quietEngine [david; samantha]) freshManager,
     [Engine Cancel; Ui OnSpeechEnd; Console Warn "No text to speak"]).
Proof.
  apply (click_with_blank_text_is_not_announced (H := plainHost) true freshManager
           (quietEngine [david; samantha]) blankButton); [reflexivity | reflexivity | | reflexivity].
  discriminate.
Defined.

Lemma click_twice_starts_and_stops_on_greeting :
  let u := newUtterance (prepareText (H := plainHost) (Some (js "Good morning")))
             Options.none (settings freshManager) in
  let reading := after (onClick (H := plainHost) true (Some greetingButton)) freshManager in
  effectsOf (onClick (H := plainHost) true (Some greetingButton)) freshManager =
    [Engine Cancel; Ui OnSpeechEnd; Engine (Speak u)] /\
  currentUtterance reading = Some u /\ heldBy reading = [u] /\ isSpeaking reading = true /\
  onClick (H := plainHost) true (Some danglingButton) reading =
    (true, after stop freshManager, [Engine Cancel; Ui OnSpeechEnd]).
Proof.
  exact (click_twice_starts_and_stops (H := plainHost) true freshManager
           (quietEngine [david; samantha]) greetingButton danglingButton
           eq_refl eq_refl eq_refl eq_refl).
Defined.

Lemma keydown_other_keys_on_escape :
  onKeyDown (H := plainHost) escapeKey plainPage freshManager = (false, freshManager, []) /\
  onKeyDown (H := plainHost) escapeKey plainPage readingManager =
    (false, after stop readingManager, [Engine Cancel; Ui OnSpeechEnd]).
Proof.
  split.
  - exact (proj1 (keydown_other_keys (H := plainHost) freshManager escapeKey plainPage eq_refl)
             eq_refl).
  - exact (proj2 (keydown_other_keys (H := plainHost) readingManager escapeKey plainPage eq_refl)
             eq_refl).
Defined.

Lemma pause_resume_round_trip_when_reading :
  run (H := plainHost) true [CallPause; CallResume] readingManager =
    (tt, readingManager, [Engine Pause; Engine Resume]).
Proof.
  exact (proj1 (pause_resume_round_trip (H := plainHost) true readingManager) eq_refl).
Defined.

Lemma prepareText_of_blank_text_is_empty_on_blanks :
  prepareText (H := plainHost) (Some (js "   ")) = [].
Proof.
  apply (prepareText_of_blank_text_is_empty (H := plainHost) (js "   "));
    cbn; repeat constructor.
Defined.

Lemma prepareText_has_single_spaces_on_two_lines :
  nth_error (prepareText (H := plainHost) (Some twoLines)) 5 = Some 0x20 /\
  forall d, nth_error (prepareText (H := plainHost) (Some twoLines)) 6 = Some d ->
            isSpace d = false.
Proof.
  split; [reflexivity|].
  exact (proj2 (prepareText_has_single_spaces plainHost (Some twoLines) 5%nat 0x20
                  eq_refl eq_refl)).
Defined.

Lemma judge_ignores_padding_around_a_name :
  FormUtils.judge optionalAddress (js "  " ++ js "ada@example.org" ++ js " ") =
  FormUtils.judge optionalAddress (js "ada@example.org").
Proof.
  apply (FormUtilsFacts.judge_ignores_padding optionalAddress (js "  ")
           (js "ada@example.org") (js " ")); repeat constructor.
Defined.

Lemma blank_field_verdict_on_optional_address :
  fst (FormUtils.judge optionalAddress (js "  ")) = false.
Proof.
  apply (FormUtilsFacts.blank_field_verdict optionalAddress (js "  ")).
  repeat constructor.
Defined.

Lemma without_engine_nothing_is_spoken_on_mute_page :
  synth (after (run (H := plainHost) true
                  [CallSpeak (Some (js "Hello")) Options.none; CallPause; CallStop])
           muteManager) = None /\
  (forall call,
     ~ In (Engine call)
          (effectsOf (run (H := plainHost) true
                        [CallSpeak (Some (js "Hello")) Options.none; CallPause; CallStop])
             muteManager)).
Proof.
  destruct (without_engine_nothing_is_spoken (H := plainHost) true
              [CallSpeak (Some (js "Hello")) Options.none; CallPause; CallStop]
              muteManager eq_refl) as (Hsynth & _ & Hcalls & _).
  exact (conj Hsynth Hcalls).
Defined.

Lemma link_is_replaced_inside_a_sentence :
  replace url (js "see " ++ lessonLink ++ js " now") =
    replace url (js "see ") ++ js "link" ++
    replaceAll url (lastUnit None (js "see " ++ lessonLink)) 0 (js " now").
Proof.
  apply (link_is_replaced (js "see ") lessonLink (js " now")); [|reflexivity|reflexivity].
  exists (js "example.org/lesson/7").
  split; [right; reflexivity | split; [discriminate | repeat constructor]].
Defined.

Lemma lone_link_is_read_as_link_on_lesson :
  prepareText (H := plainHost) (Some lessonLink) = js "link".
Proof.
  apply (lone_link_is_read_as_link plainHost lessonLink); [|reflexivity].
  exists (js "example.org/lesson/7").
  split; [right; reflexivity | split; [discriminate | repeat constructor]].
Defined.

Lemma doubled_punctuation_keeps_first_mark_on_question :
  replace duplicatePunctuation (js "Wait" ++ 0x3F :: js " " ++ js "!" ++ js " Go") =
    replace duplicatePunctuation (js "Wait") ++ [0x3F] ++
    replaceAll duplicatePunctuation (lastUnit None (js "Wait" ++ 0x3F :: js " " ++ js "!")) 0
      (js " Go").
Proof.
  apply (doubled_punctuation_keeps_first_mark (js "Wait") 0x3F (js " ") (js "!") (js " Go"));
    try reflexivity; try (repeat constructor); discriminate.
Defined.

Lemma first_click_loads_voices_once_on_fresh_page :
  isInitialized (after (react (H := plainHost) true FirstClick) freshManager) = true /\
  react (H := plainHost) true FirstClick
    (after (react (H := plainHost) true FirstClick) freshManager) =
    (tt, after (react (H := plainHost) true FirstClick) freshManager, []).
Proof.
  destruct (first_click_loads_voices_once (H := plainHost) true freshManager
              (quietEngine [david; samantha]) eq_refl eq_refl)
    as (_ & Hinit & _ & _ & _ & _ & Hagain).
  exact (conj Hinit Hagain).
Defined.

Lemma voices_changed_reselects_on_empty_catalog :
  voices (after (react (H := plainHost) true (VoicesChanged [])) freshManager) = [] /\
  Settings.voice (settings (after (react (H := plainHost) true (VoicesChanged [])) freshManager)) =
    Settings.voice (settings freshManager).
Proof.
  destruct (voices_changed_reselects (H := plainHost) true freshManager
              (quietEngine [david; samantha]) [] eq_refl)
    as (Hvoices & _ & Hkept & _).
  exact (conj Hvoices (Hkept eq_refl)).
Defined.

Lemma onSpeechStart_marks_every_button_when_nested :
  Buttons.classesAt (Buttons.onSpeechStart nestedButtons) 2 =
    Some ["fas"; "fa-stop"; "speaking"]%string.
Proof.
  exact (proj2 (ButtonsFacts.onSpeechStart_marks_every_button nestedButtons 0
                  nestedButtons_inDocumentOrder eq_refl) 2%nat eq_refl).
Defined.

Lemma onSpeechEnd_unmarks_every_button_on_card :
  Buttons.classesAt (Buttons.onSpeechEnd answerCardSpeaking) 1 =
    Some ["fas"; "fa-volume-up"]%string.
Proof.
  exact (proj2 (ButtonsFacts.onSpeechEnd_unmarks_every_button answerCardSpeaking 0
                  answerCardSpeaking_inDocumentOrder eq_refl) 1%nat eq_refl).
Defined.

Lemma pause_and_resume_swap_icons_on_card :
  Buttons.classesAt (Buttons.onSpeechPause answerCardSpeaking) 1 =
    Some ["fas"; "fa-play"]%string /\
  Buttons.classesAt (Buttons.onSpeechResume answerCardSpeaking) 1 =
    Some ["fas"; "fa-stop"]%string.
Proof.
  exact (proj1 (ButtonsFacts.pause_and_resume_swap_icons answerCardSpeaking
                  answerCardSpeaking_inDocumentOrder) 0%nat 1%nat eq_refl eq_refl).
Defined.
